(** * PGSL lattice engine: a shallow embedding of the [PGSLEngine] class

    The engine (services/cahEngine.ts) keeps three JavaScript objects, the
    atom registry, the fragment registry and the node repository, and
    builds, for an ingested sequence, one fragment per contiguous
    sub-sequence.  This file embeds the class method by method and proves
    the properties stated about it.

    Conventions of the embedding.
    - The registries and the repository are plain objects ([{}]).  A read
      [o[k]] answers with the own property [k] when there is one and
      otherwise with the property of that name inherited from
      [Object.prototype], if any ([js_get], [inherited_keys]).  Own
      properties are a finite map ([gmap]) for the registries and an
      insertion-ordered association list for the repository, which is read
      back in insertion order ([Object.values]; its keys are minted
      identifiers, which contain a slash and so are never array indices).
    - A value that flows where the code expects an identifier is a string
      or one of the members of [Object.prototype] ([Ref]): the latter is
      what [atomRegistry["constructor"]] evaluates to.
    - A condition on a looked-up identifier is JavaScript truthiness:
      [undefined] and the empty string are falsy ([truthy], [truthyRef]).
    - [pgsl:height] is a JavaScript number: a natural number or [NaN].
    - [generateUUID] and [new Date()] are the two sources of
      non-determinism; they are streams ([uuid], [now]) read at the
      position recorded in the engine ([drawn]).  Where a proof needs
      identifiers to be fresh it assumes that the stream never repeats a
      value ([uuid_inj]) and that a UUID contains no slash ([uuid_plain]).
    - A JavaScript number is an abstract [JSNumber] with its [String(n)]
      rendering [NumberToString]; the text [String(m)] of a member [m] of
      [Object.prototype] is [member_source].
    - Listeners are opaque callbacks that do not call back into the
      engine; the engine records which listener was invoked and the state
      it could observe at that moment, in order ([calls]). *)

From Stdlib Require Import Ascii.
From stdpp Require Import gmap strings list fin_maps pretty.

#[local] Arguments String.append !_ _ / : simpl nomatch.

(** ** Strings: the few [String.prototype] operations the engine uses *)

Definition dquote : ascii := "034"%char.
Definition backslash : ascii := "092"%char.

(** [s.startsWith(p)] *)
Fixpoint startsWith (p s : string) : bool :=
  match p, s with
  | EmptyString, _ => true
  | String a p', String b s' => if decide (a = b) then startsWith p' s' else false
  | String _ _, EmptyString => false
  end.

(** [s.includes(p)] *)
Fixpoint str_includes (p s : string) : bool :=
  match s with
  | EmptyString => startsWith p EmptyString
  | String _ s' => startsWith p s || str_includes p s'
  end.

(** [xs.join(sep)] *)
Fixpoint join (sep : string) (xs : list string) : string :=
  match xs with
  | [] => EmptyString
  | [x] => x
  | x :: xs' => x +:+ sep +:+ join sep xs'
  end.

(** [id.split('/').pop()]: the text after the last slash. *)
Fixpoint trailing_segment_go (cur s : string) : string :=
  match s with
  | EmptyString => String.rev cur
  | String c s' =>
      if decide (c = "/"%char) then trailing_segment_go EmptyString s'
      else trailing_segment_go (String c cur) s'
  end.
Definition trailing_segment (id : string) : string :=
  trailing_segment_go EmptyString id.

(** ** [JSON.stringify] on an array of strings *)

(** The hexadecimal digit of [n < 16], in lower case. *)
Definition hex_digit (n : N) : ascii :=
  if (n <? 10)%N then ascii_of_N (48 + n) else ascii_of_N (87 + n).

(** QuoteJSONString, one code unit at a time. *)
Definition QuoteJSONChar (c : ascii) : string :=
  match N_of_ascii c with
  | 8 => "\b" | 9 => "\t" | 10 => "\n" | 12 => "\f" | 13 => "\r"
  | 34 => String backslash (String dquote EmptyString)
  | 92 => "\\"
  | n =>
      if (n <? 32)%N
      then "\u00" +:+ String (hex_digit (n / 16)) (String (hex_digit (n mod 16)) EmptyString)
      else String c EmptyString
  end%N.

Fixpoint QuoteJSONBody (s : string) : string :=
  match s with
  | EmptyString => EmptyString
  | String c s' => QuoteJSONChar c +:+ QuoteJSONBody s'
  end.

Definition QuoteJSONString (s : string) : string :=
  String dquote (QuoteJSONBody s +:+ String dquote EmptyString).

(** A value found where an identifier is expected: a string, or the
    member [Object.prototype[key]] (a function; the prototype object
    itself for [__proto__]). *)
Inductive Ref :=
  | Str (s : string)
  | Member (key : string).

#[global] Instance Ref_eq_dec : EqDecision Ref.
Proof. solve_decision. Defined.

(** One array element as [JSON.stringify] writes it: a string is quoted,
    a function becomes [null] and the prototype object [{}]. *)
Definition ref_json (r : Ref) : string :=
  match r with
  | Str s => QuoteJSONString s
  | Member key => if decide (key = "__proto__") then "{}" else "null"
  end.

Definition JSON_stringify (content : list Ref) : string :=
  "[" +:+ join "," (ref_json <$> content) +:+ "]".

(** *** [JSON.stringify] is injective on arrays of strings *)

Definition unhex (c : ascii) : option N :=
  let n := N_of_ascii c in
  if ((48 <=? n) && (n <=? 57))%N then Some (n - 48)%N
  else if ((97 <=? n) && (n <=? 102))%N then Some (n - 87)%N
  else None.

(** Reads back one quoted code unit from the front of a string. *)
Definition unquote_char (s : string) : option (ascii * string) :=
  match s with
  | EmptyString => None
  | String c r =>
      if decide (c = backslash) then
        match r with
        | String "b" r' => Some ("008"%char, r')
        | String "t" r' => Some ("009"%char, r')
        | String "n" r' => Some ("010"%char, r')
        | String "f" r' => Some ("012"%char, r')
        | String "r" r' => Some ("013"%char, r')
        | String "u" (String _ (String _ (String h (String l r')))) =>
            match unhex h, unhex l with
            | Some a, Some b => Some (ascii_of_N (16 * a + b), r')
            | _, _ => None
            end
        | String c' r' =>
            if decide (c' = dquote) then Some (dquote, r')
            else if decide (c' = backslash) then Some (backslash, r')
            else None
        | EmptyString => None
        end
      else if decide (c = dquote) then None
      else Some (c, r)
  end%char.

Lemma unquote_char_quote c r :
  unquote_char (QuoteJSONChar c +:+ r) = Some (c, r).
Proof. by destruct c as [[] [] [] [] [] [] [] []]. Qed.

Lemma unquote_char_dquote r : unquote_char (String dquote r) = None.
Proof. done. Qed.

Lemma string_app_assoc (a b c : string) : (a +:+ b) +:+ c = a +:+ (b +:+ c).
Proof. induction a as [|x a IH]; [done|]. cbn. by rewrite IH. Qed.

Lemma QuoteJSONBody_inj s1 s2 r1 r2 :
  QuoteJSONBody s1 +:+ String dquote r1 = QuoteJSONBody s2 +:+ String dquote r2 →
  s1 = s2 ∧ r1 = r2.
Proof.
  revert s2. induction s1 as [|c1 s1 IH]; intros [|c2 s2] H; cbn in H.
  - by inversion H.
  - rewrite string_app_assoc in H. apply (f_equal unquote_char) in H.
    by rewrite unquote_char_quote, unquote_char_dquote in H.
  - rewrite string_app_assoc in H. apply (f_equal unquote_char) in H.
    by rewrite unquote_char_quote, unquote_char_dquote in H.
  - rewrite !string_app_assoc in H. apply (f_equal unquote_char) in H.
    rewrite !unquote_char_quote in H. inversion H; subst.
    destruct (IH s2) as [-> ->]; done.
Qed.

Lemma QuoteJSONString_inj s1 s2 r1 r2 :
  QuoteJSONString s1 +:+ r1 = QuoteJSONString s2 +:+ r2 → s1 = s2 ∧ r1 = r2.
Proof.
  unfold QuoteJSONString. cbn. rewrite !string_app_assoc. cbn.
  intros H. inversion H as [H']. by apply QuoteJSONBody_inj in H'.
Qed.

Lemma QuoteJSONString_head s r :
  ∃ r', QuoteJSONString s +:+ r = String dquote r'.
Proof. unfold QuoteJSONString. cbn. eauto. Qed.

#[local] Opaque QuoteJSONString.

(** Two elements written alike; a string is written like no other
    element. *)
Definition alike (r1 r2 : Ref) : Prop := ref_json r1 = ref_json r2.

Lemma alike_Str r s : alike r (Str s) → r = Str s.
Proof.
  unfold alike. destruct r as [s'|key]; cbn.
  - intros H. apply (f_equal (λ x, x +:+ EmptyString)) in H.
    by apply QuoteJSONString_inj in H as [-> _].
  - intros Heq. apply (f_equal (λ x, x +:+ EmptyString)) in Heq.
    destruct (QuoteJSONString_head s EmptyString) as [r' Hr'].
    rewrite Hr' in Heq. by case_decide.
Qed.

Lemma ref_json_split x1 x2 r1 r2 :
  ref_json x1 +:+ r1 = ref_json x2 +:+ r2 → alike x1 x2 ∧ r1 = r2.
Proof.
  unfold alike. destruct x1 as [s1|k1], x2 as [s2|k2]; cbn.
  - intros [-> ->]%QuoteJSONString_inj. done.
  - destruct (QuoteJSONString_head s1 r1) as [r' ->]. by case_decide.
  - destruct (QuoteJSONString_head s2 r2) as [r' ->]. by case_decide.
  - do 2 case_decide; cbn; intros Heq; by inversion Heq.
Qed.

(** The text after the opening bracket: elements, commas, closing bracket. *)
Fixpoint json_elements (l : list Ref) : string :=
  match l with
  | [] => "]"
  | [x] => ref_json x +:+ "]"
  | x :: l' => ref_json x +:+ "," +:+ json_elements l'
  end.

Lemma JSON_stringify_elements l : JSON_stringify l = String "[" (json_elements l).
Proof.
  unfold JSON_stringify. cbn. f_equal.
  induction l as [|x [|y l] IH]; [done|done|].
  change (join "," (ref_json <$> x :: y :: l))
    with (ref_json x +:+ "," +:+ join "," (ref_json <$> y :: l)).
  change (json_elements (x :: y :: l))
    with (ref_json x +:+ "," +:+ json_elements (y :: l)).
  rewrite <- IH, !string_app_assoc. done.
Qed.

Lemma json_elements_cons x l :
  ∃ r, json_elements (x :: l) = ref_json x +:+ r
       ∧ (l = [] → r = "]") ∧ (l ≠ [] → r = "," +:+ json_elements l).
Proof. destruct l; eexists; split_and!; done. Qed.

Lemma ref_json_head x r : ref_json x +:+ r ≠ "]".
Proof.
  destruct x as [s|key]; cbn.
  - destruct (QuoteJSONString_head s r) as [r' ->]. done.
  - by case_decide.
Qed.

Lemma json_elements_alike l1 l2 :
  json_elements l1 = json_elements l2 → Forall2 alike l1 l2.
Proof.
  revert l2. induction l1 as [|x1 l1 IH]; intros [|x2 l2] H.
  - constructor.
  - destruct (json_elements_cons x2 l2) as (r & Hr & _).
    rewrite Hr in H. symmetry in H. by apply ref_json_head in H.
  - destruct (json_elements_cons x1 l1) as (r & Hr & _).
    rewrite Hr in H. by apply ref_json_head in H.
  - destruct (json_elements_cons x1 l1) as (r1 & Hr1 & Hn1 & Hc1).
    destruct (json_elements_cons x2 l2) as (r2 & Hr2 & Hn2 & Hc2).
    rewrite Hr1, Hr2 in H. apply ref_json_split in H as [Hx H].
    constructor; [done|].
    destruct l1 as [|y1 l1], l2 as [|y2 l2]; [constructor| | |].
    + rewrite Hn1, Hc2 in H by done. discriminate.
    + rewrite Hc1, Hn2 in H by done. discriminate.
    + rewrite Hc1, Hc2 in H by done. apply IH. by inversion H.
Qed.

Lemma JSON_stringify_alike l1 l2 :
  JSON_stringify l1 = JSON_stringify l2 → Forall2 alike l1 l2.
Proof.
  intros H. rewrite !JSON_stringify_elements in H.
  apply json_elements_alike. by inversion H.
Qed.

(** An array of strings only. *)
Definition plain (content : list Ref) : Prop :=
  Forall (λ r, ∃ s, r = Str s) content.

Lemma plain_Str ss : plain (Str <$> ss).
Proof. apply Forall_fmap, Forall_true. intros s. by exists s. Qed.

Lemma JSON_stringify_inj l1 l2 :
  plain l2 → JSON_stringify l1 = JSON_stringify l2 → l1 = l2.
Proof.
  intros Hplain H%JSON_stringify_alike.
  induction H as [|x1 x2 l1 l2 Hx _ IH]; [done|].
  apply Forall_cons in Hplain as [[s ->] Hplain].
  apply alike_Str in Hx as ->. f_equal. by apply IH.
Qed.

Lemma JSON_stringify_length l1 l2 :
  JSON_stringify l1 = JSON_stringify l2 → length l1 = length l2.
Proof. intros H%JSON_stringify_alike. by eapply Forall2_length. Qed.

#[local] Transparent QuoteJSONString.

(** ** Reading a property of a plain object

    The properties every plain object inherits from [Object.prototype]. *)

Definition inherited_keys : list string :=
  ["constructor"; "__defineGetter__"; "__defineSetter__"; "hasOwnProperty";
   "__lookupGetter__"; "__lookupSetter__"; "isPrototypeOf";
   "propertyIsEnumerable"; "toString"; "valueOf"; "__proto__";
   "toLocaleString"].

Definition inherited (key : string) : bool := bool_decide (key ∈ inherited_keys).

(** The result of [o[key]]. *)
Inductive Lookup (A : Type) :=
  | Own (a : A)
  | Inherit (key : string)
  | Undefined.
Arguments Own {A} a.
Arguments Inherit {A} key.
Arguments Undefined {A}.

(** [o[key]], given the own property of that name, if any. *)
Definition js_get {A : Type} (own : option A) (key : string) : Lookup A :=
  match own with
  | Some a => Own a
  | None => if inherited key then Inherit key else Undefined
  end.

Lemma js_get_Own {A} (own : option A) key a :
  js_get own key = Own a ↔ own = Some a.
Proof.
  unfold js_get. destruct own; [|by destruct (inherited key)].
  split; by intros [= <-].
Qed.

Lemma inherited_elem key : inherited key = true ↔ key ∈ inherited_keys.
Proof. apply bool_decide_eq_true. Qed.

(** No key the engine writes names an inherited property: a registry key
    of the fragment registry starts with a bracket. *)
Lemma inherited_bracket s : inherited (String "[" s) = false.
Proof.
  apply bool_decide_eq_false. unfold inherited_keys. intros H.
  repeat (apply elem_of_cons in H as [H|H]; [discriminate|]).
  by apply elem_of_nil in H.
Qed.

Lemma inherited_JSON content : inherited (JSON_stringify content) = false.
Proof. rewrite JSON_stringify_elements. apply inherited_bracket. Qed.

Lemma js_get_JSON {A} (own : option A) content :
  js_get own (JSON_stringify content)
  = match own with Some a => Own a | None => Undefined end.
Proof. unfold js_get. by rewrite inherited_JSON. Qed.

(** ** A JavaScript object read back in insertion order

    [o[k] = v] keeps the position of an existing key and appends a new
    one; [delete o[k]] removes the key; [Object.values(o)] lists the
    values in insertion order. *)

Section ordered_object.
Context {V : Type}.
Implicit Types (o : list (string * V)) (k : string) (v : V).

Fixpoint obj_get k o : option V :=
  match o with
  | [] => None
  | (k', v) :: o' => if decide (k = k') then Some v else obj_get k o'
  end.

Fixpoint obj_set k v o : list (string * V) :=
  match o with
  | [] => [(k, v)]
  | (k', v') :: o' =>
      if decide (k = k') then (k, v) :: o' else (k', v') :: obj_set k v o'
  end.

Definition obj_delete k o : list (string * V) :=
  filter (λ kv, kv.1 ≠ k) o.

Definition obj_values o : list V := o.*2.

Lemma obj_get_set_eq k v o : obj_get k (obj_set k v o) = Some v.
Proof.
  induction o as [|[k' v'] o IH]; cbn;
    repeat (case_decide; cbn; try done).
Qed.

Lemma obj_get_set_ne k k' v o :
  k ≠ k' → obj_get k' (obj_set k v o) = obj_get k' o.
Proof.
  intros Hne. induction o as [|[k0 v0] o IH]; cbn.
  - by case_decide.
  - repeat (case_decide; cbn); subst; congruence.
Qed.

Lemma obj_set_fresh k v o : obj_get k o = None → obj_set k v o = o ++ [(k, v)].
Proof.
  induction o as [|[k' v'] o IH]; cbn; [done|].
  case_decide; [done|]. intros Hget. by rewrite IH.
Qed.

Lemma obj_delete_cons k k' v o :
  obj_delete k ((k', v) :: o)
  = if decide (k' = k) then obj_delete k o else (k', v) :: obj_delete k o.
Proof.
  unfold obj_delete. rewrite filter_cons. cbn [fst].
  destruct (decide (k' = k)) as [->|Hne].
  - by rewrite decide_False by (intros Hc; by apply Hc).
  - by rewrite decide_True.
Qed.

Lemma obj_get_delete_eq k o : obj_get k (obj_delete k o) = None.
Proof.
  induction o as [|[k' v'] o IH]; [done|].
  rewrite obj_delete_cons. case_decide as Hk; [done|].
  cbn. by rewrite decide_False by congruence.
Qed.

Lemma obj_get_delete_ne k k' o :
  k ≠ k' → obj_get k' (obj_delete k o) = obj_get k' o.
Proof.
  intros Hne. induction o as [|[k0 v0] o IH]; [done|].
  rewrite obj_delete_cons. case_decide as Hk; subst; cbn.
  - by rewrite decide_False by congruence.
  - by rewrite IH.
Qed.

Lemma obj_delete_absent k o : obj_get k o = None → obj_delete k o = o.
Proof.
  induction o as [|[k' v'] o IH]; [done|].
  intros Hget. cbn in Hget. case_decide as Hk; [done|].
  rewrite obj_delete_cons, decide_False by congruence. by rewrite IH.
Qed.

Lemma obj_get_Some_elem k v o : obj_get k o = Some v → (k, v) ∈ o.
Proof.
  induction o as [|[k' v'] o IH]; cbn; [done|].
  case_decide; subst.
  - intros [= ->]. left.
  - intros Hget. right. auto.
Qed.

Lemma obj_get_None_keys k o : obj_get k o = None ↔ k ∉ o.*1.
Proof.
  induction o as [|[k' v'] o IH]; cbn.
  - split; [intros _; apply not_elem_of_nil|done].
  - rewrite not_elem_of_cons. case_decide as Hk; subst.
    + split; [done|]. by intros [? _].
    + rewrite IH. split; [by split|by intros [_ ?]].
Qed.

Lemma obj_elem_get k v o : NoDup o.*1 → (k, v) ∈ o → obj_get k o = Some v.
Proof.
  induction o as [|[k' v'] o IH]; cbn; [by intros _ ?%elem_of_nil|].
  intros [Hk Hnd]%NoDup_cons [[= -> ->]|Hin]%elem_of_cons.
  - by case_decide.
  - case_decide; subst; [|auto].
    exfalso. apply Hk. apply list_elem_of_fmap. by exists (k', v).
Qed.

Lemma obj_set_keys_fresh k v o :
  obj_get k o = None → (obj_set k v o).*1 = o.*1 ++ [k].
Proof. intros H. rewrite obj_set_fresh by done. by rewrite fmap_app. Qed.
End ordered_object.

(** ** Data model (types.ts) *)

Definition NodeType_ATOM : string := "pgsl:Atom".
Definition NodeType_FRAGMENT : string := "pgsl:Fragment".

(** What is thrown: the [Error] of the engine with its message, or the
    [TypeError] of the runtime for a property read on [undefined]. *)
Inductive Exception :=
  | Error (message : string)
  | TypeError.

(** How a call completes: with a value, or with an exception. *)
Inductive completion (A : Type) :=
  | Return (a : A)
  | Throw (ex : Exception).
Arguments Return {A} a.
Arguments Throw {A} ex.

Definition bind {A B : Type} (c : completion A) (f : A → completion B)
    : completion B :=
  match c with
  | Return a => f a
  | Throw ex => Throw ex
  end.

(** [pgsl:height]: a JavaScript number. *)
Inductive JSHeight :=
  | Height (n : nat)
  | NaN.

(** [Math.max(h1, h2) + 1] *)
Definition max_plus_1 (h1 h2 : JSHeight) : JSHeight :=
  match h1, h2 with
  | Height a, Height b => Height (Nat.max a b + 1)
  | _, _ => NaN
  end.

(** [h + 1] *)
Definition plus_1 (h : JSHeight) : JSHeight :=
  match h with
  | Height a => Height (a + 1)
  | NaN => NaN
  end.

(** [authority.replace(/\/$/, '')]: drops one slash at the very end. *)
Fixpoint trimTrailingSlash (s : string) : string :=
  match s with
  | EmptyString => EmptyString
  | String c s' =>
      match s' with
      | EmptyString =>
          if decide (c = "/"%char) then EmptyString else String c EmptyString
      | String _ _ => String c (trimTrailingSlash s')
      end
  end.

Section engine.
Context {JSNumber : Type} (NumberToString : JSNumber → string).
Context (uuid : nat → string) (now : nat → string).
(** [String(Object.prototype[key])], the text of a native function. *)
Context (member_source : string → string).

(** [Value = string | number] *)
Inductive Value :=
  | VString (s : string)
  | VNumber (n : JSNumber).

(** [String(value)] *)
Definition String_of (value : Value) : string :=
  match value with
  | VString s => s
  | VNumber n => NumberToString n
  end.

(** The property key a value is converted to in [o[r]]. *)
Definition ref_key (r : Ref) : string :=
  match r with
  | Str s => s
  | Member key => member_source key
  end.

(** [AtomNode]: level and height have the literal type [0]. *)
Record AtomNode := mkAtom {
  atom_id : string;
  rdf_value : Value;
  atom_wasAttributedTo : string;
  atom_generatedAtTime : string
}.

Record FragmentNode := mkFragment {
  frag_id : string;
  pgsl_level : nat;
  frag_height : JSHeight;
  pgsl_content : list Ref;
  pgsl_constituents : option (string * string);
  frag_wasAttributedTo : string;
  frag_generatedAtTime : string
}.

(** [Node = AtomNode | FragmentNode] *)
Inductive Node :=
  | Atom (a : AtomNode)
  | Fragment (f : FragmentNode).

Definition node_id (node : Node) : string :=
  match node with Atom a => atom_id a | Fragment f => frag_id f end.

(** The ["@type"] array. *)
Definition node_type (node : Node) : list string :=
  match node with
  | Atom _ => [NodeType_ATOM; "prov:Entity"]
  | Fragment _ => [NodeType_FRAGMENT; "prov:Entity"]
  end.

Definition pgsl_height (node : Node) : JSHeight :=
  match node with Atom _ => Height 0 | Fragment f => frag_height f end.

(** [xs.includes(x)] *)
Definition includes (x : string) (xs : list string) : bool :=
  bool_decide (x ∈ xs).

Record PGSLState := mkState {
  atomRegistry : gmap string string;
  fragmentRegistry : gmap string string;
  nodeRepository : list (string * Node)
}.

(** The engine object.  [drawn] counts the calls to [generateUUID] made
    so far; [calls] is the trace of listener invocations, each with the
    state the listener could observe. *)
Record PGSLEngine := mkEngine {
  state : PGSLState;
  listeners : list nat;
  authority : string;
  agent : string;
  drawn : nat;
  calls : list (nat * PGSLState)
}.

Definition with_state (e : PGSLEngine) (s : PGSLState) : PGSLEngine :=
  mkEngine s (listeners e) (authority e) (agent e) (drawn e) (calls e).

Definition emptyState : PGSLState := mkState ∅ ∅ [].

(** [new PGSLEngine()] *)
Definition newEngine : PGSLEngine :=
  mkEngine emptyState [] "http://localhost:3000"
    "did:web:localhost:user:default" 0 [].

Definition setFederationConfig (newAuthority newAgent : string)
    (e : PGSLEngine) : PGSLEngine :=
  mkEngine (state e) (listeners e) (trimTrailingSlash newAuthority) newAgent
    (drawn e) (calls e).

Definition getFederationConfig (e : PGSLEngine) : string * string :=
  (authority e, agent e).

(** A value used as a condition: [undefined] and the empty string are
    falsy, every other string is truthy. *)
Definition truthy (x : option string) : option string :=
  match x with
  | Some s => if decide (s = EmptyString) then None else Some s
  | None => None
  end.

(** The same for the result of [o[key]]: an inherited member is an
    object, hence truthy. *)
Definition truthyRef (x : Lookup string) : option Ref :=
  match x with
  | Own s => if decide (s = EmptyString) then None else Some (Str s)
  | Inherit key => Some (Member key)
  | Undefined => None
  end.

Definition subscribe (listener : nat) (e : PGSLEngine) : PGSLEngine :=
  mkEngine (state e) (listeners e ++ [listener]) (authority e) (agent e)
    (drawn e) (calls e).

(** The function returned by [subscribe(listener)]. *)
Definition unsubscribe (listener : nat) (e : PGSLEngine) : PGSLEngine :=
  mkEngine (state e) (filter (λ l, l ≠ listener) (listeners e)) (authority e)
    (agent e) (drawn e) (calls e).

Definition notify (e : PGSLEngine) : PGSLEngine :=
  mkEngine (state e) (listeners e) (authority e) (agent e) (drawn e)
    (calls e ++ ((λ listener, (listener, state e)) <$> listeners e)).

Definition getAllNodes (e : PGSLEngine) : list Node :=
  obj_values (nodeRepository (state e)).

(** The own property [uri] of the repository, if any. *)
Definition ownNode (e : PGSLEngine) (uri : string) : option Node :=
  obj_get uri (nodeRepository (state e)).

(** [this.state.nodeRepository[uri]] *)
Definition getNode (e : PGSLEngine) (uri : string) : Lookup Node :=
  js_get (ownNode e uri) uri.

(** [this.state.atomRegistry[stringKey]], as a condition. *)
Definition atomEntry (e : PGSLEngine) (stringKey : string) : option Ref :=
  truthyRef (js_get (atomRegistry (state e) !! stringKey) stringKey).

(** [this.state.fragmentRegistry[JSON.stringify(content)]]: the key
    starts with a bracket, so that it names no inherited property
    ([js_get_JSON]) and the read is that of an own property. *)
Definition fragmentEntry (e : PGSLEngine) (content : list Ref) : option string :=
  fragmentRegistry (state e) !! JSON_stringify content.

Definition getFragmentUri (e : PGSLEngine) (content : list string) : option string :=
  fragmentEntry e (Str <$> content).

Definition reset (e : PGSLEngine) : PGSLEngine :=
  notify (with_state e emptyState).

Definition deleteNode (uri : string) (e : PGSLEngine) : PGSLEngine :=
  let s := state e in
  notify (with_state e
    (mkState (filter (λ kv, kv.2 ≠ uri) (atomRegistry s))
             (filter (λ kv, kv.2 ≠ uri) (fragmentRegistry s))
             (obj_delete uri (nodeRepository s)))).

(** The identifier built from the [k]-th UUID. *)
Definition mint_name (auth type : string) (k : nat) : string :=
  auth +:+ "/" +:+ type +:+ "/" +:+ uuid k.

(** [mintURI]: consumes one UUID. *)
Definition mintURI (type : string) (e : PGSLEngine) : string * PGSLEngine :=
  (mint_name (authority e) type (drawn e),
   mkEngine (state e) (listeners e) (authority e) (agent e) (S (drawn e))
     (calls e)).

Definition getCanonicalAtom (value : Value) (e : PGSLEngine) : Ref * PGSLEngine :=
  let stringKey := String_of value in
  match atomEntry e stringKey with
  | Some found => (found, e)
  | None =>
      let '(newUri, e1) := mintURI "atoms" e in
      let atomNode := Atom (mkAtom newUri value (agent e1) (now (drawn e))) in
      let s := state e1 in
      let e2 := with_state e1
        (mkState (<[stringKey := newUri]> (atomRegistry s))
                 (fragmentRegistry s)
                 (obj_set newUri atomNode (nodeRepository s))) in
      (Str newUri, notify e2)
  end.

(** [c ? c["pgsl:height"] : 0] for [c = this.getNode(key)]: a member of
    [Object.prototype] has no such property, and [undefined] makes the
    arithmetic that follows [NaN]. *)
Definition heightOf (e : PGSLEngine) (key : string) : JSHeight :=
  match getNode e key with
  | Own c => pgsl_height c
  | Inherit _ => NaN
  | Undefined => Height 0
  end.

Definition newHeight (e : PGSLEngine) (content : list Ref)
    (constituents : option (string * string)) : JSHeight :=
  match constituents with
  | Some (c1, c2) => max_plus_1 (heightOf e c1) (heightOf e c2)
  | None =>
      match content with
      | c :: _ => plus_1 (heightOf e (ref_key c))
      | [] => plus_1 (Height 0)
      end
  end.

Definition getCanonicalFragment (content : list Ref)
    (constituents : option (string * string)) (e : PGSLEngine)
    : string * PGSLEngine :=
  let registryKey := JSON_stringify content in
  match truthy (fragmentEntry e content) with
  | Some found => (found, e)
  | None =>
      let '(newUri, e1) := mintURI "fragments" e in
      let level := length content in
      let height := newHeight e1 content constituents in
      let fragmentNode := Fragment
        (mkFragment newUri level height content constituents (agent e1)
           (now (drawn e))) in
      let s := state e1 in
      (newUri, with_state e1
        (mkState (atomRegistry s)
                 (<[registryKey := newUri]> (fragmentRegistry s))
                 (obj_set newUri fragmentNode (nodeRepository s))))
  end.

(** [xs.map(f)] where [f] reads and updates the engine. *)
Fixpoint mapM {A B : Type} (f : A → PGSLEngine → B * PGSLEngine)
    (xs : list A) (e : PGSLEngine) : list B * PGSLEngine :=
  match xs with
  | [] => ([], e)
  | x :: xs' =>
      let '(y, e1) := f x e in
      let '(ys, e2) := mapM f xs' e1 in
      (y :: ys, e2)
  end.

(** [xs.slice(i, j)] for [i <= j]. *)
Definition slice {A : Type} (xs : list A) (i j : nat) : list A :=
  take (j - i) (drop i xs).

Definition isURI (strItem : string) : bool :=
  str_includes "://" strItem || startsWith "did:" strItem.

Definition normalizeItem (item : Value) (e : PGSLEngine) : Ref * PGSLEngine :=
  let strItem := String_of item in
  if isURI strItem then (Str strItem, e) else getCanonicalAtom item e.

(** Body of the inner loop of [ingestSequence]; the accumulator is the
    engine paired with [topFragmentUri]. *)
Definition ingestStep (baseUris : list Ref) (N len i : nat)
    (acc : PGSLEngine * string) : PGSLEngine * string :=
  let '(e, topFragmentUri) := acc in
  let currentContent := slice baseUris i (i + len) in
  let leftContent := slice baseUris i (i + len - 1) in
  let rightContent := slice baseUris (i + 1) (i + len) in
  let leftUri := truthy (fragmentEntry e leftContent) in
  let rightUri := truthy (fragmentEntry e rightContent) in
  match leftUri, rightUri with
  | Some leftUri, Some rightUri =>
      let '(fragmentUri, e1) :=
        getCanonicalFragment currentContent (Some (leftUri, rightUri)) e in
      (e1, if decide (len = N) then fragmentUri else topFragmentUri)
  | _, _ => acc
  end.

(** [for (let i = 0; i <= N - len; i++)] *)
Definition ingestRow (baseUris : list Ref) (N len : nat)
    (acc : PGSLEngine * string) : PGSLEngine * string :=
  foldl (λ acc i, ingestStep baseUris N len i acc) acc (seq 0 (N - len + 1)).

(** [for (let len = 2; len <= N; len++)] *)
Definition ingestRows (baseUris : list Ref) (N : nat)
    (acc : PGSLEngine * string) : PGSLEngine * string :=
  foldl (λ acc len, ingestRow baseUris N len acc) acc (seq 2 (N - 1)).

Definition ingestSequence (items : list Value) (e : PGSLEngine)
    : completion string * PGSLEngine :=
  if decide (length items = 0) then (Throw (Error "Sequence cannot be empty"), e)
  else
    let '(baseUris, e1) := mapM normalizeItem items e in
    let '(level1Fragments, e2) :=
      mapM (λ baseUri, getCanonicalFragment [baseUri] None) baseUris e1 in
    if decide (length level1Fragments = 1) then
      (Return (default EmptyString (level1Fragments !! 0)), notify e2)
    else
      let topFragmentUri := default EmptyString (level1Fragments !! 0) in
      let N := length baseUris in
      let '(e3, topFragmentUri) := ingestRows baseUris N (e2, topFragmentUri) in
      (Return topFragmentUri, notify e3).

(** The test [node["@type"].includes(t)] tells the two variants apart. *)
Lemma includes_ATOM node :
  includes NodeType_ATOM (node_type node) = match node with Atom _ => true | Fragment _ => false end.
Proof. by destruct node. Qed.

Lemma includes_FRAGMENT node :
  includes NodeType_FRAGMENT (node_type node) = match node with Atom _ => false | Fragment _ => true end.
Proof. by destruct node. Qed.

(** [wrapper || uri] for an atom, [uri] otherwise.  A member of
    [Object.prototype] has no ["@type"], and [.includes] on [undefined]
    throws. *)
Definition promoteToStructural (uri : string) (e : PGSLEngine)
    : completion string :=
  match getNode e uri with
  | Own node =>
      if includes NodeType_ATOM (node_type node) then
        match truthy (getFragmentUri e [uri]) with
        | Some wrapper => Return wrapper
        | None => Return uri
        end
      else Return uri
  | Inherit _ => Throw TypeError
  | Undefined => Return uri
  end.

Definition demoteToAtom (uri : string) (e : PGSLEngine) : completion Ref :=
  match getNode e uri with
  | Own node =>
      if includes NodeType_FRAGMENT (node_type node) then
        match node with
        | Fragment f =>
            if decide (pgsl_level f = 1) then
              match pgsl_content f with
              | [c] => Return c
              | _ => Return (Str uri)
              end
            else Return (Str uri)
        | Atom _ => Return (Str uri)
        end
      else Return (Str uri)
  | Inherit _ => Throw TypeError
  | Undefined => Return (Str uri)
  end.

(** *** Topology queries *)

Definition constituents_of (node : Node) : option (string * string) :=
  match node with Atom _ => None | Fragment f => pgsl_constituents f end.

Definition findParentNode (leftUri rightUri : string) (e : PGSLEngine)
    : completion (option string) :=
  bind (promoteToStructural leftUri e) (λ safeLeft,
  bind (promoteToStructural rightUri e) (λ safeRight,
  Return (node_id <$>
    List.find (λ node,
      includes NodeType_FRAGMENT (node_type node) &&
      match constituents_of node with
      | Some (c0, c1) => bool_decide (c0 = safeLeft) && bool_decide (c1 = safeRight)
      | None => false
      end) (getAllNodes e)))).

Inductive Direction := left | right.

Record Neighbor := mkNeighbor { neighbor : Ref; pair : string }.

(** What one repository node contributes to [findNeighbors]. *)
Definition neighborVia (effectiveTarget : string) (direction : Direction)
    (e : PGSLEngine) (node : Node) : completion (option Neighbor) :=
  if includes NodeType_FRAGMENT (node_type node) then
    match constituents_of node with
    | Some (c0, c1) =>
        let rawNeighbor :=
          match direction with
          | left => if decide (c1 = effectiveTarget) then Some c0 else None
          | right => if decide (c0 = effectiveTarget) then Some c1 else None
          end in
        match truthy rawNeighbor with
        | Some rawNeighbor =>
            bind (demoteToAtom rawNeighbor e) (λ cleanNeighbor,
            Return (Some (mkNeighbor cleanNeighbor (node_id node))))
        | None => Return None
        end
    | None => Return None
    end
  else Return None.

(** [for (const node of nodes)], pushing what each node contributes;
    an exception ends the loop. *)
Definition collect {A : Type} (via : Node → completion (option A))
    (nodes : list Node) : completion (list A) :=
  foldl (λ acc node,
    bind acc (λ results,
    bind (via node) (λ found,
    Return (match found with
            | Some x => results ++ [x]
            | None => results
            end)))) (Return []) nodes.

Definition findNeighbors (targetUri : string) (direction : Direction)
    (e : PGSLEngine) : completion (list Neighbor) :=
  bind (promoteToStructural targetUri e) (λ effectiveTarget,
  collect (neighborVia effectiveTarget direction e) (getAllNodes e)).

Definition relation_target_neighbor : string := "Parent is (Target, Neighbor)".
Definition relation_neighbor_target : string := "Parent is (Neighbor, Target)".

Record DebugNeighbor := mkDebugNeighbor {
  relation : string;
  debug_neighbor : string;
  parent : string
}.

(** What one repository node contributes to [getDebugNeighbors]. *)
Definition debugVia (effectiveTarget : string) (node : Node) : list DebugNeighbor :=
  if includes NodeType_FRAGMENT (node_type node) then
    match constituents_of node with
    | Some (c0, c1) =>
        (if decide (c0 = effectiveTarget)
         then [mkDebugNeighbor relation_target_neighbor c1 (node_id node)]
         else [])
        ++ (if decide (c1 = effectiveTarget)
            then [mkDebugNeighbor relation_neighbor_target c0 (node_id node)]
            else [])
    | None => []
    end
  else [].

Definition getDebugNeighbors (targetUri : string) (e : PGSLEngine)
    : completion (list DebugNeighbor) :=
  bind (promoteToStructural targetUri e) (λ effectiveTarget,
  Return (foldl (λ results node, results ++ debugVia effectiveTarget node) []
            (getAllNodes e))).

(** *** String resolvers

    The recursion follows [pgsl:content]; [fuel] bounds its depth and
    [None] is the out-of-fuel answer. *)

(** [xs.map(f)] for a recursive [f]: the first element on which [f]
    does not return decides. *)
Fixpoint mapOutcome {A B : Type} (f : A → option (completion B)) (xs : list A)
    : option (completion (list B)) :=
  match xs with
  | [] => Some (Return [])
  | x :: xs' =>
      match f x with
      | Some (Return y) =>
          match mapOutcome f xs' with
          | Some (Return ys) => Some (Return (y :: ys))
          | other => other
          end
      | Some (Throw ex) => Some (Throw ex)
      | None => None
      end
  end.

Fixpoint resolveContentString (fuel : nat) (uri : Ref) (e : PGSLEngine)
    : option (completion string) :=
  match fuel with
  | 0 => None
  | S fuel' =>
      match getNode e (ref_key uri) with
      | Undefined => Some (Return "<?>")
      | Inherit _ => Some (Throw TypeError)
      | Own (Atom a) => Some (Return (String_of (rdf_value a)))
      | Own (Fragment f) =>
          match pgsl_content f with
          | [] => Some (Return "()")
          | [c] => resolveContentString fuel' c e
          | content =>
              match mapOutcome (λ c, resolveContentString fuel' c e) content with
              | Some (Return parts) => Some (Return ("(" +:+ join " " parts +:+ ")"))
              | Some (Throw ex) => Some (Throw ex)
              | None => None
              end
          end
      end
  end.

(** The Inspector's [resolveDeepContent].  [id.split] exists on a string
    only. *)
Fixpoint resolveDeepContent (fuel : nat) (id : Ref) (e : PGSLEngine)
    : option (completion string) :=
  match fuel with
  | 0 => None
  | S fuel' =>
      match getNode e (ref_key id) with
      | Undefined =>
          match id with
          | Str s => Some (Return ("REF<" +:+ trailing_segment s +:+ ">"))
          | Member _ => Some (Throw TypeError)
          end
      | Inherit _ => Some (Throw TypeError)
      | Own (Atom a) => Some (Return (String_of (rdf_value a)))
      | Own (Fragment f) =>
          let contentIds := pgsl_content f in
          match mapOutcome (λ c, resolveDeepContent fuel' c e) contentIds with
          | Some (Return parts) =>
              let inner := join ", " parts in
              Some (Return (if decide (1 < length contentIds)
                            then "(" +:+ inner +:+ ")" else inner))
          | Some (Throw ex) => Some (Throw ex)
          | None => None
          end
      end
  end.

(** ** Basic facts about the primitives *)

#[local] Arguments JSON_stringify : simpl never.
#[local] Arguments mint_name : simpl never.
#[local] Arguments getCanonicalAtom : simpl never.
#[local] Arguments getCanonicalFragment : simpl never.
#[local] Arguments normalizeItem : simpl never.
#[local] Arguments ingestStep : simpl never.
#[local] Arguments ingestRow : simpl never.
#[local] Arguments ingestRows : simpl never.
#[local] Arguments ingestSequence : simpl never.
#[local] Arguments slice : simpl never.

Lemma truthy_Some x u : truthy x = Some u ↔ x = Some u ∧ u ≠ EmptyString.
Proof.
  destruct x as [s|]; cbn.
  - case_decide as Hs; subst.
    + split; [done|]. by intros [[= <-] ?].
    + split; [by intros [= <-]|]. by intros [[= <-] _].
  - split; [done|]. by intros [? _].
Qed.

Lemma truthy_is_Some x u : x = Some u → u ≠ EmptyString → truthy x = Some u.
Proof. intros. by apply truthy_Some. Qed.

Lemma string_app_nonempty (a b : string) c : a +:+ String c b ≠ EmptyString.
Proof. by destruct a. Qed.

Lemma mint_name_nonempty auth type k : mint_name auth type k ≠ EmptyString.
Proof. apply string_app_nonempty. Qed.

Lemma slice_length {A} (xs : list A) i len :
  i + len ≤ length xs → length (slice xs i (i + len)) = len.
Proof. intros Hle. unfold slice. rewrite length_take, length_drop. lia. Qed.

Lemma slice_full {A} (xs : list A) : slice xs 0 (0 + length xs) = xs.
Proof. unfold slice. cbn. rewrite Nat.sub_0_r. apply firstn_all. Qed.

Lemma slice_singleton {A} (xs : list A) i x :
  xs !! i = Some x → slice xs i (i + 1) = [x].
Proof.
  intros Hx. unfold slice. replace (i + 1 - i) with 1 by lia.
  rewrite (drop_S _ _ _ Hx). done.
Qed.

Lemma slice_elem_of {A} (xs : list A) i j x : x ∈ slice xs i j → x ∈ xs.
Proof.
  unfold slice. intros Hx. by apply subseteq_drop with i, subseteq_take with (j - i).
Qed.

(** Loops over [seq]: an invariant indexed by the loop counter. *)
Lemma foldl_seq_invariant {A} (P : nat → A → Prop) (f : A → nat → A) a start n :
  P start a →
  (∀ i x, start ≤ i < start + n → P i x → P (S i) (f x i)) →
  P (start + n) (foldl f a (seq start n)).
Proof.
  revert start a. induction n as [|n IH]; intros start a Ha Hstep; cbn.
  - by rewrite Nat.add_0_r.
  - replace (start + S n) with (S start + n) by lia. apply IH.
    + apply Hstep; [lia|done].
    + intros i x Hi. apply Hstep. lia.
Qed.

Lemma mapM_length {A B} (f : A → PGSLEngine → B * PGSLEngine) xs e :
  length (mapM f xs e).1 = length xs.
Proof.
  revert e. induction xs as [|x xs IH]; intros e; cbn; [done|].
  destruct (f x e) as [y e1]. specialize (IH e1).
  destruct (mapM f xs e1) as [ys e2]. cbn in *. by rewrite IH.
Qed.

(** [xs.map(f)]: an invariant [I] of the engine, a progress relation [R]
    between engines, and what each call establishes about its result
    ([Post], stable along [R]). *)
Lemma mapM_spec {A B} (f : A → PGSLEngine → B * PGSLEngine)
    (I : PGSLEngine → Prop) (R : PGSLEngine → PGSLEngine → Prop)
    (Pre : PGSLEngine → A → Prop) (Post : PGSLEngine → A → B → Prop)
    `{!Reflexive R, !Transitive R} xs e :
  (∀ x e, I e → Pre e x →
     I (f x e).2 ∧ R e (f x e).2 ∧ Post (f x e).2 x (f x e).1) →
  (∀ e e' x, R e e' → Pre e x → Pre e' x) →
  (∀ e e' x y, R e e' → Post e x y → Post e' x y) →
  I e → Forall (Pre e) xs →
  I (mapM f xs e).2 ∧ R e (mapM f xs e).2
  ∧ Forall2 (Post (mapM f xs e).2) xs (mapM f xs e).1.
Proof.
  intros Hf Hpre Hpost. revert e.
  induction xs as [|x xs IH]; intros e He Hxs; cbn; [by split_and!|].
  apply Forall_cons in Hxs as [Hx Hxs].
  destruct (Hf x e He Hx) as (He1 & HR1 & Hy).
  destruct (f x e) as [y e1]; cbn in *.
  destruct (IH e1 He1) as (He2 & HR2 & Hys).
  { eapply Forall_impl; [exact Hxs|]. intros x0. by apply Hpre. }
  destruct (mapM f xs e1) as [ys e2]; cbn in *.
  split_and!; [done|by etrans|]. constructor; [|done]. by eapply Hpost.
Qed.

(** ** How one call changes the engine *)

Abbreviation wrapperOf := (λ baseUri : Ref, getCanonicalFragment [baseUri] None).

(** The phases of [ingestSequence] on a non-empty input. *)
Lemma ingestSequence_unfold items e :
  items ≠ [] →
  ∃ baseUris e1 level1Fragments e2 e3 top,
    mapM normalizeItem items e = (baseUris, e1)
    ∧ mapM wrapperOf baseUris e1 = (level1Fragments, e2)
    ∧ length baseUris = length items
    ∧ length level1Fragments = length items
    ∧ ingestSequence items e = (Return top, notify e3)
    ∧ ((length items = 1 ∧ e3 = e2
        ∧ top = default EmptyString (level1Fragments !! 0))
       ∨ (2 ≤ length items
          ∧ ingestRows baseUris (length baseUris)
              (e2, default EmptyString (level1Fragments !! 0)) = (e3, top))).
Proof.
  intros Hne. unfold ingestSequence.
  rewrite decide_False by (by destruct items).
  pose proof (mapM_length normalizeItem items e) as Hlen1.
  destruct (mapM normalizeItem items e) as [baseUris e1] eqn:Hm1; cbn in Hlen1.
  pose proof (mapM_length wrapperOf baseUris e1) as Hlen2.
  destruct (mapM _ baseUris e1) as [level1 e2] eqn:Hm2; cbn in Hlen2.
  case_decide as Hone.
  - exists baseUris, e1, level1, e2, e2, (default EmptyString (level1 !! 0)).
    split_and!; [done|done|done|congruence|done|].
    left. split_and!; [congruence|done|done].
  - destruct (ingestRows baseUris (length baseUris)
                (e2, default EmptyString (level1 !! 0))) as [e3 top] eqn:Hrows.
    exists baseUris, e1, level1, e2, e3, top.
    split_and!; [done|done|done|congruence|done|].
    right. split; [|done].
    destruct items as [|? [|? ?]]; cbn in *; [done|lia|lia].
Qed.

(** Truthy registry entries are never overwritten. *)
Definition stable (m m' : gmap string string) : Prop :=
  ∀ k u, truthy (m !! k) = Some u → truthy (m' !! k) = Some u.

#[local] Instance stable_refl : Reflexive stable.
Proof. by intros m k u. Qed.

#[local] Instance stable_trans : Transitive stable.
Proof. intros m1 m2 m3 H12 H23 k u Hk. auto. Qed.

Lemma stable_insert (m : gmap string string) k u :
  truthy (m !! k) = None → stable m (<[k := u]> m).
Proof.
  intros Hk k' u' Hk'. destruct (decide (k = k')) as [->|Hne].
  - congruence.
  - by rewrite lookup_insert_ne.
Qed.

(** The same for what [getCanonicalAtom] finds, inherited members
    included. *)
Definition entryOf (m : gmap string string) (key : string) : option Ref :=
  truthyRef (js_get (m !! key) key).

Definition stableAtoms (m m' : gmap string string) : Prop :=
  ∀ k u, entryOf m k = Some u → entryOf m' k = Some u.

#[local] Instance stableAtoms_refl : Reflexive stableAtoms.
Proof. by intros m k u. Qed.

#[local] Instance stableAtoms_trans : Transitive stableAtoms.
Proof. intros m1 m2 m3 H12 H23 k u Hk. auto. Qed.

Lemma stableAtoms_insert (m : gmap string string) k u :
  entryOf m k = None → stableAtoms m (<[k := u]> m).
Proof.
  intros Hk k' u' Hk'. unfold entryOf in *.
  destruct (decide (k = k')) as [->|Hne].
  - congruence.
  - by rewrite lookup_insert_ne.
Qed.

Lemma entryOf_Str m key u :
  entryOf m key = Some (Str u) ↔ m !! key = Some u ∧ u ≠ EmptyString.
Proof.
  unfold entryOf, js_get. destruct (m !! key) as [s|]; cbn.
  - case_decide as Hs; subst.
    + split; [done|]. by intros [[= <-] ?].
    + split; [by intros [= <-]|]. by intros [[= <-] _].
  - destruct (inherited key); cbn; (split; [done|by intros [? _]]).
Qed.

Lemma entryOf_Member m key k :
  entryOf m key = Some (Member k) ↔
  m !! key = None ∧ inherited key = true ∧ k = key.
Proof.
  unfold entryOf, js_get. destruct (m !! key) as [s|]; cbn.
  - case_decide; (split; [done|by intros [? _]]).
  - destruct (inherited key); cbn.
    + split; [by intros [= <-]|]. by intros (_ & _ & ->).
    + split; [done|]. by intros (_ & ? & _).
Qed.

Lemma entryOf_None m key :
  entryOf m key = None ↔
  inherited key = false ∧ (m !! key = None ∨ m !! key = Some EmptyString)
  ∨ m !! key = Some EmptyString.
Proof.
  unfold entryOf, js_get. destruct (m !! key) as [s|]; cbn.
  - case_decide as Hs; subst.
    + split; [by right|done].
    + split; [done|]. intros [[_ [|[= ?]]]|[= ?]]; done.
  - destruct (inherited key); cbn.
    + split; [done|]. by intros [[? _]|].
    + split; [|done]. intros _. left. split; [done|by left].
Qed.

Lemma entryOf_plain m key :
  inherited key = false → entryOf m key = Str <$> truthy (m !! key).
Proof.
  intros Hkey. unfold entryOf, js_get. destruct (m !! key) as [s|]; cbn.
  - by case_decide.
  - by rewrite Hkey.
Qed.

(** [ext e e']: [e'] is [e] after some atoms and fragments were added. *)
Record ext (e e' : PGSLEngine) : Prop := mkExt {
  ext_listeners : listeners e' = listeners e;
  ext_authority : authority e' = authority e;
  ext_agent : agent e' = agent e;
  ext_drawn : drawn e ≤ drawn e';
  ext_atoms : stableAtoms (atomRegistry (state e)) (atomRegistry (state e'));
  ext_frags : stable (fragmentRegistry (state e)) (fragmentRegistry (state e'))
}.

#[local] Instance ext_refl : Reflexive ext.
Proof. intros e. by split. Qed.

#[local] Instance ext_trans : Transitive ext.
Proof.
  intros e1 e2 e3 [] []. split; try congruence; [lia|by etrans|by etrans].
Qed.

Lemma ext_notify e : ext e (notify e).
Proof. by split. Qed.

Lemma getCanonicalAtom_hit value e found :
  atomEntry e (String_of value) = Some found →
  getCanonicalAtom value e = (found, e).
Proof. intros Hhit. unfold getCanonicalAtom. by rewrite Hhit. Qed.

(** The state after a new atom for [value] was stored. *)
Definition stateWithAtom (value : Value) (e : PGSLEngine) : PGSLState :=
  mkState
    (<[String_of value := mint_name (authority e) "atoms" (drawn e)]>
       (atomRegistry (state e)))
    (fragmentRegistry (state e))
    (obj_set (mint_name (authority e) "atoms" (drawn e))
       (Atom (mkAtom (mint_name (authority e) "atoms" (drawn e)) value
                (agent e) (now (drawn e))))
       (nodeRepository (state e))).

Lemma getCanonicalAtom_miss value e :
  atomEntry e (String_of value) = None →
  getCanonicalAtom value e =
    (Str (mint_name (authority e) "atoms" (drawn e)),
     mkEngine (stateWithAtom value e)
       (listeners e) (authority e) (agent e) (S (drawn e))
       (calls e
        ++ ((λ listener, (listener, stateWithAtom value e)) <$> listeners e))).
Proof. intros Hmiss. unfold getCanonicalAtom. by rewrite Hmiss. Qed.

Lemma getCanonicalFragment_hit content constituents e found :
  truthy (fragmentRegistry (state e) !! JSON_stringify content) = Some found →
  getCanonicalFragment content constituents e = (found, e).
Proof.
  intros Hhit. unfold getCanonicalFragment, fragmentEntry. by rewrite Hhit.
Qed.

Lemma getCanonicalFragment_miss content constituents e :
  truthy (fragmentRegistry (state e) !! JSON_stringify content) = None →
  getCanonicalFragment content constituents e =
    (mint_name (authority e) "fragments" (drawn e),
     mkEngine
       (mkState
          (atomRegistry (state e))
          (<[JSON_stringify content := mint_name (authority e) "fragments" (drawn e)]>
             (fragmentRegistry (state e)))
          (obj_set (mint_name (authority e) "fragments" (drawn e))
             (Fragment (mkFragment (mint_name (authority e) "fragments" (drawn e))
                          (length content) (newHeight e content constituents)
                          content constituents (agent e) (now (drawn e))))
             (nodeRepository (state e))))
       (listeners e) (authority e) (agent e) (S (drawn e)) (calls e)).
Proof.
  intros Hmiss. unfold getCanonicalFragment, fragmentEntry. by rewrite Hmiss.
Qed.

(** [fext e e']: an extension that adds fragments only. *)
Definition fext (e e' : PGSLEngine) : Prop :=
  ext e e'
  ∧ atomRegistry (state e') = atomRegistry (state e)
  ∧ calls e' = calls e.

#[local] Instance fext_refl : Reflexive fext.
Proof. by intros e. Qed.

#[local] Instance fext_trans : Transitive fext.
Proof.
  intros e1 e2 e3 (? & ? & ?) (? & ? & ?).
  split_and!; [by etrans|congruence|congruence].
Qed.

Lemma atomEntry_entryOf e key :
  atomEntry e key = entryOf (atomRegistry (state e)) key.
Proof. done. Qed.

Lemma getCanonicalAtom_spec value e :
  ext e (getCanonicalAtom value e).2
  ∧ atomEntry (getCanonicalAtom value e).2 (String_of value)
    = Some (getCanonicalAtom value e).1
  ∧ fragmentRegistry (state (getCanonicalAtom value e).2)
    = fragmentRegistry (state e).
Proof.
  destruct (atomEntry e (String_of value)) as [found|] eqn:Hk.
  - by rewrite (getCanonicalAtom_hit _ _ _ Hk).
  - rewrite (getCanonicalAtom_miss _ _ Hk). cbn. split_and!; [|  |done].
    + split; cbn; [done|done|done|lia|by apply stableAtoms_insert|done].
    + rewrite atomEntry_entryOf. apply entryOf_Str. cbn.
      rewrite lookup_insert_eq. split; [done|]. apply mint_name_nonempty.
Qed.

Lemma getCanonicalFragment_spec content constituents e :
  fext e (getCanonicalFragment content constituents e).2
  ∧ truthy (fragmentRegistry (state (getCanonicalFragment content constituents e).2)
              !! JSON_stringify content)
    = Some (getCanonicalFragment content constituents e).1.
Proof.
  destruct (truthy (fragmentRegistry (state e) !! JSON_stringify content))
    as [found|] eqn:Hk.
  - by rewrite (getCanonicalFragment_hit _ _ _ _ Hk).
  - rewrite (getCanonicalFragment_miss _ _ _ Hk). cbn. split.
    + split_and!; [|done|done].
      split; cbn; [done|done|done|lia|done|by apply stable_insert].
    + rewrite lookup_insert_eq. apply truthy_is_Some; [done|].
      apply mint_name_nonempty.
Qed.

(** What step 1 of [ingestSequence] returns for an item. *)
Definition normalized (e : PGSLEngine) (item : Value) (uri : Ref) : Prop :=
  if isURI (String_of item) then uri = Str (String_of item)
  else atomEntry e (String_of item) = Some uri.

Lemma normalized_ext e e' item uri :
  ext e e' → normalized e item uri → normalized e' item uri.
Proof.
  intros He. unfold normalized. destruct (isURI _); [done|]. apply He.
Qed.

Lemma normalizeItem_spec item e :
  ext e (normalizeItem item e).2
  ∧ normalized (normalizeItem item e).2 item (normalizeItem item e).1
  ∧ fragmentRegistry (state (normalizeItem item e).2) = fragmentRegistry (state e).
Proof.
  unfold normalizeItem, normalized.
  destruct (isURI (String_of item)); [done|]. apply getCanonicalAtom_spec.
Qed.

Lemma mapM_normalizeItem_spec items e :
  ext e (mapM normalizeItem items e).2
  ∧ Forall2 (normalized (mapM normalizeItem items e).2) items
      (mapM normalizeItem items e).1.
Proof.
  apply (mapM_spec normalizeItem (λ _, True) ext (λ _ _, True) normalized);
    [|done|by intros; eapply normalized_ext|done|by apply Forall_true].
  intros x e0 _ _. split; [done|]. split; apply normalizeItem_spec.
Qed.

Lemma mapM_normalizeItem_hit items baseUris e :
  Forall2 (normalized e) items baseUris →
  mapM normalizeItem items e = (baseUris, e).
Proof.
  induction 1 as [|item uri items baseUris Hn _ IH]; cbn; [done|].
  unfold normalizeItem at 1. unfold normalized in Hn.
  destruct (isURI (String_of item)).
  - subst. by rewrite IH.
  - rewrite (getCanonicalAtom_hit _ _ _ Hn). by rewrite IH.
Qed.

(** The wrapper registered for a base identifier. *)
Definition wrapped (e : PGSLEngine) (baseUri : Ref) (wrapper : string) : Prop :=
  truthy (fragmentRegistry (state e) !! JSON_stringify [baseUri]) = Some wrapper.

Lemma wrapped_ext e e' u w : ext e e' → wrapped e u w → wrapped e' u w.
Proof. intros He. apply He. Qed.

Lemma wrapped_fext e e' u w : fext e e' → wrapped e u w → wrapped e' u w.
Proof. intros [He _]. by apply wrapped_ext. Qed.

Lemma mapM_wrapperOf_spec baseUris e :
  fext e (mapM wrapperOf baseUris e).2
  ∧ Forall2 (wrapped (mapM wrapperOf baseUris e).2) baseUris
      (mapM wrapperOf baseUris e).1.
Proof.
  apply (mapM_spec wrapperOf (λ _, True) fext (λ _ _, True) wrapped);
    [|done|by intros; eapply wrapped_fext|done|by apply Forall_true].
  intros x e0 _ _. split; [done|]. apply getCanonicalFragment_spec.
Qed.

Lemma mapM_wrapperOf_hit baseUris wrappers e :
  Forall2 (wrapped e) baseUris wrappers →
  mapM wrapperOf baseUris e = (wrappers, e).
Proof.
  induction 1 as [|u w baseUris wrappers Hw _ IH]; cbn; [done|].
  rewrite (getCanonicalFragment_hit _ _ _ _ Hw). by rewrite IH.
Qed.

(** [covered baseUris e len]: every contiguous sub-sequence of at most
    [len] identifiers has a fragment registered for it. *)
Definition covered (baseUris : list Ref) (e : PGSLEngine) (len : nat) : Prop :=
  ∀ i l, 1 ≤ l → l ≤ len → i + l ≤ length baseUris →
    is_Some (truthy (fragmentRegistry (state e)
                       !! JSON_stringify (slice baseUris i (i + l)))).

Lemma covered_ext baseUris e e' len :
  ext e e' → covered baseUris e len → covered baseUris e' len.
Proof.
  intros He Hc i l H1 H2 H3.
  destruct (Hc i l H1 H2 H3) as [u Hu]. exists u. by apply He.
Qed.

Lemma covered_fext baseUris e e' len :
  fext e e' → covered baseUris e len → covered baseUris e' len.
Proof. intros [He _]. by apply covered_ext. Qed.

Lemma covered_wrapped baseUris wrappers e :
  Forall2 (wrapped e) baseUris wrappers → covered baseUris e 1.
Proof.
  intros Hw i l H1 H2 H3. assert (l = 1) as -> by lia.
  destruct (lookup_lt_is_Some_2 baseUris i) as [u Hu]; [lia|].
  rewrite (slice_singleton _ _ _ Hu).
  destruct (Forall2_lookup_l _ _ _ _ _ Hw Hu) as (w & _ & Hwu).
  by exists w.
Qed.

(** One iteration of the inner loop never skips once the shorter
    sub-sequences are covered. *)
Lemma ingestStep_spec baseUris N len i e top :
  2 ≤ len → i + len ≤ length baseUris →
  covered baseUris e (len - 1) →
  ∃ leftUri rightUri,
    truthy (fragmentRegistry (state e)
              !! JSON_stringify (slice baseUris i (i + len - 1))) = Some leftUri
    ∧ truthy (fragmentRegistry (state e)
              !! JSON_stringify (slice baseUris (i + 1) (i + len))) = Some rightUri
    ∧ ingestStep baseUris N len i (e, top) =
        ((getCanonicalFragment (slice baseUris i (i + len))
            (Some (leftUri, rightUri)) e).2,
         if decide (len = N)
         then (getCanonicalFragment (slice baseUris i (i + len))
                 (Some (leftUri, rightUri)) e).1
         else top).
Proof.
  intros Hlen Hi Hc.
  destruct (Hc i (len - 1)) as [leftUri Hl]; [lia..|].
  destruct (Hc (i + 1) (len - 1)) as [rightUri Hr]; [lia..|].
  replace (i + (len - 1)) with (i + len - 1) in Hl by lia.
  replace (i + 1 + (len - 1)) with (i + len) in Hr by lia.
  exists leftUri, rightUri. split_and!; [done|done|].
  unfold ingestStep, fragmentEntry. rewrite Hl, Hr.
  by destruct (getCanonicalFragment _ _ e).
Qed.

Lemma ingestRow_spec baseUris len e top :
  2 ≤ len → len ≤ length baseUris →
  covered baseUris e (len - 1) →
  fext e (ingestRow baseUris (length baseUris) len (e, top)).1
  ∧ covered baseUris (ingestRow baseUris (length baseUris) len (e, top)).1 len
  ∧ (len ≠ length baseUris →
     (ingestRow baseUris (length baseUris) len (e, top)).2 = top)
  ∧ (len = length baseUris →
     truthy (fragmentRegistry
               (state (ingestRow baseUris (length baseUris) len (e, top)).1)
               !! JSON_stringify baseUris)
     = Some (ingestRow baseUris (length baseUris) len (e, top)).2).
Proof.
  intros Hlen HN Hc. set (N := length baseUris) in *. unfold ingestRow.
  pose (P := λ (i : nat) (acc : PGSLEngine * string),
    fext e acc.1
    ∧ (∀ i', i' < i →
         is_Some (truthy (fragmentRegistry (state acc.1)
                            !! JSON_stringify (slice baseUris i' (i' + len)))))
    ∧ (len ≠ N → acc.2 = top)
    ∧ (len = N → 0 < i →
       truthy (fragmentRegistry (state acc.1) !! JSON_stringify baseUris)
       = Some acc.2)).
  assert (P (0 + (N - len + 1))
            (foldl (λ acc i, ingestStep baseUris N len i acc) (e, top)
               (seq 0 (N - len + 1)))) as (Hext & Hrow & Htop & Hfull).
  { apply foldl_seq_invariant.
    - split_and!; [done|intros; lia|done|intros; lia].
    - intros i [e' top'] Hi (Hext & Hrow & Htop & Hfull); cbn in *.
      destruct (ingestStep_spec baseUris N len i e' top') as (l & r & _ & _ & ->);
        [lia|lia|by eapply covered_fext|].
      destruct (getCanonicalFragment_spec (slice baseUris i (i + len))
                  (Some (l, r)) e') as [Hstep Hres].
      destruct (getCanonicalFragment _ _ e') as [u e'']; cbn in *.
      split_and!.
      + by etrans.
      + intros i' Hi'. destruct (decide (i' = i)) as [->|Hne]; [by eexists|].
        destruct (Hrow i') as [u' Hu']; [lia|]. exists u'.
        by apply Hstep.
      + intros Hn. rewrite decide_False by done. auto.
      + intros -> _. rewrite decide_True by done.
        assert (i = 0) as -> by lia. unfold N in Hres.
        by rewrite slice_full in Hres. }
  split_and!; [done| |done|].
  - intros i l H1 H2 H3. destruct (decide (l = len)) as [->|Hne].
    + apply Hrow. lia.
    + eapply covered_fext; [exact Hext|exact Hc|lia..].
  - intros ->. apply Hfull; [done|lia].
Qed.

Lemma ingestRows_spec baseUris e top :
  2 ≤ length baseUris →
  covered baseUris e 1 →
  fext e (ingestRows baseUris (length baseUris) (e, top)).1
  ∧ covered baseUris (ingestRows baseUris (length baseUris) (e, top)).1
      (length baseUris)
  ∧ truthy (fragmentRegistry
              (state (ingestRows baseUris (length baseUris) (e, top)).1)
              !! JSON_stringify baseUris)
    = Some (ingestRows baseUris (length baseUris) (e, top)).2.
Proof.
  intros HN Hc. set (N := length baseUris) in *. unfold ingestRows.
  pose (Q := λ (len : nat) (acc : PGSLEngine * string),
    fext e acc.1
    ∧ covered baseUris acc.1 (len - 1)
    ∧ (len = S N →
       truthy (fragmentRegistry (state acc.1) !! JSON_stringify baseUris)
       = Some acc.2)).
  assert (Q (2 + (N - 1))
            (foldl (λ acc len, ingestRow baseUris N len acc) (e, top)
               (seq 2 (N - 1)))) as (Hext & Hcov & Htop).
  { apply foldl_seq_invariant.
    - split_and!; [done|done|intros; lia].
    - intros len [e' top'] Hlen (Hext & Hcov & _); cbn in *.
      destruct (ingestRow_spec baseUris len e' top') as (Hstep & Hcov' & _ & Hfull);
        [lia|lia|done|].
      fold N in Hstep, Hcov', Hfull. split_and!.
      + by etrans.
      + by replace (S len - 1) with len by lia.
      + intros [= ->]. by apply Hfull. }
  replace (2 + (N - 1) - 1) with N in Hcov by lia.
  split_and!; [done|done|]. apply Htop. lia.
Qed.

(** On a fully covered sequence the loops change nothing. *)
Lemma ingestRows_covered baseUris e top :
  covered baseUris e (length baseUris) →
  (ingestRows baseUris (length baseUris) (e, top)).1 = e.
Proof.
  intros Hc. set (N := length baseUris) in *. unfold ingestRows.
  apply (foldl_seq_invariant (λ _ acc, acc.1 = e)); [done|].
  intros len [e' top'] Hlen He'; cbn in *. subst e'. unfold ingestRow.
  apply (foldl_seq_invariant (λ _ acc, acc.1 = e)); [done|].
  intros i [e' top''] Hi He'; cbn in *. subst e'.
  destruct (ingestStep_spec baseUris N len i e top'') as (l & r & _ & _ & ->);
    [lia|lia| |].
  { intros i' l' H1 H2 H3. apply Hc; [done|lia|done]. }
  destruct (Hc i len) as [u Hu]; [lia..|].
  by rewrite (getCanonicalFragment_hit _ _ _ _ Hu).
Qed.

(** ** Well-formed engines

    [generateUUID] never returns the same value twice, and a UUID
    contains no slash.  The text of a member of [Object.prototype]
    contains no slash either and is not itself the name of an inherited
    property. *)

Fixpoint noslash (s : string) : bool :=
  match s with
  | EmptyString => true
  | String c s' => if decide (c = "/"%char) then false else noslash s'
  end.

Hypothesis uuid_inj : Inj (=) (=) uuid.
Hypothesis uuid_plain : ∀ k, noslash (uuid k) = true.
Hypothesis member_source_plain : ∀ key, inherited key = true →
  noslash (member_source key) = true ∧ inherited (member_source key) = false.

Definition segment (node : Node) : string :=
  match node with Atom _ => "atoms" | Fragment _ => "fragments" end.

Lemma noslash_app_slash a b : noslash (a +:+ String "/" b) = false.
Proof.
  induction a as [|c a IH]; cbn; [done|]. by case_decide.
Qed.

(** The text after the last slash determines itself. *)
Lemma after_last_slash x x' u u' :
  noslash u = true → noslash u' = true →
  x +:+ String "/" u = x' +:+ String "/" u' → u = u'.
Proof.
  intros Hu Hu'. revert x'. induction x as [|c x IH]; intros [|c' x'] H; cbn in H.
  - by inversion H.
  - inversion H as [[Hc Hrest]]. rewrite Hrest, noslash_app_slash in Hu. done.
  - inversion H as [[Hc Hrest]]. rewrite <- Hrest, noslash_app_slash in Hu'. done.
  - inversion H. eauto.
Qed.

(** An identifier names the UUID it was minted from. *)
Lemma mint_name_uuid auth auth' t t' i j :
  mint_name auth t i = mint_name auth' t' j → i = j.
Proof.
  unfold mint_name. intros H. apply uuid_inj.
  apply (after_last_slash (auth +:+ "/" +:+ t) (auth' +:+ "/" +:+ t'));
    [apply uuid_plain..|].
  by rewrite !string_app_assoc.
Qed.

Lemma mint_name_inj auth (n1 n2 : Node) i j :
  mint_name auth (segment n1) i = mint_name auth (segment n2) j →
  i = j ∧ segment n1 = segment n2.
Proof.
  unfold mint_name. intros H%(inj (String.app auth)).
  destruct n1, n2; cbn in H; try discriminate;
    (split; [|done]); apply uuid_inj; by inversion H.
Qed.

Lemma inherited_noslash key : inherited key = true → noslash key = true.
Proof.
  intros H%inherited_elem. unfold inherited_keys in H.
  repeat (apply elem_of_cons in H as [->|H]; [done|]).
  by apply elem_of_nil in H.
Qed.

(** No minted identifier names an inherited property. *)
Lemma inherited_mint_name auth t k : inherited (mint_name auth t k) = false.
Proof.
  destruct (inherited (mint_name auth t k)) eqn:H; [|done].
  apply inherited_noslash in H. unfold mint_name in H.
  change (noslash (auth +:+ String "/" (t +:+ "/" +:+ uuid k)) = true) in H.
  by rewrite noslash_app_slash in H.
Qed.

(** What [ingestSequence] puts into a content array: a reference or an
    identifier of the engine, neither of which names an inherited
    property, or an inherited member. *)
Definition legit (r : Ref) : Prop :=
  match r with
  | Str s => inherited s = false
  | Member key => inherited key = true
  end.

Record wf (e : PGSLEngine) : Prop := mkWf {
  wf_nodup : NoDup (nodeRepository (state e)).*1;
  wf_minted : ∀ uri node, ownNode e uri = Some node →
    node_id node = uri
    ∧ ∃ auth k, k < drawn e ∧ uri = mint_name auth (segment node) k;
  wf_atom_entry : ∀ key uri, atomRegistry (state e) !! key = Some uri →
    inherited key = false
    ∧ ∃ a, ownNode e uri = Some (Atom a) ∧ String_of (rdf_value a) = key;
  wf_atom_node : ∀ uri a, ownNode e uri = Some (Atom a) →
    atomRegistry (state e) !! String_of (rdf_value a) = Some uri;
  wf_frag_entry : ∀ key uri, fragmentRegistry (state e) !! key = Some uri →
    ∃ f, ownNode e uri = Some (Fragment f)
         ∧ JSON_stringify (pgsl_content f) = key;
  wf_frag_node : ∀ uri f, ownNode e uri = Some (Fragment f) →
    fragmentRegistry (state e) !! JSON_stringify (pgsl_content f) = Some uri;
  wf_shape : ∀ uri f, ownNode e uri = Some (Fragment f) →
    pgsl_level f = length (pgsl_content f)
    ∧ Forall legit (pgsl_content f)
    ∧ (∃ n, frag_height f = Height n)
    ∧ match pgsl_constituents f with
      | None => length (pgsl_content f) = 1
      | Some (l, r) =>
          2 ≤ length (pgsl_content f)
          ∧ (l ≠ EmptyString ∧ inherited l = false)
          ∧ (r ≠ EmptyString ∧ inherited r = false)
      end
}.

(** A content entry is read as an own property or as nothing. *)
Lemma legit_plain r : legit r → inherited (ref_key r) = false.
Proof.
  destruct r as [s|key]; cbn; [done|]. by intros [_ ?]%member_source_plain.
Qed.

(** [getNode] answers with a node exactly for an own property. *)
Lemma getNode_Own e uri node :
  getNode e uri = Own node ↔ ownNode e uri = Some node.
Proof. apply js_get_Own. Qed.

Lemma getNode_ownNode e uri node :
  ownNode e uri = Some node → getNode e uri = Own node.
Proof. apply getNode_Own. Qed.

Lemma getNode_plain e uri :
  inherited uri = false →
  getNode e uri = match ownNode e uri with Some node => Own node | None => Undefined end.
Proof. intros H. unfold getNode, js_get. by rewrite H. Qed.

Lemma wf_node_nonempty e uri node :
  wf e → ownNode e uri = Some node → uri ≠ EmptyString.
Proof.
  intros He Hn. destruct (wf_minted e He _ _ Hn) as (_ & auth & k & _ & ->).
  apply mint_name_nonempty.
Qed.

Lemma wf_node_plain e uri node :
  wf e → ownNode e uri = Some node → inherited uri = false.
Proof.
  intros He Hn. destruct (wf_minted e He _ _ Hn) as (_ & auth & k & _ & ->).
  apply inherited_mint_name.
Qed.

Lemma wf_atom_truthy e key :
  wf e → truthy (atomRegistry (state e) !! key) = atomRegistry (state e) !! key.
Proof.
  intros He. destruct (atomRegistry (state e) !! key) as [u|] eqn:Hk; [|done].
  destruct (wf_atom_entry e He _ _ Hk) as (_ & a & Ha & _).
  apply truthy_is_Some; [done|]. by eapply wf_node_nonempty.
Qed.

(** In a well-formed engine the atom registry answers with the
    identifier of an atom, or with an inherited member. *)
Lemma wf_atomEntry e key :
  wf e →
  atomEntry e key
  = match atomRegistry (state e) !! key with
    | Some uri => Some (Str uri)
    | None => if inherited key then Some (Member key) else None
    end.
Proof.
  intros He. unfold atomEntry, js_get.
  destruct (atomRegistry (state e) !! key) as [u|] eqn:Hk; cbn.
  - destruct (wf_atom_entry e He _ _ Hk) as (_ & a & Ha & _).
    rewrite decide_False; [done|]. by eapply wf_node_nonempty.
  - by destruct (inherited key).
Qed.

Lemma wf_atomEntry_None e key :
  wf e → atomEntry e key = None →
  atomRegistry (state e) !! key = None ∧ inherited key = false.
Proof.
  intros He. rewrite wf_atomEntry by done.
  destruct (atomRegistry (state e) !! key); [done|].
  by destruct (inherited key).
Qed.

Lemma wf_frag_truthy e key :
  wf e →
  truthy (fragmentRegistry (state e) !! key) = fragmentRegistry (state e) !! key.
Proof.
  intros He. destruct (fragmentRegistry (state e) !! key) as [u|] eqn:Hk; [|done].
  destruct (wf_frag_entry e He _ _ Hk) as (f & Hf & _).
  apply truthy_is_Some; [done|]. by eapply wf_node_nonempty.
Qed.

Lemma wf_frag_value e key u :
  wf e → truthy (fragmentRegistry (state e) !! key) = Some u →
  u ≠ EmptyString ∧ inherited u = false.
Proof.
  intros He [Hk Hu]%truthy_Some. split; [done|].
  destruct (wf_frag_entry e He _ _ Hk) as (f & Hf & _).
  by eapply wf_node_plain.
Qed.

(** In a well-formed engine every height read is a number. *)
Lemma heightOf_number e key :
  wf e → inherited key = false → ∃ n, heightOf e key = Height n.
Proof.
  intros He Hkey. unfold heightOf. rewrite getNode_plain by done.
  destruct (ownNode e key) as [[a|f]|] eqn:Hn; [by exists 0| |by exists 0].
  destruct (wf_shape e He _ _ Hn) as (_ & _ & Hnum & _). done.
Qed.

(** The next identifier to be minted is not in the repository. *)
Lemma wf_fresh e auth t :
  wf e → ownNode e (mint_name auth t (drawn e)) = None.
Proof.
  intros He.
  destruct (ownNode e _) as [node'|] eqn:Hn; [|done].
  destruct (wf_minted e He _ _ Hn) as (_ & auth' & k & Hk & Heq).
  apply mint_name_uuid in Heq. lia.
Qed.

Lemma wf_empty ls auth ag d cs : wf (mkEngine emptyState ls auth ag d cs).
Proof. split; cbn; try done. constructor. Qed.

Lemma wf_same_state e e' :
  state e' = state e → drawn e ≤ drawn e' → wf e → wf e'.
Proof.
  intros Hs Hd [H1 H2 H3 H4 H5 H6 H7].
  split; unfold ownNode in *; rewrite ?Hs; try done.
  intros uri node Hn. destruct (H2 uri node Hn) as (? & auth & k & ? & ?).
  split; [done|]. exists auth, k. split; [lia|done].
Qed.

Lemma wf_notify e : wf e → wf (notify e).
Proof. by apply wf_same_state. Qed.

Lemma wf_subscribe l e : wf e → wf (subscribe l e).
Proof. by apply wf_same_state. Qed.

Lemma wf_setFederationConfig auth ag e : wf e → wf (setFederationConfig auth ag e).
Proof. by apply wf_same_state. Qed.

Lemma wf_reset e : wf (reset e).
Proof. apply wf_empty. Qed.

Lemma NoDup_obj_delete {V} k (o : list (string * V)) :
  NoDup o.*1 → NoDup (obj_delete k o).*1.
Proof.
  induction o as [|[k' v] o IH]; [done|].
  rewrite obj_delete_cons. cbn. intros [Hk Hnd]%NoDup_cons.
  case_decide; [auto|]. cbn. apply NoDup_cons. split; [|auto].
  intros Hin. apply Hk. apply list_elem_of_fmap in Hin as ([k0 v0] & -> & Hin).
  apply list_elem_of_fmap. exists (k0, v0). split; [done|].
  unfold obj_delete in Hin. by apply list_elem_of_filter in Hin as [_ ?].
Qed.

Lemma obj_get_delete {V} k k' (o : list (string * V)) v :
  obj_get k' (obj_delete k o) = Some v ↔ k' ≠ k ∧ obj_get k' o = Some v.
Proof.
  destruct (decide (k = k')) as [->|Hne].
  - rewrite obj_get_delete_eq. split; [done|]. by intros [? _].
  - rewrite obj_get_delete_ne by done. split; [by split|by intros [_ ?]].
Qed.

Lemma wf_deleteNode uri e : wf e → wf (deleteNode uri e).
Proof.
  intros [H1 H2 H3 H4 H5 H6 H7]. unfold deleteNode, notify, ownNode in *.
  split; cbn.
  - by apply NoDup_obj_delete.
  - intros u node [_ Hn]%obj_get_delete. auto.
  - intros key u [Hk Hne]%map_lookup_filter_Some. cbn in Hne.
    destruct (H3 key u Hk) as (Hplain & a & Ha & Hv). split; [done|].
    exists a. split; [|done]. by apply obj_get_delete.
  - intros u a [Hne Hn]%obj_get_delete.
    apply map_lookup_filter_Some. split; [auto|]. cbn. done.
  - intros key u [Hk Hne]%map_lookup_filter_Some. cbn in Hne.
    destruct (H5 key u Hk) as (f & Hf & Hv). exists f. split; [|done].
    by apply obj_get_delete.
  - intros u f [Hne Hn]%obj_get_delete.
    apply map_lookup_filter_Some. split; [auto|]. cbn. done.
  - intros u f [_ Hn]%obj_get_delete. eauto.
Qed.

Lemma obj_get_set {V} k k' (v : V) o :
  obj_get k' (obj_set k v o) = if decide (k = k') then Some v else obj_get k' o.
Proof.
  case_decide as Hk; [subst; apply obj_get_set_eq|by apply obj_get_set_ne].
Qed.

Lemma NoDup_obj_set_fresh {V} k (v : V) o :
  obj_get k o = None → NoDup o.*1 → NoDup (obj_set k v o).*1.
Proof.
  intros Hk Hnd. rewrite obj_set_keys_fresh by done.
  apply NoDup_app. split_and!; [done| |apply NoDup_singleton].
  intros k' Hk' ->%list_elem_of_singleton. by apply obj_get_None_keys in Hk.
Qed.

Lemma wf_getCanonicalAtom value e : wf e → wf (getCanonicalAtom value e).2.
Proof.
  intros He.
  destruct (atomEntry e (String_of value)) as [found|] eqn:Hk.
  { by rewrite (getCanonicalAtom_hit _ _ _ Hk). }
  rewrite (getCanonicalAtom_miss _ _ Hk). unfold stateWithAtom. cbn.
  apply wf_atomEntry_None in Hk as [Hk Hplain]; [|done].
  set (newUri := mint_name (authority e) "atoms" (drawn e)).
  set (atomNode := Atom (mkAtom newUri value (agent e) (now (drawn e)))).
  pose proof (wf_fresh e (authority e) "atoms" He) as Hfresh. fold newUri in Hfresh.
  destruct He as [H1 H2 H3 H4 H5 H6 H7]. unfold ownNode in *.
  assert (∀ u n, obj_get u (nodeRepository (state e)) = Some n → newUri ≠ u)
    as Hold by (intros u n Hn ->; congruence).
  split; cbn.
  - by apply NoDup_obj_set_fresh.
  - intros u node. rewrite obj_get_set. case_decide as Hu.
    + intros [= <-]. subst u. split; [done|].
      exists (authority e), (drawn e). split; [lia|done].
    + intros Hn. destruct (H2 u node Hn) as (? & auth & k & ? & ?).
      split; [done|]. exists auth, k. split; [lia|done].
  - intros key u. rewrite lookup_insert. case_decide as Hkey.
    + intros [= <-]. subst key. split; [done|].
      exists (mkAtom newUri value (agent e) (now (drawn e))).
      by rewrite obj_get_set_eq.
    + intros Hu. destruct (H3 key u Hu) as (? & a & Ha & Hv). split; [done|].
      exists a. split; [|done]. rewrite obj_get_set_ne; [done|]. by eapply Hold.
  - intros u a. rewrite obj_get_set. case_decide as Hu.
    + intros [= <-]. subst u. cbn. by rewrite lookup_insert_eq.
    + intros Hn. rewrite lookup_insert_ne; [auto|].
      intros Heq. specialize (H4 u a Hn). congruence.
  - intros key u Hu. destruct (H5 key u Hu) as (f & Hf & Hv). exists f.
    split; [|done]. rewrite obj_get_set_ne; [done|]. by eapply Hold.
  - intros u f. rewrite obj_get_set. case_decide as Hu; [done|]. auto.
  - intros u f. rewrite obj_get_set. case_decide as Hu; [done|]. eauto.
Qed.

(** The two ways [ingestSequence] calls [getCanonicalFragment]. *)
Definition fragment_call (content : list Ref)
    (constituents : option (string * string)) : Prop :=
  Forall legit content
  ∧ match constituents with
    | None => length content = 1
    | Some (l, r) =>
        2 ≤ length content
        ∧ (l ≠ EmptyString ∧ inherited l = false)
        ∧ (r ≠ EmptyString ∧ inherited r = false)
    end.

Lemma fragment_call_composite content l r kl kr e :
  wf e → Forall legit content → 2 ≤ length content →
  truthy (fragmentRegistry (state e) !! kl) = Some l →
  truthy (fragmentRegistry (state e) !! kr) = Some r →
  fragment_call content (Some (l, r)).
Proof.
  intros He Hc Hlen Hl Hr. split; [done|].
  split_and!; [done|by eapply wf_frag_value..].
Qed.

Lemma newHeight_number content constituents e :
  fragment_call content constituents → wf e →
  ∃ n, newHeight e content constituents = Height n.
Proof.
  intros [Hlegit Hshape] He. unfold newHeight.
  destruct constituents as [[l r]|].
  - destruct Hshape as (_ & [_ Hl] & [_ Hr]).
    destruct (heightOf_number e l He Hl) as [a ->].
    destruct (heightOf_number e r He Hr) as [b ->]. by eexists.
  - destruct content as [|c content]; [by eexists|].
    apply Forall_cons in Hlegit as [Hc%legit_plain _].
    destruct (heightOf_number e _ He Hc) as [a ->]. by eexists.
Qed.

Lemma wf_getCanonicalFragment content constituents e :
  fragment_call content constituents →
  wf e → wf (getCanonicalFragment content constituents e).2.
Proof.
  intros Hcall He.
  destruct (truthy (fragmentRegistry (state e) !! JSON_stringify content))
    as [found|] eqn:Hk.
  { by rewrite (getCanonicalFragment_hit _ _ _ _ Hk). }
  rewrite (getCanonicalFragment_miss _ _ _ Hk). cbn.
  rewrite wf_frag_truthy in Hk by done.
  pose proof (newHeight_number content constituents e Hcall He) as Hnum.
  set (newUri := mint_name (authority e) "fragments" (drawn e)).
  set (f0 := mkFragment newUri (length content)
               (newHeight e content constituents) content constituents
               (agent e) (now (drawn e))).
  pose proof (wf_fresh e (authority e) "fragments" He) as Hfresh.
  fold newUri in Hfresh.
  destruct He as [H1 H2 H3 H4 H5 H6 H7]. unfold ownNode in *.
  assert (∀ u n, obj_get u (nodeRepository (state e)) = Some n → newUri ≠ u)
    as Hold by (intros u n Hn ->; congruence).
  split; cbn.
  - by apply NoDup_obj_set_fresh.
  - intros u node. rewrite obj_get_set. case_decide as Hu.
    + intros [= <-]. subst u. split; [done|].
      exists (authority e), (drawn e). split; [lia|done].
    + intros Hn. destruct (H2 u node Hn) as (? & auth & k & ? & ?).
      split; [done|]. exists auth, k. split; [lia|done].
  - intros key u Hu. destruct (H3 key u Hu) as (? & a & Ha & Hv). split; [done|].
    exists a. split; [|done]. rewrite obj_get_set_ne; [done|]. by eapply Hold.
  - intros u a. rewrite obj_get_set. case_decide as Hu; [done|]. auto.
  - intros key u. rewrite lookup_insert. case_decide as Hkey.
    + intros [= <-]. exists f0. by rewrite obj_get_set_eq.
    + intros Hu. destruct (H5 key u Hu) as (f & Hf & Hv). exists f.
      split; [|done]. rewrite obj_get_set_ne; [done|]. by eapply Hold.
  - intros u f. rewrite obj_get_set. case_decide as Hu.
    + intros [= <-]. subst u. cbn. by rewrite lookup_insert_eq.
    + intros Hn. rewrite lookup_insert_ne; [auto|].
      intros Heq. specialize (H6 u f Hn). congruence.
  - intros u f. rewrite obj_get_set. case_decide as Hu; [|eauto].
    intros [= <-]. cbn. destruct Hcall as [Hlegit Hshape]. by split_and!.
Qed.

Lemma getAllNodes_ownNode e node :
  wf e → node ∈ getAllNodes e → ownNode e (node_id node) = Some node.
Proof.
  intros He Hin. unfold getAllNodes, obj_values in Hin.
  apply list_elem_of_fmap in Hin as ([k n] & -> & Hin). cbn.
  pose proof (obj_elem_get k n _ (wf_nodup e He) Hin) as Hget.
  destruct (wf_minted e He k n Hget) as [-> _]. done.
Qed.

(** ** Invariants of [ingestSequence] *)

Lemma ingestStep_cases baseUris N len i e top :
  ingestStep baseUris N len i (e, top) = (e, top)
  ∨ ∃ leftUri rightUri kl kr,
      truthy (fragmentRegistry (state e) !! kl) = Some leftUri
      ∧ truthy (fragmentRegistry (state e) !! kr) = Some rightUri
      ∧ ingestStep baseUris N len i (e, top) =
          ((getCanonicalFragment (slice baseUris i (i + len))
              (Some (leftUri, rightUri)) e).2,
           if decide (len = N)
           then (getCanonicalFragment (slice baseUris i (i + len))
                   (Some (leftUri, rightUri)) e).1
           else top).
Proof.
  unfold ingestStep, fragmentEntry.
  destruct (truthy (_ !! JSON_stringify (slice baseUris i (i + len - 1))))
    as [l|] eqn:Hl; [|by left].
  destruct (truthy (_ !! JSON_stringify (slice baseUris (i + 1) (i + len))))
    as [r|] eqn:Hr; [|by left].
  right. eexists l, r, _, _. split_and!; [exact Hl|exact Hr|].
  by destruct (getCanonicalFragment _ _ e).
Qed.

Lemma slice_init {A} (xs : list A) i len :
  slice xs i (i + len - 1) = take (len - 1) (slice xs i (i + len)).
Proof.
  unfold slice. rewrite take_take. f_equal. lia.
Qed.

Lemma slice_tail {A} (xs : list A) i len :
  1 ≤ len → slice xs (i + 1) (i + len) = drop 1 (slice xs i (i + len)).
Proof.
  intros Hlen. unfold slice.
  replace (i + len - i) with (1 + (len - 1)) by lia.
  rewrite <- take_drop_commute, drop_drop. f_equal; lia.
Qed.

(** The two constituents are the fragments registered for the content
    without its last and without its first entry. *)
Lemma ingestStep_links baseUris N len i e top :
  2 ≤ len → i + len ≤ length baseUris →
  ingestStep baseUris N len i (e, top) = (e, top)
  ∨ ∃ content leftUri rightUri,
      content = slice baseUris i (i + len)
      ∧ length content = len
      ∧ truthy (fragmentRegistry (state e)
                  !! JSON_stringify (take (length content - 1) content))
        = Some leftUri
      ∧ truthy (fragmentRegistry (state e) !! JSON_stringify (drop 1 content))
        = Some rightUri
      ∧ (ingestStep baseUris N len i (e, top)).1 =
          (getCanonicalFragment content (Some (leftUri, rightUri)) e).2.
Proof.
  intros Hlen Hle. unfold ingestStep, fragmentEntry.
  rewrite slice_init, slice_tail by lia.
  pose proof (slice_length baseUris i len Hle) as Hl.
  set (content := slice baseUris i (i + len)) in *.
  destruct (truthy (_ !! JSON_stringify (take (len - 1) content)))
    as [l|] eqn:Hleft; [|by left].
  destruct (truthy (_ !! JSON_stringify (drop 1 content)))
    as [r|] eqn:Hright; [|by left].
  right. exists content, l, r. rewrite Hl. split_and!; [done..|].
  by destruct (getCanonicalFragment _ _ e).
Qed.

(** A property [I] of the engine survives [ingestSequence] when the
    calls it is made of preserve it.  [G e u] says that [u] may be used
    as a reference in [e]; it holds of the references passed in and of
    every identifier the engine hands out. *)
Lemma ingestSequence_invariant_links (I : PGSLEngine → Prop)
    (G : PGSLEngine → Ref → Prop) items e :
  (∀ e e' u, ext e e' → G e u → G e' u) →
  (∀ e, I e → I (notify e)) →
  (∀ value e, value ∈ items → I e →
     I (getCanonicalAtom value e).2
     ∧ G (getCanonicalAtom value e).2 (getCanonicalAtom value e).1) →
  (∀ u e, I e → G e u → I (getCanonicalFragment [u] None e).2) →
  (∀ content l r e, I e → Forall (G e) content → 2 ≤ length content →
     truthy (fragmentRegistry (state e)
               !! JSON_stringify (take (length content - 1) content)) = Some l →
     truthy (fragmentRegistry (state e) !! JSON_stringify (drop 1 content))
       = Some r →
     I (getCanonicalFragment content (Some (l, r)) e).2) →
  I e →
  Forall (λ item, isURI (String_of item) = true → G e (Str (String_of item)))
    items →
  I (ingestSequence items e).2.
Proof.
  intros HG Hnotify Hatom Hwrap Hcomp He Hitems.
  destruct (decide (items = [])) as [->|Hne]; [done|].
  destruct (ingestSequence_unfold items e Hne)
    as (baseUris & e1 & level1 & e2 & e3 & top & Hm1 & Hm2 & Hl1 & Hl2 & -> & Hrest).
  cbn. apply Hnotify.
  (* step 1 *)
  destruct (mapM_spec normalizeItem I ext
              (λ e item, item ∈ items
                 ∧ (isURI (String_of item) = true → G e (Str (String_of item))))
              (λ e _ u, G e u) items e) as (He1 & Hext1 & Hbase); [| | |done| |].
  { intros item e0 He0 [Hin Hpre]. unfold normalizeItem.
    destruct (isURI (String_of item)) eqn:Huri;
      [cbn; split_and!; [done|done|by apply Hpre]|].
    destruct (Hatom item e0 Hin He0) as [? ?]. split_and!; [done| |done].
    apply getCanonicalAtom_spec. }
  { intros e0 e0' item Hext [Hin Hpre]. split; [done|]. eauto. }
  { intros e0 e0' _ u Hext. eauto. }
  { apply Forall_forall. intros item Hin. split; [done|].
    by eapply Forall_forall in Hitems. }
  rewrite Hm1 in He1, Hext1, Hbase. cbn in *.
  assert (Forall (G e1) baseUris) as Hbase1.
  { apply Forall_forall. intros u Hu.
    apply list_elem_of_lookup in Hu as [j Hj].
    by destruct (Forall2_lookup_r _ _ _ _ _ Hbase Hj) as (? & _ & ?). }
  (* step 2 *)
  destruct (mapM_spec wrapperOf I ext (λ e u, G e u) (λ _ _ _, True)
              baseUris e1) as (He2 & Hext2 & _); [| |done|done|done|].
  { intros u e0 He0 Hu. split_and!; [by apply Hwrap| |done].
    apply getCanonicalFragment_spec. }
  { intros e0 e0' u Hext. eauto. }
  rewrite Hm2 in He2, Hext2. cbn in *.
  destruct Hrest as [(_ & -> & _)|[HN Hrows]]; [done|].
  (* step 3 *)
  assert (I (ingestRows baseUris (length baseUris)
               (e2, default EmptyString (level1 !! 0))).1
          ∧ ext e2 (ingestRows baseUris (length baseUris)
               (e2, default EmptyString (level1 !! 0))).1) as [He3 _];
    [|by rewrite Hrows in He3].
  unfold ingestRows.
  apply (foldl_seq_invariant (λ _ acc, I acc.1 ∧ ext e2 acc.1)); [done|].
  intros len [e' top'] Hlen [He' Hext']. cbn in *. unfold ingestRow.
  apply (foldl_seq_invariant (λ _ acc, I acc.1 ∧ ext e2 acc.1)); [done|].
  intros i [e'' top''] Hi [He'' Hext'']. cbn in *.
  destruct (ingestStep_links baseUris (length baseUris) len i e'' top'')
    as [->|(content & l & r & Hcontent & Hc & Hl & Hr & ->)]; [lia|lia|done|].
  split.
  - eapply Hcomp; [done| |lia|done|done].
    apply Forall_forall. intros u Hu. rewrite Hcontent in Hu.
    apply slice_elem_of in Hu.
    eapply HG; [exact Hext''|]. eapply HG; [exact Hext2|].
    by eapply Forall_forall in Hbase1.
  - etrans; [done|]. apply getCanonicalFragment_spec.
Qed.

Lemma ingestSequence_invariant (I : PGSLEngine → Prop)
    (G : PGSLEngine → Ref → Prop) items e :
  (∀ e e' u, ext e e' → G e u → G e' u) →
  (∀ e, I e → I (notify e)) →
  (∀ value e, value ∈ items → I e →
     I (getCanonicalAtom value e).2
     ∧ G (getCanonicalAtom value e).2 (getCanonicalAtom value e).1) →
  (∀ u e, I e → G e u → I (getCanonicalFragment [u] None e).2) →
  (∀ content l r kl kr e, I e → Forall (G e) content → 2 ≤ length content →
     truthy (fragmentRegistry (state e) !! kl) = Some l →
     truthy (fragmentRegistry (state e) !! kr) = Some r →
     I (getCanonicalFragment content (Some (l, r)) e).2) →
  I e →
  Forall (λ item, isURI (String_of item) = true → G e (Str (String_of item)))
    items →
  I (ingestSequence items e).2.
Proof.
  intros HG Hnotify Hatom Hwrap Hcomp.
  apply ingestSequence_invariant_links; [done..|].
  intros content l r e0 He0 Hc Hlen Hl Hr. by eapply Hcomp.
Qed.

(** A reference names no inherited property. *)
Lemma isURI_plain s : isURI s = true → inherited s = false.
Proof.
  intros Huri. destruct (inherited s) eqn:H; [|done].
  apply inherited_elem in H. unfold inherited_keys in H.
  repeat (apply elem_of_cons in H as [->|H]; [done|]).
  by apply elem_of_nil in H.
Qed.

Lemma legit_atomEntry e key r : wf e → atomEntry e key = Some r → legit r.
Proof.
  intros He. rewrite wf_atomEntry by done.
  destruct (atomRegistry (state e) !! key) as [u|] eqn:Hk.
  - intros [= <-]. destruct (wf_atom_entry e He _ _ Hk) as (_ & a & Ha & _).
    by eapply wf_node_plain.
  - destruct (inherited key) eqn:Hkey; [|done]. by intros [= <-].
Qed.

Lemma wf_ingestSequence items e : wf e → wf (ingestSequence items e).2.
Proof.
  intros He.
  apply (ingestSequence_invariant wf (λ _ r, legit r));
    [done|apply wf_notify| | | |done|].
  - intros value e0 _ He0.
    pose proof (wf_getCanonicalAtom value e0 He0) as He1. split; [done|].
    destruct (getCanonicalAtom_spec value e0) as (_ & Hentry & _).
    by eapply legit_atomEntry.
  - intros u e0 He0 Hu. apply wf_getCanonicalFragment; [|done].
    split; [by constructor|done].
  - intros content l r kl kr e0 He0 Hcontent Hlen Hl Hr.
    apply wf_getCanonicalFragment; [|done].
    by eapply fragment_call_composite.
  - apply Forall_forall. intros item _ Huri. by apply isURI_plain.
Qed.

(** ** Reachable engines

    The calls that change an engine: [subscribe] and the function it
    returns, [getCanonicalAtom], [ingestSequence], [deleteNode], [reset]
    and [setFederationConfig].  The queries leave it as it is. *)

Inductive Op :=
  | OpSubscribe (listener : nat)
  | OpUnsubscribe (listener : nat)
  | OpCanonicalAtom (value : Value)
  | OpIngestSequence (items : list Value)
  | OpDeleteNode (uri : string)
  | OpReset
  | OpSetFederationConfig (newAuthority newAgent : string).

Definition apply_op (op : Op) (e : PGSLEngine) : PGSLEngine :=
  match op with
  | OpSubscribe listener => subscribe listener e
  | OpUnsubscribe listener => unsubscribe listener e
  | OpCanonicalAtom value => (getCanonicalAtom value e).2
  | OpIngestSequence items => (ingestSequence items e).2
  | OpDeleteNode uri => deleteNode uri e
  | OpReset => reset e
  | OpSetFederationConfig newAuthority newAgent =>
      setFederationConfig newAuthority newAgent e
  end.

(** A fresh engine, configured with an authority and an agent. *)
Definition freshEngine (auth ag : string) : PGSLEngine :=
  mkEngine emptyState [] auth ag 0 [].

(** Engines reached from a fresh one by the operations [allowed]. *)
Inductive reachable_by (allowed : PGSLEngine → Op → Prop) : PGSLEngine → Prop :=
  | reach_fresh auth ag : reachable_by allowed (freshEngine auth ag)
  | reach_step e op :
      reachable_by allowed e → allowed e op →
      reachable_by allowed (apply_op op e).

Definition reachable : PGSLEngine → Prop := reachable_by (λ _ _, True).

Lemma reachable_by_weaken (allowed : PGSLEngine → Op → Prop) e :
  reachable_by allowed e → reachable e.
Proof. induction 1; [apply reach_fresh|by apply reach_step]. Qed.

Lemma wf_apply_op op e : wf e → wf (apply_op op e).
Proof.
  destruct op; cbn; intros He.
  - by apply wf_subscribe.
  - by apply (wf_same_state e).
  - by apply wf_getCanonicalAtom.
  - by apply wf_ingestSequence.
  - by apply wf_deleteNode.
  - apply wf_reset.
  - by apply wf_setFederationConfig.
Qed.

Lemma reachable_wf e : reachable e → wf e.
Proof. induction 1; [apply wf_empty|by apply wf_apply_op]. Qed.

(** ** References never point to identifiers still to be minted *)

Definition is_segment (t : string) : Prop := t = "atoms" ∨ t = "fragments".

Lemma segment_is_segment node : is_segment (segment node).
Proof. destruct node; [by left|by right]. Qed.

Lemma mint_name_inj_segment auth t1 t2 i j :
  is_segment t1 → is_segment t2 →
  mint_name auth t1 i = mint_name auth t2 j → i = j.
Proof. intros _ _. apply mint_name_uuid. Qed.

Lemma noslash_mint_name auth t k : noslash (mint_name auth t k) = false.
Proof.
  unfold mint_name.
  change (noslash (auth +:+ String "/" (t +:+ "/" +:+ uuid k)) = false).
  apply noslash_app_slash.
Qed.

(** [older auth k u]: [u] is not an identifier minted at draw [k] or
    later. *)
Definition older (auth : string) (k : nat) (u : string) : Prop :=
  ∀ t j, is_segment t → k ≤ j → u ≠ mint_name auth t j.

Lemma older_mono auth k k' u : k ≤ k' → older auth k u → older auth k' u.
Proof. intros Hk Hu t j Ht Hj. apply Hu; [done|lia]. Qed.

Lemma minted_older auth t i k :
  is_segment t → i < k → older auth k (mint_name auth t i).
Proof.
  intros Ht Hi t' j Ht' Hj Heq.
  apply mint_name_inj_segment in Heq; [lia|done|done].
Qed.

Lemma noslash_older auth k u : noslash u = true → older auth k u.
Proof. intros Hu t j _ _ ->. by rewrite noslash_mint_name in Hu. Qed.

Lemma member_older auth k key :
  inherited key = true → older auth k (member_source key).
Proof. intros [? _]%member_source_plain. by apply noslash_older. Qed.

(** The references passed to [ingestSequence] name nothing that is
    still to be minted. *)
Definition unguessed (e : PGSLEngine) (items : list Value) : Prop :=
  ∀ item, item ∈ items → isURI (String_of item) = true →
    older (authority e) (drawn e) (String_of item).

Definition constituent_list (constituents : option (string * string)) : list string :=
  match constituents with Some (l, r) => [l; r] | None => [] end.

(** The property keys a node is read through. *)
Definition refs (node : Node) : list string :=
  match node with
  | Atom _ => []
  | Fragment f =>
      (ref_key <$> pgsl_content f) ++ constituent_list (pgsl_constituents f)
  end.

(** Every identifier was minted under the present authority. *)
Definition here (e : PGSLEngine) : Prop :=
  ∀ uri node, ownNode e uri = Some node →
    ∃ k, k < drawn e ∧ uri = mint_name (authority e) (segment node) k.

(** Every node refers only to what existed when it was minted. *)
Definition rooted (e : PGSLEngine) : Prop :=
  ∀ uri node k r, ownNode e uri = Some node →
    uri = mint_name (authority e) (segment node) k →
    r ∈ refs node → older (authority e) k r.

Definition grounded (e : PGSLEngine) : Prop := here e ∧ rooted e.

Lemma here_node_older e uri node :
  here e → ownNode e uri = Some node → older (authority e) (drawn e) uri.
Proof.
  intros He Hn. destruct (He _ _ Hn) as (k & Hk & ->).
  apply minted_older; [apply segment_is_segment|done].
Qed.

Lemma atomEntry_older e key r :
  wf e → here e → atomEntry e key = Some r →
  older (authority e) (drawn e) (ref_key r).
Proof.
  intros He Hh. rewrite wf_atomEntry by done.
  destruct (atomRegistry (state e) !! key) as [u|] eqn:Hk.
  - intros [= <-]. destruct (wf_atom_entry e He _ _ Hk) as (_ & a & Ha & _).
    by eapply here_node_older.
  - destruct (inherited key) eqn:Hkey; [|done]. intros [= <-]. cbn.
    by apply member_older.
Qed.

Lemma wf_frag_value_older e key u :
  wf e → here e → truthy (fragmentRegistry (state e) !! key) = Some u →
  older (authority e) (drawn e) u.
Proof.
  intros He Hh [Hk _]%truthy_Some.
  destruct (wf_frag_entry e He _ _ Hk) as (f & Hf & _).
  by eapply here_node_older.
Qed.

Lemma grounded_old_ref e uri node r (other : Node) :
  grounded e → ownNode e uri = Some node → r ∈ refs node →
  r ≠ mint_name (authority e) (segment other) (drawn e).
Proof.
  intros [Hh Hg] Hn Hr.
  destruct (Hh _ _ Hn) as (k & Hk & Huri).
  apply (Hg uri node k r Hn Huri Hr); [apply segment_is_segment|lia].
Qed.

Lemma grounded_same_state e e' :
  state e' = state e → authority e' = authority e → drawn e ≤ drawn e' →
  grounded e → grounded e'.
Proof.
  intros Hs Ha Hd [Hh Hg]. split.
  - intros uri node. unfold ownNode. rewrite Hs, Ha. intros Hn.
    destruct (Hh _ _ Hn) as (k & ? & ?). exists k. split; [lia|done].
  - intros uri node k r. unfold ownNode. rewrite Hs, Ha. apply Hg.
Qed.

Lemma grounded_empty ls auth ag d cs : grounded (mkEngine emptyState ls auth ag d cs).
Proof. split; [by intros uri node Hn|by intros uri node k r Hn]. Qed.

Lemma grounded_deleteNode uri e : grounded e → grounded (deleteNode uri e).
Proof.
  intros [Hh Hg]. split.
  - intros u node. unfold deleteNode, ownNode. cbn.
    intros [_ Hn]%obj_get_delete. by apply Hh.
  - intros u node k r. unfold deleteNode, ownNode. cbn.
    intros [_ Hn]%obj_get_delete. by apply Hg.
Qed.

Lemma grounded_getCanonicalAtom value e :
  grounded e → grounded (getCanonicalAtom value e).2.
Proof.
  intros [Hh Hg].
  destruct (atomEntry e (String_of value)) as [found|] eqn:Hk.
  { by rewrite (getCanonicalAtom_hit _ _ _ Hk). }
  rewrite (getCanonicalAtom_miss _ _ Hk). split.
  - intros uri node. unfold ownNode, stateWithAtom. cbn. rewrite obj_get_set.
    case_decide as Hu.
    + intros [= <-]. exists (drawn e). split; [lia|done].
    + intros Hn. destruct (Hh _ _ Hn) as (k & ? & ?). exists k. split; [lia|done].
  - intros uri node k r. unfold ownNode, stateWithAtom. cbn. rewrite obj_get_set.
    case_decide as Hu; [by intros [= <-] _ ?%elem_of_nil|]. apply Hg.
Qed.

Lemma grounded_getCanonicalFragment content constituents e :
  grounded e →
  Forall (older (authority e) (drawn e))
    ((ref_key <$> content) ++ constituent_list constituents) →
  grounded (getCanonicalFragment content constituents e).2.
Proof.
  intros [Hh Hg] Hrefs.
  destruct (truthy (fragmentRegistry (state e) !! JSON_stringify content))
    as [found|] eqn:Hk.
  { by rewrite (getCanonicalFragment_hit _ _ _ _ Hk). }
  rewrite (getCanonicalFragment_miss _ _ _ Hk). split.
  - intros uri node. unfold ownNode. cbn. rewrite obj_get_set.
    case_decide as Hu.
    + intros [= <-]. exists (drawn e). split; [lia|done].
    + intros Hn. destruct (Hh _ _ Hn) as (k & ? & ?). exists k. split; [lia|done].
  - intros uri node k r. unfold ownNode. cbn. rewrite obj_get_set.
    case_decide as Hu; [|apply Hg].
    intros [= <-] Hk' Hr. cbn in Hk', Hr. subst uri.
    apply mint_name_uuid in Hk'. subst k.
    by eapply Forall_forall in Hrefs.
Qed.

(** ** The height law *)

Definition height_law (e : PGSLEngine) : Prop :=
  ∀ uri node, getNode e uri = Own node →
    pgsl_height node =
    match node with
    | Atom _ => Height 0
    | Fragment f => newHeight e (pgsl_content f) (pgsl_constituents f)
    end.

Lemma newHeight_agree e e' content constituents :
  (∀ r, r ∈ (ref_key <$> content) ++ constituent_list constituents →
     ownNode e' r = ownNode e r) →
  newHeight e' content constituents = newHeight e content constituents.
Proof.
  intros Hsame. unfold newHeight, heightOf, getNode.
  destruct constituents as [[l r]|].
  - rewrite !Hsame; [done|..]; apply elem_of_app; right; cbn;
      [right; left|left].
  - destruct content as [|c content]; [done|]. rewrite Hsame; [done|].
    apply elem_of_app. left. left.
Qed.

(** Adding a node under an identifier nobody refers to keeps the law. *)
Lemma height_law_insert e e' newUri newNode :
  (∀ uri, ownNode e' uri
          = if decide (newUri = uri) then Some newNode else ownNode e uri) →
  (∀ uri node r, ownNode e uri = Some node → r ∈ refs node → r ≠ newUri) →
  (∀ r, r ∈ refs newNode → r ≠ newUri) →
  pgsl_height newNode =
    match newNode with
    | Atom _ => Height 0
    | Fragment f => newHeight e (pgsl_content f) (pgsl_constituents f)
    end →
  height_law e → height_law e'.
Proof.
  intros Hget Hold Hnew Hheight Hlaw uri node. rewrite getNode_Own, Hget.
  assert (∀ n, (∀ r, r ∈ refs n → r ≠ newUri) →
            match n with
            | Atom _ => Height 0
            | Fragment f => newHeight e' (pgsl_content f) (pgsl_constituents f)
            end
            = match n with
              | Atom _ => Height 0
              | Fragment f => newHeight e (pgsl_content f) (pgsl_constituents f)
              end) as Hagree.
  { intros [a|f] Hrefs; [done|]. apply newHeight_agree. intros r Hr.
    rewrite Hget. rewrite decide_False; [done|].
    intros <-. by apply (Hrefs newUri). }
  case_decide as Hu.
  - intros [= <-]. rewrite Hagree; done.
  - intros Hn. rewrite Hagree; [by apply (Hlaw uri), getNode_Own|].
    intros r Hr. by eapply Hold.
Qed.

Lemma height_law_same_state e e' :
  state e' = state e → height_law e → height_law e'.
Proof.
  intros Hs Hlaw uri node. unfold newHeight, heightOf, getNode, ownNode.
  rewrite Hs. apply Hlaw.
Qed.

Lemma height_law_empty ls auth ag d cs :
  height_law (mkEngine emptyState ls auth ag d cs).
Proof. by intros uri node Hn%getNode_Own. Qed.

Lemma height_law_getCanonicalAtom value e :
  grounded e → height_law e → height_law (getCanonicalAtom value e).2.
Proof.
  intros Hg Hlaw.
  destruct (atomEntry e (String_of value)) as [found|] eqn:Hk.
  { by rewrite (getCanonicalAtom_hit _ _ _ Hk). }
  rewrite (getCanonicalAtom_miss _ _ Hk).
  set (newUri := mint_name (authority e) "atoms" (drawn e)).
  set (a0 := mkAtom newUri value (agent e) (now (drawn e))).
  eapply (height_law_insert e _ newUri (Atom a0)); [| | |done|done].
  - intros uri. unfold ownNode, stateWithAtom. cbn. apply obj_get_set.
  - intros uri node r Hn Hr. by apply (grounded_old_ref e uri node r (Atom a0)).
  - by intros r ?%elem_of_nil.
Qed.

Lemma height_law_getCanonicalFragment content constituents e :
  grounded e →
  Forall (older (authority e) (drawn e))
    ((ref_key <$> content) ++ constituent_list constituents) →
  height_law e → height_law (getCanonicalFragment content constituents e).2.
Proof.
  intros Hg Hrefs Hlaw.
  destruct (truthy (fragmentRegistry (state e) !! JSON_stringify content))
    as [found|] eqn:Hk.
  { by rewrite (getCanonicalFragment_hit _ _ _ _ Hk). }
  rewrite (getCanonicalFragment_miss _ _ _ Hk).
  set (newUri := mint_name (authority e) "fragments" (drawn e)).
  set (f0 := mkFragment newUri (length content)
               (newHeight e content constituents) content constituents
               (agent e) (now (drawn e))).
  eapply (height_law_insert e _ newUri (Fragment f0)); [| | |done|done].
  - intros uri. unfold ownNode. cbn. apply obj_get_set.
  - intros uri node r Hn Hr. by apply (grounded_old_ref e uri node r (Fragment f0)).
  - intros r Hr. cbn in Hr. eapply Forall_forall in Hrefs; [|exact Hr].
    apply Hrefs; [by right|done].
Qed.

(** *** Both invariants along [ingestSequence] *)

Definition sound (e : PGSLEngine) : Prop := wf e ∧ grounded e.

Lemma older_ext e e' u :
  ext e e' → older (authority e) (drawn e) u → older (authority e') (drawn e') u.
Proof.
  intros He Hu. rewrite (ext_authority _ _ He).
  eapply older_mono; [|done]. apply He.
Qed.

(** What may stand in a content array: a value that is well formed and
    names nothing still to be minted. *)
Definition settled (e : PGSLEngine) (r : Ref) : Prop :=
  legit r ∧ older (authority e) (drawn e) (ref_key r).

Lemma settled_ext e e' r : ext e e' → settled e r → settled e' r.
Proof. intros He [? ?]. split; [done|by eapply older_ext]. Qed.

Lemma settled_atomEntry e key r :
  sound e → atomEntry e key = Some r → settled e r.
Proof.
  intros [Hw [Hh _]] Hr.
  split; [by eapply legit_atomEntry|by eapply atomEntry_older].
Qed.

Lemma composite_refs_older content l r kl kr e :
  sound e → Forall (settled e) content →
  truthy (fragmentRegistry (state e) !! kl) = Some l →
  truthy (fragmentRegistry (state e) !! kr) = Some r →
  Forall (older (authority e) (drawn e))
    ((ref_key <$> content) ++ constituent_list (Some (l, r))).
Proof.
  intros [He [Hh _]] Hc Hl Hr. apply Forall_app. split.
  - apply Forall_fmap. eapply Forall_impl; [exact Hc|]. by intros c [_ ?].
  - repeat constructor; by eapply wf_frag_value_older.
Qed.

Lemma sound_getCanonicalAtom value e :
  sound e → sound (getCanonicalAtom value e).2.
Proof.
  intros [Hw Hg].
  split; [by apply wf_getCanonicalAtom|by apply grounded_getCanonicalAtom].
Qed.

Lemma unguessed_settled e items :
  unguessed e items →
  Forall (λ item, isURI (String_of item) = true → settled e (Str (String_of item)))
    items.
Proof.
  intros Hitems. apply Forall_forall. intros item Hin Huri.
  split; [by apply isURI_plain|by apply Hitems].
Qed.

Lemma sound_ingestSequence items e :
  unguessed e items → sound e → sound (ingestSequence items e).2.
Proof.
  intros Hitems He.
  apply (ingestSequence_invariant sound settled).
  - intros e0 e0' u. apply settled_ext.
  - intros e0 [? ?]. split; [by apply wf_notify|by eapply grounded_same_state].
  - intros value e0 _ He0.
    pose proof (sound_getCanonicalAtom value e0 He0) as He1. split; [done|].
    eapply settled_atomEntry; [done|]. apply getCanonicalAtom_spec.
  - intros u e0 [Hw Hg] [Hu Ho]. split.
    + apply wf_getCanonicalFragment; [|done]. split; [by constructor|done].
    + apply grounded_getCanonicalFragment; [done|].
      cbn. by repeat constructor.
  - intros content l r kl kr e0 [Hw Hg] Hc Hlen Hl Hr. split.
    + apply wf_getCanonicalFragment; [|done].
      eapply fragment_call_composite; [done| |done..].
      eapply Forall_impl; [exact Hc|]. by intros c [? _].
    + apply grounded_getCanonicalFragment; [done|].
      by eapply composite_refs_older.
  - done.
  - by apply unguessed_settled.
Qed.

Lemma lawful_ingestSequence items e :
  unguessed e items → sound e ∧ height_law e →
  sound (ingestSequence items e).2 ∧ height_law (ingestSequence items e).2.
Proof.
  intros Hitems He.
  apply (ingestSequence_invariant (λ e, sound e ∧ height_law e) settled).
  - intros e0 e0' u. apply settled_ext.
  - intros e0 [[? ?] ?]. split; [split|];
      [by apply wf_notify|by eapply grounded_same_state
      |by eapply height_law_same_state].
  - intros value e0 _ [He0 Hlaw].
    pose proof (sound_getCanonicalAtom value e0 He0) as He1.
    split; [split; [done|]|].
    + apply height_law_getCanonicalAtom; [apply He0|done].
    + eapply settled_atomEntry; [done|]. apply getCanonicalAtom_spec.
  - intros u e0 [[Hw Hg] Hlaw] [Hu Ho].
    assert (Forall (older (authority e0) (drawn e0))
              ((ref_key <$> [u]) ++ constituent_list None))
      as Hrefs by (cbn; by repeat constructor).
    split; [split|].
    + apply wf_getCanonicalFragment; [|done]. split; [by constructor|done].
    + by apply grounded_getCanonicalFragment.
    + by apply height_law_getCanonicalFragment.
  - intros content l r kl kr e0 [[Hw Hg] Hlaw] Hc Hlen Hl Hr.
    pose proof (composite_refs_older content l r kl kr e0 (conj Hw Hg) Hc Hl Hr)
      as Hrefs.
    split; [split|].
    + apply wf_getCanonicalFragment; [|done].
      eapply fragment_call_composite; [done| |done..].
      eapply Forall_impl; [exact Hc|]. by intros c [? _].
    + by apply grounded_getCanonicalFragment.
    + by apply height_law_getCanonicalFragment.
  - done.
  - by apply unguessed_settled.
Qed.

(** Operations under one configuration whose references name nothing
    still to be minted: [subscribe], its inverse, [getCanonicalAtom],
    [ingestSequence], [deleteNode] and [reset]. *)
Definition honest (e : PGSLEngine) (op : Op) : Prop :=
  match op with
  | OpIngestSequence items => unguessed e items
  | OpSetFederationConfig _ _ => False
  | _ => True
  end.

(** The same, without [deleteNode]. *)
Definition honest_no_delete (e : PGSLEngine) (op : Op) : Prop :=
  match op with
  | OpIngestSequence items => unguessed e items
  | OpDeleteNode _ => False
  | OpSetFederationConfig _ _ => False
  | _ => True
  end.

Lemma reachable_sound e : reachable_by honest e → sound e.
Proof.
  induction 1 as [auth ag|e op _ IH Hop].
  - split; [apply wf_empty|apply grounded_empty].
  - destruct IH as [Hw Hg]. destruct op; cbn in *.
    + split; [by apply wf_subscribe|by eapply grounded_same_state].
    + split; [by apply (wf_same_state e)|by eapply grounded_same_state].
    + by apply sound_getCanonicalAtom.
    + by apply sound_ingestSequence.
    + split; [by apply wf_deleteNode|by apply grounded_deleteNode].
    + split; [apply wf_reset|apply grounded_empty].
    + done.
Qed.

Lemma reachable_lawful e :
  reachable_by honest_no_delete e → sound e ∧ height_law e.
Proof.
  induction 1 as [auth ag|e op _ IH Hop].
  - split; [split|]; [apply wf_empty|apply grounded_empty|apply height_law_empty].
  - destruct IH as [[Hw Hg] Hlaw]. destruct op; cbn in *.
    + split; [split|]; [by apply wf_subscribe|by eapply grounded_same_state
                  |by eapply height_law_same_state].
    + split; [split|]; [by apply (wf_same_state e)|by eapply grounded_same_state
                  |by eapply height_law_same_state].
    + split; [by apply sound_getCanonicalAtom
             |by apply height_law_getCanonicalAtom].
    + by apply lawful_ingestSequence.
    + done.
    + split; [split|]; [apply wf_reset|apply grounded_empty|apply height_law_empty].
    + done.
Qed.

(** ** The string resolvers terminate *)

Lemma mapOutcome_total {A B} (f : nat → A → option (completion B))
    (xs : list A) k :
  (∀ x, x ∈ xs → ∃ o, ∀ fuel, k < fuel → f fuel x = Some o) →
  ∃ o, ∀ fuel, k < fuel → mapOutcome (f fuel) xs = Some o.
Proof.
  induction xs as [|x xs IH]; intros Hxs; [by exists (Return [])|].
  destruct (Hxs x) as [o Ho]; [left|].
  destruct IH as [os Hos]; [intros x' Hx'; apply Hxs; by right|].
  destruct o as [y|ex].
  - destruct os as [ys|ex].
    + exists (Return (y :: ys)). intros fuel Hfuel. cbn.
      by rewrite Ho, Hos.
    + exists (Throw ex). intros fuel Hfuel. cbn. by rewrite Ho, Hos.
  - exists (Throw ex). intros fuel Hfuel. cbn. by rewrite Ho.
Qed.

Lemma mapOutcome_returns {A B} (f : nat → A → option (completion B))
    (xs : list A) k :
  (∀ x, x ∈ xs → ∃ y, ∀ fuel, k < fuel → f fuel x = Some (Return y)) →
  ∃ ys, ∀ fuel, k < fuel → mapOutcome (f fuel) xs = Some (Return ys).
Proof.
  induction xs as [|x xs IH]; intros Hxs; [by exists []|].
  destruct (Hxs x) as [y Hy]; [left|].
  destruct IH as [ys Hys]; [intros x' Hx'; apply Hxs; by right|].
  exists (y :: ys). intros fuel Hfuel. cbn. by rewrite Hy, Hys.
Qed.

(** The node behind [uri], if any, was minted before draw [k]. *)
Definition born_before (e : PGSLEngine) (k : nat) (uri : string) : Prop :=
  ∀ node, ownNode e uri = Some node →
    ∃ k', k' < k ∧ uri = mint_name (authority e) (segment node) k'.

Lemma content_born_before e uri f k c :
  sound e → ownNode e uri = Some (Fragment f) →
  uri = mint_name (authority e) "fragments" k →
  c ∈ pgsl_content f → born_before e k (ref_key c).
Proof.
  intros [Hw [Hh Hg]] Hn Huri Hc node' Hn'.
  destruct (Hh _ _ Hn') as (k'' & _ & Hc').
  exists k''. split; [|done].
  destruct (decide (k ≤ k'')) as [Hle|]; [|lia]. exfalso.
  apply (Hg uri (Fragment f) k (ref_key c) Hn Huri) with (segment node') k'';
    [|apply segment_is_segment|done|done].
  apply elem_of_app. left. by apply list_elem_of_fmap_2.
Qed.

Lemma resolver_ends_below e :
  sound e → ∀ k uri,
  inherited (ref_key uri) = false →
  born_before e k (ref_key uri) →
  ∃ s, ∀ fuel, k < fuel → resolveContentString fuel uri e = Some (Return s).
Proof.
  intros He. pose proof He as [Hw [Hh Hg]].
  induction k as [|k IH]; intros uri Hplain Hborn.
  - destruct (ownNode e (ref_key uri)) as [node|] eqn:Hn.
    { destruct (Hborn node Hn) as (? & ? & _). lia. }
    exists "<?>". intros [|fuel] Hfuel; [lia|]. cbn.
    by rewrite getNode_plain, Hn.
  - destruct (ownNode e (ref_key uri)) as [[a|f]|] eqn:Hn.
    + exists (String_of (rdf_value a)). intros [|fuel] Hfuel; [lia|].
      cbn. by rewrite getNode_plain, Hn.
    + destruct (Hborn _ Hn) as (k' & Hk' & Huri).
      destruct (wf_shape e Hw _ _ Hn) as (_ & Hlegit & _).
      assert (∀ c, c ∈ pgsl_content f →
                ∃ s, ∀ fuel, k < fuel →
                  resolveContentString fuel c e = Some (Return s))
        as Hchildren.
      { intros c Hc. apply IH.
        - apply legit_plain. by eapply Forall_forall in Hlegit.
        - intros node' Hn'.
          destruct (content_born_before e _ f k' c He Hn Huri Hc node' Hn')
            as (k'' & ? & ?).
          exists k''. split; [lia|done]. }
      destruct (pgsl_content f) as [|c [|c' content]] eqn:Hcontent.
      * exists "()". intros [|fuel] Hfuel; [lia|]. cbn.
        by rewrite getNode_plain, Hn, Hcontent.
      * destruct (Hchildren c) as [s Hs]; [left|]. exists s.
        intros [|fuel] Hfuel; [lia|]. cbn. rewrite getNode_plain, Hn, Hcontent by done.
        apply Hs. lia.
      * destruct (mapOutcome_returns (λ fuel c, resolveContentString fuel c e)
                    (c :: c' :: content) k Hchildren) as [parts Hparts].
        exists ("(" +:+ join " " parts +:+ ")").
        intros [|fuel] Hfuel; [lia|]. cbn [resolveContentString].
        rewrite getNode_plain, Hn, Hcontent by done. rewrite Hparts by lia. done.
    + exists "<?>". intros [|fuel] Hfuel; [lia|]. cbn.
      by rewrite getNode_plain, Hn.
Qed.

(** ** Counting the nodes of an ingested sequence *)

Lemma ingestRows_invariant (J : PGSLEngine → Prop) baseUris e top :
  (∀ i len l r e0, 2 ≤ len → i + len ≤ length baseUris → J e0 →
     J (getCanonicalFragment (slice baseUris i (i + len)) (Some (l, r)) e0).2) →
  J e → J (ingestRows baseUris (length baseUris) (e, top)).1.
Proof.
  intros Hstep He. unfold ingestRows.
  apply (foldl_seq_invariant (λ _ acc, J acc.1)); [done|].
  intros len [e' top'] Hlen He'. cbn in *. unfold ingestRow.
  apply (foldl_seq_invariant (λ _ acc, J acc.1)); [done|].
  intros i [e'' top''] Hi He''. cbn in *.
  destruct (ingestStep_cases baseUris (length baseUris) len i e'' top'')
    as [->|(l & r & kl & kr & Hl & Hr & ->)]; [done|].
  cbn. apply Hstep; [lia|lia|done].
Qed.

(** Every fragment-registry key is the key of a contiguous sub-sequence
    of [baseUris]. *)
Definition sliced (baseUris : list Ref) (e : PGSLEngine) : Prop :=
  ∀ key, is_Some (fragmentRegistry (state e) !! key) →
    ∃ i l, 1 ≤ l ∧ i + l ≤ length baseUris
           ∧ key = JSON_stringify (slice baseUris i (i + l)).

Lemma getCanonicalFragment_keys content constituents e key :
  is_Some (fragmentRegistry
             (state (getCanonicalFragment content constituents e).2) !! key) →
  is_Some (fragmentRegistry (state e) !! key) ∨ key = JSON_stringify content.
Proof.
  destruct (truthy (fragmentRegistry (state e) !! JSON_stringify content))
    as [found|] eqn:Hk.
  { rewrite (getCanonicalFragment_hit _ _ _ _ Hk). by left. }
  rewrite (getCanonicalFragment_miss _ _ _ Hk). cbn.
  rewrite lookup_insert. case_decide; [by right|by left].
Qed.

Lemma sliced_getCanonicalFragment baseUris i l constituents e :
  1 ≤ l → i + l ≤ length baseUris → sliced baseUris e →
  sliced baseUris
    (getCanonicalFragment (slice baseUris i (i + l)) constituents e).2.
Proof.
  intros Hl Hi Hs key [Hkey| ->]%getCanonicalFragment_keys; [by apply Hs|].
  by exists i, l.
Qed.

Lemma sliced_wrappers baseUris e :
  sliced baseUris e → sliced baseUris (mapM wrapperOf baseUris e).2.
Proof.
  intros Hs.
  destruct (mapM_spec wrapperOf (sliced baseUris) fext
              (λ _ u, u ∈ baseUris) (λ _ _ _, True) baseUris e)
    as (? & _); [| done | done | done | | done].
  - intros u e0 He0 Hu. split; [|split; [apply getCanonicalFragment_spec|done]].
    apply list_elem_of_lookup in Hu as [i Hi].
    rewrite <- (slice_singleton _ _ _ Hi).
    apply sliced_getCanonicalFragment; [done| |done].
    apply lookup_lt_Some in Hi. lia.
  - by apply Forall_forall.
Qed.

(** The run of [ingestSequence] on a non-empty input, in one statement. *)
Lemma ingestSequence_run items e :
  items ≠ [] →
  ∃ baseUris e1 e3 top,
    ingestSequence items e = (Return top, notify e3)
    ∧ mapM normalizeItem items e = (baseUris, e1)
    ∧ length baseUris = length items
    ∧ fext e1 e3
    ∧ covered baseUris e3 (length baseUris)
    ∧ (sliced baseUris e1 → sliced baseUris e3).
Proof.
  intros Hne.
  destruct (ingestSequence_unfold items e Hne)
    as (baseUris & e1 & level1 & e2 & e3 & top & Hm1 & Hm2 & Hl1 & Hl2 & Hret & Hrest).
  exists baseUris, e1, e3, top.
  destruct (mapM_wrapperOf_spec baseUris e1) as [Hext2 Hwrap].
  pose proof (sliced_wrappers baseUris e1) as Hs2.
  rewrite Hm2 in Hext2, Hwrap, Hs2. cbn in Hext2, Hwrap, Hs2.
  pose proof (covered_wrapped _ _ _ Hwrap) as Hcov1.
  split_and!; [done|done|done|..].
  - destruct Hrest as [(_ & -> & _)|[HN Hrows]]; [done|].
    destruct (ingestRows_spec baseUris e2 (default EmptyString (level1 !! 0)))
      as (H3 & _); [lia|done|]. rewrite Hrows in H3. by etrans.
  - destruct Hrest as [(Hone & -> & _)|[HN Hrows]].
    + by replace (length baseUris) with 1 by lia.
    + destruct (ingestRows_spec baseUris e2 (default EmptyString (level1 !! 0)))
        as (_ & H3 & _); [lia|done|]. by rewrite Hrows in H3.
  - intros Hs1. destruct Hrest as [(_ & -> & _)|[HN Hrows]]; [auto|].
    pose proof (ingestRows_invariant (sliced baseUris) baseUris e2
                  (default EmptyString (level1 !! 0))) as H3.
    rewrite Hrows in H3. apply H3; [|auto].
    intros i len l r e0 Hlen Hi He0.
    apply sliced_getCanonicalFragment; [lia|done|done].
Qed.

(** *** Nodes and registry entries correspond one to one *)

Definition asAtom (node : Node) : option AtomNode :=
  match node with Atom a => Some a | Fragment _ => None end.

Definition asFragment (node : Node) : option FragmentNode :=
  match node with Atom _ => None | Fragment f => Some f end.

Definition atomNodes (e : PGSLEngine) : list AtomNode :=
  omap asAtom (getAllNodes e).

Definition fragmentNodes (e : PGSLEngine) : list FragmentNode :=
  omap asFragment (getAllNodes e).

Lemma node_ids_keys e :
  wf e → node_id <$> getAllNodes e = (nodeRepository (state e)).*1.
Proof.
  intros He. unfold getAllNodes, obj_values.
  pose proof (wf_nodup e He) as Hnd.
  assert (∀ k n, (k, n) ∈ nodeRepository (state e) → node_id n = k) as Hid.
  { intros k n Hin. pose proof (obj_elem_get k n _ Hnd Hin) as Hget.
    by destruct (wf_minted e He k n (Hget : ownNode e k = Some n)). }
  clear Hnd. induction (nodeRepository (state e)) as [|[k n] o IH]; [done|].
  cbn. rewrite (Hid k n) by left. f_equal. apply IH.
  intros k' n' Hin. apply Hid. by right.
Qed.

Lemma omap_ids_sublist {X} (get : Node → option X) (id : X → string)
    (nodes : list Node) :
  (∀ n x, get n = Some x → id x = node_id n) →
  id <$> omap get nodes `sublist_of` node_id <$> nodes.
Proof.
  intros Hid. induction nodes as [|n nodes IH]; [done|]. cbn.
  destruct (get n) as [x|] eqn:Hn; cbn.
  - rewrite (Hid n x Hn). by apply sublist_skip.
  - by apply sublist_cons.
Qed.

Lemma nodes_registry {X} (get : Node → option X) (mk : X → Node)
    (key : X → string) (reg : gmap string string) e :
  wf e →
  (∀ n x, get n = Some x ↔ n = mk x) →
  (∀ u x, ownNode e u = Some (mk x) → reg !! key x = Some u) →
  (∀ k u, reg !! k = Some u → ∃ x, ownNode e u = Some (mk x) ∧ key x = k) →
  (λ x, (key x, node_id (mk x))) <$> omap get (getAllNodes e)
  ≡ₚ map_to_list reg.
Proof.
  intros He Hget Hnode Hentry. apply NoDup_Permutation.
  - apply (NoDup_fmap_1 snd). rewrite <- list_fmap_compose.
    eapply sublist_NoDup;
      [|apply (omap_ids_sublist get (λ x, node_id (mk x)))].
    + rewrite node_ids_keys by done. by apply wf_nodup.
    + intros n x Hn. apply Hget in Hn. by subst n.
  - apply NoDup_map_to_list.
  - intros [k u]. rewrite elem_of_map_to_list, list_elem_of_fmap. split.
    + intros (x & [= -> ->] & Hx). apply list_elem_of_omap in Hx as (n & Hn & Hx).
      apply Hget in Hx. subst n. apply Hnode.
      by apply getAllNodes_ownNode.
    + intros Hk. destruct (Hentry k u Hk) as (x & Hx & <-). exists x.
      destruct (wf_minted e He _ _ Hx) as [Hid _]. split; [by rewrite Hid|].
      apply list_elem_of_omap. exists (mk x). split; [|by apply Hget].
      unfold getAllNodes, obj_values. apply list_elem_of_fmap.
      exists (u, mk x). split; [done|]. by apply obj_get_Some_elem.
Qed.

Lemma atomNodes_registry e :
  wf e →
  (λ a, (String_of (rdf_value a), atom_id a)) <$> atomNodes e
  ≡ₚ map_to_list (atomRegistry (state e)).
Proof.
  intros He.
  apply (nodes_registry asAtom Atom (λ a, String_of (rdf_value a))); [done| | |].
  - intros [a|f] x; cbn; split; intros [= ->]; done.
  - intros u a. by apply wf_atom_node.
  - intros k u Hk. by destruct (wf_atom_entry e He k u Hk).
Qed.

Lemma fragmentNodes_registry e :
  wf e →
  (λ f, (JSON_stringify (pgsl_content f), frag_id f)) <$> fragmentNodes e
  ≡ₚ map_to_list (fragmentRegistry (state e)).
Proof.
  intros He.
  apply (nodes_registry asFragment Fragment
           (λ f, JSON_stringify (pgsl_content f))); [done| | |].
  - intros [a|f] x; cbn; split; intros [= ->]; done.
  - intros u f. by apply wf_frag_node.
  - intros k u. by apply wf_frag_entry.
Qed.

(** *** The contiguous sub-sequences of a list *)

Definition slices_of_length {A} (xs : list A) (len : nat) : list (list A) :=
  (λ i, slice xs i (i + len)) <$> seq 0 (length xs - len + 1).

(** All of them, in the order [ingestSequence] builds their fragments. *)
Definition all_slices {A} (xs : list A) : list (list A) :=
  seq 1 (length xs) ≫= slices_of_length xs.

Lemma elem_of_slices_of_length {A} (xs : list A) len c :
  len ≤ length xs →
  c ∈ slices_of_length xs len ↔
  ∃ i, i + len ≤ length xs ∧ c = slice xs i (i + len).
Proof.
  intros Hlen. unfold slices_of_length. rewrite list_elem_of_fmap. split.
  - intros (i & -> & Hi%elem_of_seq). exists i. split; [lia|done].
  - intros (i & Hi & ->). exists i. split; [done|]. apply elem_of_seq. lia.
Qed.

Lemma elem_of_all_slices {A} (xs : list A) c :
  c ∈ all_slices xs ↔
  ∃ i l, 1 ≤ l ∧ i + l ≤ length xs ∧ c = slice xs i (i + l).
Proof.
  unfold all_slices. rewrite list_elem_of_bind. split.
  - intros (l & Hc & Hl%elem_of_seq).
    apply elem_of_slices_of_length in Hc as (i & Hi & ->); [|lia].
    exists i, l. split_and!; [lia|done|done].
  - intros (i & l & Hl & Hi & ->). exists l. split.
    + apply elem_of_slices_of_length; [lia|]. by exists i.
    + apply elem_of_seq. lia.
Qed.

Lemma length_slices_of_length {A} (xs : list A) len :
  length (slices_of_length xs len) = length xs - len + 1.
Proof. unfold slices_of_length. by rewrite length_fmap, length_seq. Qed.

Lemma length_all_slices {A} (xs : list A) :
  2 * length (all_slices xs) = length xs * (length xs + 1).
Proof.
  unfold all_slices. set (N := length xs).
  assert (∀ n, n ≤ N →
            2 * length (seq 1 n ≫= slices_of_length xs) + n * n
            = n * (2 * N + 1)) as Hsum.
  { induction n as [|n IH]; intros Hn; [done|].
    rewrite seq_S, bind_app, bind_singleton, length_app,
      length_slices_of_length.
    fold N. specialize (IH ltac:(lia)). nia. }
  specialize (Hsum N ltac:(lia)). nia.
Qed.

Lemma slice_inj {A} (xs : list A) i l i' l' :
  NoDup xs → 1 ≤ l → i + l ≤ length xs → i' + l' ≤ length xs →
  slice xs i (i + l) = slice xs i' (i' + l') → i = i' ∧ l = l'.
Proof.
  intros Hnd Hl Hi Hi' Heq.
  assert (l = l') as <-.
  { apply (f_equal length) in Heq. by rewrite !slice_length in Heq. }
  split; [|done].
  assert (slice xs i (i + l) !! 0 = xs !! i) as H0.
  { unfold slice. rewrite lookup_take_lt by lia. rewrite lookup_drop.
    f_equal. lia. }
  assert (slice xs i' (i' + l) !! 0 = xs !! i') as H0'.
  { unfold slice. rewrite lookup_take_lt by lia. rewrite lookup_drop.
    f_equal. lia. }
  rewrite Heq, H0' in H0.
  destruct (lookup_lt_is_Some_2 xs i) as [x Hx]; [lia|].
  rewrite Hx in H0. by eapply NoDup_lookup.
Qed.

Lemma NoDup_all_slices {A} (xs : list A) : NoDup xs → NoDup (all_slices xs).
Proof.
  intros Hnd. unfold all_slices.
  assert (∀ n, n ≤ length xs →
            NoDup (seq 1 n ≫= slices_of_length xs)
            ∧ ∀ c, c ∈ seq 1 n ≫= slices_of_length xs → length c ≤ n) as Hrows.
  { induction n as [|n IH]; intros Hn.
    { split; [constructor|]. by intros c ?%elem_of_nil. }
    destruct IH as [IHnd IHlen]; [lia|].
    rewrite seq_S, bind_app, bind_singleton.
    assert (∀ c, c ∈ slices_of_length xs (1 + n) → length c = 1 + n) as Hrow.
    { intros c (i & Hi & ->)%elem_of_slices_of_length; [|lia].
      by apply slice_length. }
    split.
    - apply NoDup_app. split_and!; [done| |].
      + intros c Hc%IHlen Hc'%Hrow. lia.
      + unfold slices_of_length. apply NoDup_fmap_2_strong; [|apply NoDup_seq].
        intros i i' Hi%elem_of_seq Hi'%elem_of_seq Heq.
        apply slice_inj in Heq as [? _]; [done|done|lia|lia|lia].
    - intros c [Hc%IHlen|Hc%Hrow]%elem_of_app; lia. }
  by destruct (Hrows (length xs)).
Qed.

Lemma filter_ext_in {A} (P Q : A → Prop)
    `{!∀ x, Decision (P x), !∀ x, Decision (Q x)} (l : list A) :
  (∀ x, x ∈ l → P x ↔ Q x) → filter P l = filter Q l.
Proof.
  induction l as [|x l IH]; intros Hl; [done|].
  rewrite !filter_cons, IH by (intros y Hy; apply Hl; by right).
  destruct (decide (P x)) as [Hp|Hp], (decide (Q x)) as [Hq|Hq]; try done.
  - exfalso. apply Hq, (Hl x); [left|done].
  - exfalso. apply Hp, (Hl x); [left|done].
Qed.

Lemma filter_fmap {A B} (f : A → B) (P : B → Prop)
    `{!∀ y, Decision (P y)} (l : list A) :
  filter P (f <$> l) = f <$> filter (λ x, P (f x)) l.
Proof.
  induction l as [|x l IH]; [done|]. rewrite fmap_cons, !filter_cons, IH.
  by destruct (decide (P (f x))).
Qed.

Lemma filter_all {A} (P : A → Prop) `{!∀ x, Decision (P x)} (l : list A) :
  (∀ x, x ∈ l → P x) → filter P l = l.
Proof.
  induction l as [|x l IH]; intros Hl; [done|].
  rewrite filter_cons_True by (apply Hl; left). f_equal.
  apply IH. intros y Hy. apply Hl. by right.
Qed.

Lemma filter_none {A} (P : A → Prop) `{!∀ x, Decision (P x)} (l : list A) :
  (∀ x, x ∈ l → ¬ P x) → filter P l = [].
Proof.
  induction l as [|x l IH]; intros Hl; [done|].
  rewrite filter_cons_False by (apply Hl; left).
  apply IH. intros y Hy. apply Hl. by right.
Qed.

(** The sub-sequences of length 1 are the [length xs] singletons. *)
Lemma length_singleton_slices {A} (xs : list A) :
  length (filter (λ c, length c = 1) (all_slices xs)) = length xs.
Proof.
  unfold all_slices. destruct xs as [|x xs]; [done|].
  set (ys := x :: xs). change (length ys) with (S (length xs)).
  cbn [seq]. rewrite bind_cons, filter_app, length_app.
  rewrite filter_all, filter_none.
  - rewrite length_slices_of_length. cbn. lia.
  - intros c (l & Hc & Hl%elem_of_seq)%list_elem_of_bind.
    apply elem_of_slices_of_length in Hc as (i & Hi & ->); [|cbn; lia].
    rewrite slice_length by done. lia.
  - intros c (i & Hi & ->)%elem_of_slices_of_length; [|cbn; lia].
    by apply slice_length.
Qed.

(** *** Where the atoms of an ingested sequence come from *)

Definition atoms_from (items : list Value) (e : PGSLEngine) : Prop :=
  (∀ key, is_Some (atomRegistry (state e) !! key) → key ∈ String_of <$> items)
  ∧ (∀ uri a, ownNode e uri = Some (Atom a) → rdf_value a ∈ items).

Lemma atoms_from_getCanonicalFragment items content constituents e :
  atoms_from items e →
  atoms_from items (getCanonicalFragment content constituents e).2.
Proof.
  intros [Hkeys Hvals].
  destruct (truthy (fragmentRegistry (state e) !! JSON_stringify content))
    as [found|] eqn:Hk.
  { by rewrite (getCanonicalFragment_hit _ _ _ _ Hk). }
  rewrite (getCanonicalFragment_miss _ _ _ Hk). split; cbn; [done|].
  intros uri a. unfold ownNode. cbn. rewrite obj_get_set.
  case_decide; [done|]. apply Hvals.
Qed.

Lemma atoms_from_ingestSequence items e :
  atoms_from items e → atoms_from items (ingestSequence items e).2.
Proof.
  intros He.
  apply (ingestSequence_invariant (atoms_from items) (λ _ _, True));
    [done|done| | | |done|by apply Forall_true].
  - intros value e0 Hin [Hkeys Hvals]. split; [|done].
    destruct (atomEntry e0 (String_of value)) as [found|] eqn:Hk.
    { by rewrite (getCanonicalAtom_hit _ _ _ Hk). }
    rewrite (getCanonicalAtom_miss _ _ Hk). split; cbn.
    + intros key. unfold stateWithAtom. cbn. rewrite lookup_insert. case_decide as Hkey; [|apply Hkeys].
      intros _. subst key. apply list_elem_of_fmap. by exists value.
    + intros uri a. unfold ownNode, stateWithAtom. cbn. rewrite obj_get_set.
      case_decide; [by intros [= <-]|apply Hvals].
  - intros u e0 He0 _. by apply atoms_from_getCanonicalFragment.
  - intros content l r kl kr e0 He0 _ _ _ _.
    by apply atoms_from_getCanonicalFragment.
Qed.

Lemma mapM_normalizeItem_fragments items e :
  fragmentRegistry (state (mapM normalizeItem items e).2)
  = fragmentRegistry (state e).
Proof.
  revert e. induction items as [|item items IH]; intros e; [done|]. cbn.
  destruct (normalizeItem_spec item e) as (_ & _ & Hf).
  destruct (normalizeItem item e) as [u e1]. specialize (IH e1).
  destruct (mapM normalizeItem items e1) as [us e2]. cbn in *. congruence.
Qed.

Lemma NoDup_fmap_eq {A B} (f : A → B) (l : list A) x y :
  NoDup (f <$> l) → x ∈ l → y ∈ l → f x = f y → x = y.
Proof.
  intros Hnd [i Hi]%list_elem_of_lookup [j Hj]%list_elem_of_lookup Heq.
  assert (i = j) as ->; [|congruence].
  eapply NoDup_lookup; [exact Hnd| |]; rewrite list_lookup_fmap.
  - by rewrite Hi.
  - rewrite Hj. cbn. by rewrite Heq.
Qed.

Definition wrapperNodes (e : PGSLEngine) : list FragmentNode :=
  filter (λ f, length (pgsl_content f) = 1 ∧ pgsl_constituents f = None)
    (fragmentNodes e).

Definition compositeNodes (e : PGSLEngine) : list FragmentNode :=
  filter (λ f, is_Some (pgsl_constituents f)) (fragmentNodes e).

Lemma fragmentNodes_getNode e f :
  wf e → f ∈ fragmentNodes e → ownNode e (frag_id f) = Some (Fragment f).
Proof.
  intros He (n & Hn & Hf)%list_elem_of_omap. destruct n as [a|f']; [done|].
  cbn in Hf. inversion Hf; subst f'.
  by apply (getAllNodes_ownNode e (Fragment f)).
Qed.

(** Wrappers and composites split the fragments of a well-formed
    engine by the length of their content. *)
Lemma length_fragment_kinds e (contents : list (list Ref)) :
  wf e →
  pgsl_content <$> fragmentNodes e ≡ₚ contents →
  length (wrapperNodes e) = length (filter (λ c, length c = 1) contents)
  ∧ length (wrapperNodes e) + length (compositeNodes e) = length contents.
Proof.
  intros He Hperm.
  assert (length (wrapperNodes e)
          = length (filter (λ c, length c = 1) contents)) as Hw.
  { rewrite <- Hperm, filter_fmap, length_fmap. unfold wrapperNodes.
    f_equal. apply filter_ext_in. intros f Hf.
    apply fragmentNodes_getNode in Hf; [|done].
    destruct (wf_shape e He _ _ Hf) as (_ & _ & _ & Hshape).
    destruct (pgsl_constituents f) as [[l r]|]; [|by split; [intros []|]].
    split; [by intros [_ ?]|]. intros Hone. lia. }
  split; [done|].
  rewrite <- Hperm, length_fmap.
  pose proof (filter_app_complement
                (λ f, length (pgsl_content f) = 1 ∧ pgsl_constituents f = None)
                (fragmentNodes e)) as Hsplit.
  apply Permutation_length in Hsplit. rewrite length_app in Hsplit.
  rewrite <- Hsplit. unfold wrapperNodes, compositeNodes. do 2 f_equal.
  apply filter_ext_in. intros f Hf.
  apply fragmentNodes_getNode in Hf; [|done].
  destruct (wf_shape e He _ _ Hf) as (_ & _ & _ & Hshape).
  destruct (pgsl_constituents f) as [[l r]|].
  - split; [by intros _ [_ ?]|by eexists].
  - split; [by intros []%is_Some_None|]. intros Hn. exfalso. by apply Hn.
Qed.

(** ** The stated properties *)

(** The string forms of the raw values of [items] for which
    [getCanonicalAtom] finds nothing, each counted once. *)
Definition missing_keys (e : PGSLEngine) (items : list Value) : gset string :=
  list_to_set
    (filter (λ key, atomEntry e key = None)
       (String_of <$> filter (λ item, isURI (String_of item) = false) items)).

#[local] Arguments missing_keys : simpl never.

(** One notification: every listener is called, in subscription order,
    and sees the state [s]. *)
Definition invocations (ls : list nat) (s : PGSLState) : list (nat * PGSLState) :=
  (λ listener, (listener, s)) <$> ls.

Lemma notify_invocations e :
  calls (notify e) = calls e ++ invocations (listeners e) (state e).
Proof. done. Qed.

Lemma elem_of_missing_keys e items key :
  key ∈ missing_keys e items ↔
  atomEntry e key = None
  ∧ ∃ item, item ∈ items ∧ isURI (String_of item) = false ∧ String_of item = key.
Proof.
  unfold missing_keys.
  rewrite elem_of_list_to_set, list_elem_of_filter, list_elem_of_fmap.
  split.
  - intros [Hk (item & -> & [Hraw Hin]%list_elem_of_filter)]. eauto.
  - intros [Hk (item & Hin & Hraw & <-)]. split; [done|].
    exists item. split; [done|]. by apply list_elem_of_filter.
Qed.

Lemma missing_keys_cons_known e item items :
  isURI (String_of item) = true ∨ is_Some (atomEntry e (String_of item)) →
  missing_keys e (item :: items) = missing_keys e items.
Proof.
  intros Hknown. apply set_eq. intros k. rewrite !elem_of_missing_keys. split.
  - intros [Hk (x & [ ->|Hx]%elem_of_cons & Hraw & Hkx)]; [|eauto].
    subst k. destruct Hknown as [?|[? ?]]; congruence.
  - intros [? (x & Hx & ? & ?)]. split; [done|]. exists x.
    split; [by right|done].
Qed.

Lemma atomEntry_stateWithAtom value e key :
  atomEntry (with_state e (stateWithAtom value e)) key
  = if decide (String_of value = key)
    then Some (Str (mint_name (authority e) "atoms" (drawn e)))
    else atomEntry e key.
Proof.
  unfold atomEntry, stateWithAtom. cbn. rewrite lookup_insert.
  case_decide as Hk; [|done]. cbn. rewrite decide_False; [done|].
  apply mint_name_nonempty.
Qed.

Lemma missing_keys_cons_new e e' item items :
  isURI (String_of item) = false →
  atomEntry e (String_of item) = None →
  (∀ key, atomEntry e' key
          = if decide (String_of item = key)
            then Some (Str (mint_name (authority e) "atoms" (drawn e)))
            else atomEntry e key) →
  missing_keys e (item :: items) = {[String_of item]} ∪ missing_keys e' items
  ∧ String_of item ∉ missing_keys e' items.
Proof.
  intros Hraw Hmiss He'. split.
  - apply set_eq. intros k.
    rewrite elem_of_union, elem_of_singleton, !elem_of_missing_keys, He'.
    split.
    + intros [Hk (x & Hx & Hrawx & Hkx)].
      destruct (decide (k = String_of item)) as [->|Hne]; [by left|right].
      rewrite decide_False by done. split; [done|].
      apply elem_of_cons in Hx as [->|Hx]; [congruence|eauto].
    + intros [->|[Hk (x & Hx & Hrawx & Hkx)]].
      * split; [done|]. exists item. split; [left|done].
      * case_decide; [done|]. split; [done|].
        exists x. split; [by right|done].
  - intros [Hk _]%elem_of_missing_keys. rewrite He' in Hk.
    by rewrite decide_True in Hk.
Qed.

(** Step 1 of [ingestSequence]: one notification per atom created,
    each observed before any fragment of the call exists. *)
Lemma mapM_normalizeItem_calls items e :
  ∃ created : list PGSLState,
    calls (mapM normalizeItem items e).2
    = calls e ++ concat (invocations (listeners e) <$> created)
    ∧ length created = size (missing_keys e items)
    ∧ Forall (λ s, fragmentRegistry s = fragmentRegistry (state e)) created
    ∧ dom (atomRegistry (state (mapM normalizeItem items e).2))
      = dom (atomRegistry (state e)) ∪ missing_keys e items.
Proof.
  revert e. induction items as [|item items IH]; intros e.
  { exists []. cbn. rewrite app_nil_r. split_and!; [done|done|done|].
    unfold missing_keys. cbn. by rewrite union_empty_r_L. }
  cbn. unfold normalizeItem at 1 3.
  destruct (isURI (String_of item)) eqn:Huri.
  - rewrite missing_keys_cons_known by (by left).
    destruct (IH e) as (created & IH'). exists created.
    by destruct (mapM normalizeItem items e) as [ys e2].
  - destruct (atomEntry e (String_of item)) as [found|] eqn:Hk.
    + rewrite (getCanonicalAtom_hit _ _ _ Hk).
      rewrite missing_keys_cons_known by (right; by rewrite Hk).
      destruct (IH e) as (created & IH'). exists created.
      by destruct (mapM normalizeItem items e) as [ys e2].
    + rewrite (getCanonicalAtom_miss _ _ Hk).
      match goal with |- context [mapM normalizeItem items ?e1] =>
        set (e' := e1) end.
      destruct (IH e') as (created & Hcalls & Hlen & Hfrags & Hdom).
      destruct (missing_keys_cons_new e e' item items Huri Hk) as [Hkeys Hnew].
      { intros key. apply (atomEntry_stateWithAtom item e key). }
      exists (stateWithAtom item e :: created).
      destruct (mapM normalizeItem items e') as [ys e2]; cbn in *.
      split_and!.
      * by rewrite Hcalls, <- app_assoc.
      * rewrite Hkeys, size_union, size_singleton, Hlen; [done|].
        by intros k ->%elem_of_singleton.
      * by constructor.
      * rewrite Hdom, Hkeys. unfold e', stateWithAtom. cbn.
        rewrite dom_insert_L.
        by rewrite (comm_L (∪) {[String_of item]}), !(assoc_L (∪)).
Qed.

(** C4. [ingestSequence] raises exactly when [items] is empty, and then
    the engine (repository, registries, listener trace) is left as it
    was; on every non-empty input it returns an identifier. *)
Theorem ingestSequence_raises_iff_empty (items : list Value) (e : PGSLEngine) :
  ((∃ ex, (ingestSequence items e).1 = Throw ex) ↔ items = [])
  ∧ (items = [] → (ingestSequence items e).2 = e)
  ∧ (items ≠ [] → ∃ uri, (ingestSequence items e).1 = Return uri).
Proof.
  split_and!.
  - split.
    + intros [ex Hthrow]. destruct (decide (items = [])) as [|Hne]; [done|].
      destruct (ingestSequence_unfold items e Hne)
        as (? & ? & ? & ? & ? & ? & _ & _ & _ & _ & Hret & _).
      by rewrite Hret in Hthrow.
    + intros ->. by eexists.
  - by intros ->.
  - intros Hne.
    destruct (ingestSequence_unfold items e Hne)
      as (? & ? & ? & ? & ? & top & _ & _ & _ & _ & Hret & _).
    exists top. by rewrite Hret.
Qed.

(** C2. Ingesting the same non-empty sequence a second time returns the
    same top-level identifier and leaves the repository and both
    registries as they are: nothing is minted, only the closing
    notification is fired. *)
Theorem ingestSequence_idempotent (items : list Value) (e e' : PGSLEngine) top :
  items ≠ [] →
  ingestSequence items e = (Return top, e') →
  ingestSequence items e' = (Return top, notify e')
  ∧ state (notify e') = state e' ∧ drawn (notify e') = drawn e'.
Proof.
  intros Hne Hfirst. split; [|done].
  destruct (ingestSequence_unfold items e Hne)
    as (baseUris & e1 & level1 & e2 & e3 & top1 & Hm1 & Hm2 & Hl1 & Hl2 & Hret & Hrest).
  rewrite Hret in Hfirst. inversion Hfirst; subst top1 e'. clear Hfirst.
  destruct (mapM_normalizeItem_spec items e) as [_ Hnorm].
  rewrite Hm1 in Hnorm. cbn in Hnorm.
  destruct (mapM_wrapperOf_spec baseUris e1) as [Hext2 Hwrap].
  rewrite Hm2 in Hext2, Hwrap. cbn in Hext2, Hwrap.
  assert (fext e2 e3 ∧ (2 ≤ length items →
            covered baseUris e3 (length baseUris)
            ∧ truthy (fragmentRegistry (state e3) !! JSON_stringify baseUris)
              = Some top)) as [Hext3 Hfull].
  { destruct Hrest as [(Hone & -> & _)|[HN Hrows]]; [split; [done|lia]|].
    destruct (ingestRows_spec baseUris e2 (default EmptyString (level1 !! 0)))
      as (? & ? & ?); [lia|by eapply covered_wrapped|].
    rewrite Hrows in *. by split. }
  assert (ext e3 (notify e3)) as Hn3 by apply ext_notify.
  assert (ext e2 (notify e3)) as He23 by (etrans; [apply Hext3|done]).
  assert (ext e1 (notify e3)) as He13 by (etrans; [apply Hext2|done]).
  assert (Forall2 (normalized (notify e3)) items baseUris) as Hnorm'.
  { eapply Forall2_impl; [exact Hnorm|]. intros item u.
    by apply normalized_ext. }
  assert (Forall2 (wrapped (notify e3)) baseUris level1) as Hwrap'.
  { eapply Forall2_impl; [exact Hwrap|]. intros u w. by apply wrapped_ext. }
  unfold ingestSequence. rewrite decide_False by (by destruct items).
  rewrite (mapM_normalizeItem_hit _ _ _ Hnorm').
  rewrite (mapM_wrapperOf_hit _ _ _ Hwrap').
  destruct Hrest as [(Hone & -> & ->)|[HN Hrows]].
  - rewrite decide_True by congruence. done.
  - rewrite decide_False by lia.
    destruct (Hfull HN) as [Hcov Htop].
    assert (covered baseUris (notify e3) (length baseUris)) as Hcov'.
    { eapply covered_ext; [exact Hn3|exact Hcov]. }
    pose proof (ingestRows_covered baseUris (notify e3)
                  (default EmptyString (level1 !! 0)) Hcov') as Hsame.
    destruct (ingestRows_spec baseUris (notify e3)
                (default EmptyString (level1 !! 0))) as (_ & _ & Htop');
      [lia|by eapply covered_wrapped|].
    destruct (ingestRows _ _ (notify e3, _)) as [e4 top2]; cbn in *. subst e4.
    change (state (notify e3)) with (state e3) in Htop'.
    rewrite Htop in Htop'. by inversion Htop'.
Qed.

(** C7 (as the code has it). A call of [ingestSequence] on a non-empty
    sequence notifies the listeners once for every atom it creates and
    then once more at the end of the call.  The atoms created are those
    of the raw values for which [getCanonicalAtom] found nothing, one
    per string form: their keys are what the atom registry gains.  Each
    of these notifications is fired before the first fragment of the
    call exists, the listeners seeing the fragment registry the call
    started from; the closing one is the last thing the call does, the
    listeners seeing the final state.  When no atom is created the call
    fires that one notification only.  The listeners themselves are
    left as they are. *)
Theorem ingestSequence_notifications (items : list Value) (e : PGSLEngine) :
  items ≠ [] →
  ∃ created : list PGSLState,
    calls (ingestSequence items e).2
    = calls e
      ++ concat (invocations (listeners e) <$> created)
      ++ invocations (listeners e) (state (ingestSequence items e).2)
    ∧ length created = size (missing_keys e items)
    ∧ Forall (λ s, fragmentRegistry s = fragmentRegistry (state e)) created
    ∧ dom (atomRegistry (state (ingestSequence items e).2))
      = dom (atomRegistry (state e)) ∪ missing_keys e items
    ∧ listeners (ingestSequence items e).2 = listeners e.
Proof.
  intros Hne.
  destruct (ingestSequence_unfold items e Hne)
    as (baseUris & e1 & level1 & e2 & e3 & top & Hm1 & Hm2 & Hl1 & Hl2 & Hret & Hrest).
  rewrite Hret. cbn [snd].
  destruct (mapM_normalizeItem_calls items e)
    as (created & Hcalls1 & Hlen & Hfrags & Hdom).
  destruct (mapM_normalizeItem_spec items e) as [Hext1 _].
  rewrite Hm1 in Hcalls1, Hext1, Hdom. cbn in Hcalls1, Hext1, Hdom.
  destruct (mapM_wrapperOf_spec baseUris e1) as [Hext2 _].
  rewrite Hm2 in Hext2. cbn in Hext2.
  assert (fext e2 e3) as Hext3.
  { destruct Hrest as [(Hone & -> & _)|[HN Hrows]]; [done|].
    destruct (ingestRows_spec baseUris e2 (default EmptyString (level1 !! 0)))
      as (? & _); [lia| |by rewrite Hrows in *].
    eapply covered_wrapped.
    destruct (mapM_wrapperOf_spec baseUris e1) as [_ Hw]. by rewrite Hm2 in Hw. }
  assert (fext e1 e3) as (Hext & Ha & Hc) by (by etrans).
  assert (listeners e3 = listeners e) as Hls.
  { rewrite (ext_listeners _ _ Hext). apply Hext1. }
  exists created. split_and!; [|done|done| |done].
  - rewrite notify_invocations. change (state (notify e3)) with (state e3).
    by rewrite Hc, Hcalls1, Hls, <- app_assoc.
  - change (state (notify e3)) with (state e3). by rewrite Ha.
Qed.

(** Invariant R1: every atom in the repository has exactly one
    atom-registry entry for its identifier, every fragment exactly one
    fragment-registry entry, and every registry entry names a node that
    is in the repository. *)
Definition R1 (e : PGSLEngine) : Prop :=
  (∀ uri a, getNode e uri = Own (Atom a) →
     ∃ key, atomRegistry (state e) !! key = Some uri
            ∧ ∀ key', atomRegistry (state e) !! key' = Some uri → key' = key)
  ∧ (∀ uri f, getNode e uri = Own (Fragment f) →
     ∃ key, fragmentRegistry (state e) !! key = Some uri
            ∧ ∀ key', fragmentRegistry (state e) !! key' = Some uri → key' = key)
  ∧ (∀ key uri, atomRegistry (state e) !! key = Some uri →
     ∃ node, getNode e uri = Own node ∧ node_id node = uri)
  ∧ (∀ key uri, fragmentRegistry (state e) !! key = Some uri →
     ∃ node, getNode e uri = Own node ∧ node_id node = uri).

Lemma wf_R1 e : wf e → R1 e.
Proof.
  intros He. split_and!.
  - intros uri a Ha%getNode_Own. exists (String_of (rdf_value a)).
    split; [by apply wf_atom_node|].
    intros key' Hk'. destruct (wf_atom_entry e He _ _ Hk') as (_ & a' & Ha' & <-).
    congruence.
  - intros uri f Hf%getNode_Own. exists (JSON_stringify (pgsl_content f)).
    split; [by apply wf_frag_node|].
    intros key' Hk'. destruct (wf_frag_entry e He _ _ Hk') as (f' & Hf' & <-).
    congruence.
  - intros key uri Hk. destruct (wf_atom_entry e He _ _ Hk) as (_ & a & Ha & _).
    exists (Atom a). split; [by apply getNode_Own|].
    by destruct (wf_minted e He _ _ Ha).
  - intros key uri Hk. destruct (wf_frag_entry e He _ _ Hk) as (f & Hf & _).
    exists (Fragment f). split; [by apply getNode_Own|].
    by destruct (wf_minted e He _ _ Hf).
Qed.

(** C9. R1 holds in every engine reached from a fresh one by the public
    operations: [subscribe] and the function it returns,
    [setFederationConfig], [getCanonicalAtom], [ingestSequence],
    [deleteNode] and [reset]. *)
Theorem reachable_R1 (e : PGSLEngine) : reachable e → R1 e.
Proof. intros He. by apply wf_R1, reachable_wf. Qed.

(** C8 (where the code departs from it). After
    [deleteNode("constructor")] the read [getNode("constructor")] is not
    absent: the repository is a plain object, [delete] removes an own
    property only, and the read returns the member inherited from
    [Object.prototype].  This holds for every engine. *)
Theorem deleteNode_constructor (e : PGSLEngine) :
  getNode (deleteNode "constructor" e) "constructor" = Inherit "constructor"
  ∧ getNode (deleteNode "constructor" e) "constructor" ≠ Undefined.
Proof.
  assert (getNode (deleteNode "constructor" e) "constructor"
          = Inherit "constructor") as ->; [|done].
  unfold getNode, ownNode, deleteNode. cbn. by rewrite obj_get_delete_eq.
Qed.

(** C10 (where the code departs from it). In every reachable engine
    [getCanonicalAtom("constructor")] finds the member inherited from
    [Object.prototype] in the atom registry and returns it: what comes
    back is no identifier, no atom is created, the engine is left as it
    was, and no stored atom carries the value. *)
Theorem getCanonicalAtom_constructor (e : PGSLEngine) :
  reachable e →
  getCanonicalAtom (VString "constructor") e = (Member "constructor", e)
  ∧ ∀ uri a, getNode e uri = Own (Atom a) →
      String_of (rdf_value a) ≠ "constructor".
Proof.
  intros He%reachable_wf.
  assert (atomRegistry (state e) !! "constructor" = None) as Hnone.
  { destruct (atomRegistry (state e) !! "constructor") as [u|] eqn:Hk; [|done].
    by destruct (wf_atom_entry e He _ _ Hk) as [? _]. }
  split.
  - apply getCanonicalAtom_hit. rewrite wf_atomEntry by done. cbn.
    by rewrite Hnone.
  - intros uri a Ha%getNode_Own Hv.
    apply (wf_atom_node e He) in Ha. congruence.
Qed.

(** *** Neighbours and parents *)

(** What a loop over the repository collects when no step throws. *)
Definition found_by {A} (via : Node → completion (option A)) (node : Node)
    : option A :=
  match via node with Return found => found | Throw _ => None end.

Lemma collect_returns {A} (via : Node → completion (option A)) nodes :
  (∀ node, node ∈ nodes → ∃ found, via node = Return found) →
  collect via nodes = Return (omap (found_by via) nodes).
Proof.
  unfold collect.
  set (step := λ (acc : completion (list A)) (node : Node), _).
  assert (∀ ns acc, (∀ node, node ∈ ns → ∃ found, via node = Return found) →
            foldl step (Return acc) ns = Return (acc ++ omap (found_by via) ns))
    as Hfold.
  { induction ns as [|n ns IH]; intros acc Hns.
    { cbn. by rewrite app_nil_r. }
    destruct (Hns n) as [found Hn]; [left|].
    change (foldl step (Return acc) (n :: ns))
      with (foldl step (step (Return acc) n) ns).
    assert (step (Return acc) n
            = Return (match found with Some x => acc ++ [x] | None => acc end))
      as -> by (unfold step; cbn; by rewrite Hn).
    assert (omap (found_by via) (n :: ns)
            = match found with
              | Some x => x :: omap (found_by via) ns
              | None => omap (found_by via) ns
              end) as -> by (cbn; unfold found_by at 1; by rewrite Hn).
    destruct found as [x|]; rewrite IH by (intros m Hm; apply Hns; by right).
    - by rewrite <- app_assoc.
    - done. }
  intros Hnodes. by rewrite Hfold.
Qed.

Lemma promoteToStructural_Return uri e t :
  promoteToStructural uri e = Return t → ∀ key, getNode e uri ≠ Inherit key.
Proof.
  unfold promoteToStructural. by destruct (getNode e uri).
Qed.

Lemma promoteToStructural_returns uri e :
  (∀ key, getNode e uri ≠ Inherit key) →
  ∃ t, promoteToStructural uri e = Return t.
Proof.
  intros Hn. unfold promoteToStructural.
  destruct (getNode e uri) as [node|key|]; [|by destruct (Hn key)|by eexists].
  destruct (includes _ _); [|by eexists].
  destruct (truthy _); by eexists.
Qed.

Lemma demoteToAtom_returns uri e :
  (∀ key, getNode e uri ≠ Inherit key) → ∃ r, demoteToAtom uri e = Return r.
Proof.
  intros Hn. unfold demoteToAtom.
  destruct (getNode e uri) as [[a|f]|key|]; cbn;
    [by eexists| |by destruct (Hn key)|by eexists].
  case_decide; [|by eexists].
  destruct (pgsl_content f) as [|c [|c' content]]; by eexists.
Qed.

Lemma getNode_not_inherited e uri :
  inherited uri = false → ∀ key, getNode e uri ≠ Inherit key.
Proof.
  intros Huri key. rewrite getNode_plain by done. by destruct (ownNode e uri).
Qed.

Lemma neighborVia_returns t direction e node :
  wf e → node ∈ getAllNodes e →
  ∃ found, neighborVia t direction e node = Return found.
Proof.
  intros He Hin%getAllNodes_ownNode; [|done]. unfold neighborVia.
  destruct node as [a|f]; cbn; [by eexists|].
  destruct (wf_shape e He _ _ Hin) as (_ & _ & _ & Hshape).
  destruct (pgsl_constituents f) as [[c0 c1]|]; [|by eexists].
  destruct Hshape as (_ & [Hc0 Hp0] & [Hc1 Hp1]).
  destruct (demoteToAtom_returns c0 e (getNode_not_inherited e c0 Hp0)) as [d0 Hd0].
  destruct (demoteToAtom_returns c1 e (getNode_not_inherited e c1 Hp1)) as [d1 Hd1].
  destruct direction; case_decide; cbn; try (by eexists).
  - rewrite decide_False by done. rewrite Hd0. by eexists.
  - rewrite decide_False by done. rewrite Hd1. by eexists.
Qed.

(** In a well-formed engine [findNeighbors] returns once the target is
    promoted, with what each repository node contributes, in
    repository order. *)
Lemma findNeighbors_returns targetUri direction e t :
  wf e → promoteToStructural targetUri e = Return t →
  findNeighbors targetUri direction e
  = Return (omap (found_by (neighborVia t direction e)) (getAllNodes e)).
Proof.
  intros He Ht. unfold findNeighbors. rewrite Ht. cbn.
  apply collect_returns. intros node Hnode. by apply neighborVia_returns.
Qed.

Lemma elem_of_found_by {A} (via : Node → completion (option A))
    (nodes : list Node) x :
  x ∈ omap (found_by via) nodes ↔
  ∃ node, node ∈ nodes ∧ via node = Return (Some x).
Proof.
  rewrite list_elem_of_omap. unfold found_by. split.
  - intros (node & Hnode & Hx). exists node. split; [done|].
    destruct (via node) as [found|]; [by subst|done].
  - intros (node & Hnode & Hx). exists node. by rewrite Hx.
Qed.

(** Promotion only ever replaces an atom by its own wrapper. *)
Lemma demoteToAtom_promoteToStructural uri e t :
  wf e → promoteToStructural uri e = Return t →
  demoteToAtom t e = demoteToAtom uri e.
Proof.
  intros He. unfold promoteToStructural.
  destruct (getNode e uri) as [[a|f]|key|] eqn:Hn; cbn;
    [|by intros [= <-]|done|by intros [= <-]].
  unfold getFragmentUri, fragmentEntry. rewrite wf_frag_truthy by done.
  destruct (fragmentRegistry (state e) !! JSON_stringify (Str <$> [uri]))
    as [w|] eqn:Hw; intros [= <-]; [|done].
  destruct (wf_frag_entry e He _ _ Hw) as (f & Hf & Hkey).
  apply JSON_stringify_inj in Hkey; [|apply plain_Str].
  destruct (wf_shape e He _ _ Hf) as (Hlevel & _).
  unfold demoteToAtom. rewrite (getNode_ownNode _ _ _ Hf), Hn. cbn.
  rewrite decide_True by (by rewrite Hlevel, Hkey). by rewrite Hkey.
Qed.

(** C5. In a reachable engine, a parent [P] found for [(L, R)] shows up
    among the right neighbours of [L], with the demoted form of [R],
    and among the left neighbours of [R], with the demoted form of
    [L]: all four calls return. *)
Theorem findParentNode_findNeighbors (L R P : string) (e : PGSLEngine) :
  reachable e →
  findParentNode L R e = Return (Some P) →
  ∃ demotedL demotedR rightOfL leftOfR,
    demoteToAtom L e = Return demotedL
    ∧ demoteToAtom R e = Return demotedR
    ∧ findNeighbors L right e = Return rightOfL
    ∧ findNeighbors R left e = Return leftOfR
    ∧ mkNeighbor demotedR P ∈ rightOfL
    ∧ mkNeighbor demotedL P ∈ leftOfR.
Proof.
  intros He%reachable_wf Hfind. unfold findParentNode in Hfind.
  destruct (promoteToStructural L e) as [safeLeft|] eqn:HL; [|done].
  destruct (promoteToStructural R e) as [safeRight|] eqn:HR; [|done].
  cbn in Hfind.
  destruct (List.find _ (getAllNodes e)) as [node|] eqn:Hnode; [|done].
  cbn in Hfind. inversion Hfind; subst P. clear Hfind.
  apply find_some in Hnode as [Hin Hcond]. apply list_elem_of_In in Hin.
  apply andb_prop in Hcond as [Hfrag Hcond].
  destruct (constituents_of node) as [[c0 c1]|] eqn:Hcs; [|done].
  apply andb_prop in Hcond as [H0%bool_decide_eq_true H1%bool_decide_eq_true].
  assert (c0 ≠ EmptyString ∧ c1 ≠ EmptyString) as [Hc0 Hc1].
  { pose proof (getAllNodes_ownNode e node He Hin) as Hget.
    destruct node as [a|f]; [done|]. cbn in Hcs.
    destruct (wf_shape e He _ _ Hget) as (_ & _ & _ & Hshape).
    rewrite Hcs in Hshape. by destruct Hshape as (_ & [? _] & [? _]). }
  destruct (demoteToAtom_returns L e (promoteToStructural_Return _ _ _ HL))
    as [demotedL HdL].
  destruct (demoteToAtom_returns R e (promoteToStructural_Return _ _ _ HR))
    as [demotedR HdR].
  exists demotedL, demotedR. eexists _, _.
  split_and!; [done|done|by apply findNeighbors_returns..| |];
    apply elem_of_found_by; exists node; (split; [done|]);
    unfold neighborVia; rewrite Hfrag, Hcs; cbn.
  - rewrite decide_True by done. rewrite (truthy_is_Some _ c1) by done.
    by rewrite H1, (demoteToAtom_promoteToStructural R), HdR.
  - rewrite decide_True by done. rewrite (truthy_is_Some _ c0) by done.
    by rewrite H0, (demoteToAtom_promoteToStructural L), HdL.
Qed.

(** C3 (as the code has it). In every engine reached without
    [deleteNode] (and without references to identifiers still to be
    minted) every node obeys the height law: an atom has height 0, a
    wrapper the height of its one content child plus 1, a composite
    fragment the larger of its two constituents' heights plus 1, where a
    reference that resolves to no node counts 0.  All the heights
    involved are numbers. *)
Theorem height_law_without_deletion (e : PGSLEngine) uri node :
  reachable_by honest_no_delete e →
  getNode e uri = Own node →
  match node with
  | Atom _ => pgsl_height node = Height 0
  | Fragment f =>
      match pgsl_constituents f with
      | None =>
          ∃ child h, pgsl_content f = [child]
                     ∧ heightOf e (ref_key child) = Height h
                     ∧ pgsl_height node = Height (h + 1)
      | Some (l, r) =>
          ∃ hl hr, heightOf e l = Height hl ∧ heightOf e r = Height hr
                   ∧ pgsl_height node = Height (Nat.max hl hr + 1)
      end
  end.
Proof.
  intros [[Hw _] Hlaw]%reachable_lawful Hn.
  specialize (Hlaw uri node Hn). destruct node as [a|f]; [done|].
  apply getNode_Own in Hn.
  destruct (wf_shape e Hw _ _ Hn) as (_ & Hlegit & _ & Hshape).
  unfold newHeight in Hlaw.
  destruct (pgsl_constituents f) as [[l r]|].
  - destruct Hshape as (_ & [_ Hl] & [_ Hr]).
    destruct (heightOf_number e l Hw Hl) as [hl Hhl].
    destruct (heightOf_number e r Hw Hr) as [hr Hhr].
    exists hl, hr. by rewrite Hlaw, Hhl, Hhr.
  - destruct (pgsl_content f) as [|c [|c' content]]; [done| |done].
    apply Forall_cons in Hlegit as [Hc%legit_plain _].
    destruct (heightOf_number e _ Hw Hc) as [h Hh].
    exists c, h. by rewrite Hlaw, Hh.
Qed.

(** C6 (as the code has it). In every engine reached without
    references to identifiers still to be minted, [resolveContentString]
    returns a string, and raises nothing, for every identifier that
    does not name a property inherited from [Object.prototype]: with
    enough fuel the recursion ends.  When such an identifier resolves to
    no node the result is the fixed placeholder [<?>]. *)
Theorem resolveContentString_total (e : PGSLEngine) (uri : string) :
  reachable_by honest e →
  inherited uri = false →
  ∃ s, (∀ fuel, drawn e < fuel →
          resolveContentString fuel (Str uri) e = Some (Return s))
       ∧ (getNode e uri = Undefined → s = "<?>").
Proof.
  intros He%reachable_sound Huri.
  destruct (resolver_ends_below e He (drawn e) (Str uri)) as [s Hs]; [done| |].
  { intros node Hn. destruct He as [_ [Hh _]]. by apply Hh. }
  exists s. split; [done|]. intros Hn.
  specialize (Hs (S (drawn e)) (Nat.lt_succ_diag_r _)). cbn in Hs.
  rewrite Hn in Hs. by inversion Hs.
Qed.

Lemma plain_strings content : plain content → ∃ ss, content = Str <$> ss.
Proof.
  induction 1 as [|r content [s ->] _ [ss ->]]; [by exists []|].
  by exists (s :: ss).
Qed.

(** C1 (as the code has it). Starting from an empty state, ingesting
    [N >= 1] raw values whose string forms are pairwise distinct, none
    of them the name of a property inherited from [Object.prototype],
    creates exactly [N] atoms (one per value), [N] wrappers, [N(N-1)/2]
    composite fragments and [N(N+1)/2] fragments in all: one fragment
    for each contiguous sub-sequence of the atoms' identifiers. *)
Theorem ingestSequence_lattice_size (items : list Value) (e : PGSLEngine) :
  state e = emptyState →
  items ≠ [] →
  NoDup (String_of <$> items) →
  Forall (λ item, isURI (String_of item) = false) items →
  Forall (λ item, inherited (String_of item) = false) items →
  length (atomNodes (ingestSequence items e).2) = length items
  ∧ length (wrapperNodes (ingestSequence items e).2) = length items
  ∧ length (compositeNodes (ingestSequence items e).2)
    = length items * (length items - 1) / 2
  ∧ length (fragmentNodes (ingestSequence items e).2)
    = length items * (length items + 1) / 2
  ∧ ∃ baseUris : list string,
      Forall2 (λ item uri,
          ∃ a, getNode (ingestSequence items e).2 uri = Own (Atom a)
               ∧ rdf_value a = item) items baseUris
      ∧ pgsl_content <$> fragmentNodes (ingestSequence items e).2
        ≡ₚ all_slices (Str <$> baseUris).
Proof.
  intros Hempty Hne Hkeys Hraw Hown.
  assert (wf e) as He.
  { destruct e as [s ? ? ? ? ?]. cbn in Hempty. subst s. apply wf_empty. }
  pose proof (wf_ingestSequence items e He) as Hwf.
  assert (atoms_from items (ingestSequence items e).2) as [Hfrom Hvals].
  { apply atoms_from_ingestSequence. split.
    - intros key. rewrite Hempty. cbn. rewrite lookup_empty. by intros [? ?].
    - intros uri a. unfold ownNode. by rewrite Hempty. }
  destruct (ingestSequence_run items e Hne)
    as (baseRefs & e1 & e3 & top & Hrun & Hm1 & Hlen & Hext & Hcov & Hsl).
  destruct (mapM_normalizeItem_spec items e) as [_ Hnorm].
  pose proof (mapM_normalizeItem_fragments items e) as Hfrags1.
  rewrite Hm1 in Hnorm, Hfrags1. cbn in Hnorm, Hfrags1.
  rewrite Hrun in *. cbn [snd] in *. set (e' := notify e3) in *.
  assert (ext e1 e') as Hext'.
  { etrans; [apply Hext|apply ext_notify]. }
  (* the atom of every item *)
  assert (Forall2 (λ item r, ∃ uri, r = Str uri ∧
            atomRegistry (state e') !! String_of item = Some uri)
            items baseRefs) as Hrefs.
  { apply Forall2_same_length_lookup. split; [done|].
    intros i item r Hi Hr.
    pose proof (Forall2_lookup_lr _ _ _ _ _ _ Hnorm Hi Hr) as Hn.
    apply (normalized_ext _ _ _ _ Hext') in Hn. unfold normalized in Hn.
    pose proof (Forall_lookup_1 _ _ _ _ Hraw Hi) as Hrawi.
    pose proof (Forall_lookup_1 _ _ _ _ Hown Hi) as Howni.
    cbn in Hrawi, Howni. rewrite Hrawi in Hn.
    rewrite atomEntry_entryOf, entryOf_plain in Hn by done.
    destruct (truthy _) as [uri|] eqn:Hu; [|done].
    apply truthy_Some in Hu as [Hu _]. inversion Hn. eauto. }
  destruct (plain_strings baseRefs) as [baseUris ->].
  { apply Forall_forall. intros r [i Hi]%list_elem_of_lookup.
    destruct (Forall2_lookup_r _ _ _ _ _ Hrefs Hi) as (item & _ & uri & -> & _).
    by exists uri. }
  rewrite length_fmap in Hlen.
  assert (Forall2 (λ item uri,
            atomRegistry (state e') !! String_of item = Some uri)
            items baseUris) as Hentries.
  { apply Forall2_fmap_r in Hrefs. eapply Forall2_impl; [exact Hrefs|].
    cbn. intros item uri (uri' & [= <-] & Hk). done. }
  assert (NoDup baseUris) as Hbase.
  { apply NoDup_alt. intros i j uri Hi Hj.
    destruct (Forall2_lookup_r _ _ _ _ _ Hentries Hi) as (item & Hitem & Hk).
    destruct (Forall2_lookup_r _ _ _ _ _ Hentries Hj) as (item' & Hitem' & Hk').
    destruct (wf_atom_entry e' Hwf _ _ Hk) as (_ & a & Ha & Hva).
    destruct (wf_atom_entry e' Hwf _ _ Hk') as (_ & a' & Ha' & Hva').
    assert (String_of item = String_of item') as Hsame by congruence.
    eapply NoDup_lookup; [exact Hkeys| |]; rewrite list_lookup_fmap.
    - by rewrite Hitem.
    - rewrite Hitem'. cbn. by rewrite Hsame. }
  assert (NoDup (Str <$> baseUris)) as Hbase'.
  { apply NoDup_fmap_2; [|done]. by intros u u' [= ->]. }
  assert (∀ i l, plain (slice (Str <$> baseUris) i (i + l))) as Hplain.
  { intros i l. apply Forall_forall. intros r Hr%slice_elem_of.
    apply list_elem_of_fmap in Hr as (u & -> & _). by exists u. }
  (* the fragments are the contiguous sub-sequences *)
  assert (pgsl_content <$> fragmentNodes e' ≡ₚ all_slices (Str <$> baseUris))
    as Hperm.
  { pose proof (fragmentNodes_registry e' Hwf) as Hreg.
    apply NoDup_Permutation.
    - apply (NoDup_fmap_1 JSON_stringify).
      assert (JSON_stringify <$> (pgsl_content <$> fragmentNodes e')
              = ((λ f, (JSON_stringify (pgsl_content f), frag_id f))
                   <$> fragmentNodes e').*1) as ->.
      { by rewrite <- !list_fmap_compose. }
      rewrite Hreg. apply NoDup_fst_map_to_list.
    - by apply NoDup_all_slices.
    - intros c. rewrite elem_of_all_slices, list_elem_of_fmap. split.
      + intros (f & -> & Hf).
        apply fragmentNodes_getNode in Hf; [|done].
        apply (wf_frag_node e' Hwf) in Hf.
        destruct (Hsl) with (JSON_stringify (pgsl_content f))
          as (i & l & Hl & Hi & Hkey).
        { intros key. rewrite Hfrags1, Hempty. cbn. rewrite lookup_empty.
          by intros [? ?]. }
        { by eexists. }
        apply JSON_stringify_inj in Hkey; [eauto|apply Hplain].
      + intros (i & l & Hl & Hi & ->).
        destruct (Hcov i l) as [u Hu]; [done|lia|done|].
        apply truthy_Some in Hu as [Hu _].
        assert ((JSON_stringify (slice (Str <$> baseUris) i (i + l)), u)
                ∈ map_to_list (fragmentRegistry (state e'))) as Hin
          by (by apply elem_of_map_to_list).
        rewrite <- Hreg in Hin.
        apply list_elem_of_fmap in Hin as (f & Hpair & Hf).
        apply (f_equal fst) in Hpair. cbn [fst] in Hpair. symmetry in Hpair.
        apply JSON_stringify_inj in Hpair; [|apply Hplain]. by exists f. }
  (* counting *)
  assert (length (atomNodes e') = length items) as Hatoms.
  { pose proof (atomNodes_registry e' Hwf) as Hreg.
    apply Permutation_length in Hreg. rewrite length_fmap in Hreg.
    rewrite Hreg, <- (length_fmap fst), <- (length_fmap String_of items).
    apply Permutation_length, NoDup_Permutation;
      [apply NoDup_fst_map_to_list|done|].
    intros key. rewrite list_elem_of_fmap. split.
    - intros ([k u] & -> & Hin%elem_of_map_to_list). apply Hfrom. by eexists.
    - intros Hin. apply list_elem_of_fmap in Hin as (item & -> & Hitem).
      apply list_elem_of_lookup in Hitem as [i Hi].
      destruct (Forall2_lookup_l _ _ _ _ _ Hentries Hi) as (u & _ & Hu).
      exists (String_of item, u). split; [done|]. by apply elem_of_map_to_list. }
  destruct (length_fragment_kinds e' (all_slices (Str <$> baseUris)) Hwf Hperm)
    as [Hwrappers Hsum].
  rewrite length_singleton_slices in Hwrappers.
  pose proof (length_all_slices (Str <$> baseUris)) as Htotal.
  pose proof (Permutation_length Hperm) as Hfragments.
  rewrite length_fmap in Hfragments. rewrite length_fmap, Hlen in *.
  set (N := length items) in *.
  assert (N * (N - 1) = 2 * length (compositeNodes e')) as Hcomp by nia.
  split_and!; [done|done| | |].
  - rewrite Hcomp. by rewrite Nat.mul_comm, Nat.div_mul.
  - rewrite <- Htotal, Hfragments. by rewrite Nat.mul_comm, Nat.div_mul.
  - exists baseUris. split; [|done].
    apply Forall2_same_length_lookup. split; [done|].
    intros i item uri Hi Hu.
    pose proof (Forall2_lookup_lr _ _ _ _ _ _ Hentries Hi Hu) as Hk.
    destruct (wf_atom_entry e' Hwf _ _ Hk) as (_ & a & Ha & Hva).
    exists a. split; [by apply getNode_Own|].
    eapply (NoDup_fmap_eq String_of items); [done| |by eapply list_elem_of_lookup_2|done].
    by eapply Hvals.
Qed.

(** ** The rest of the engine *)

(** *** Canonical nodes *)

(** X1. In a reachable engine there is one atom per string form and one
    fragment per ordered content list: two atom nodes whose values have
    the same string form are the same node, and so are two fragment
    nodes with the same content. *)
Theorem canonical_nodes_unique (e : PGSLEngine) u1 u2 :
  reachable e →
  (∀ a1 a2, getNode e u1 = Own (Atom a1) → getNode e u2 = Own (Atom a2) →
     String_of (rdf_value a1) = String_of (rdf_value a2) → u1 = u2 ∧ a1 = a2)
  ∧ (∀ f1 f2, getNode e u1 = Own (Fragment f1) →
       getNode e u2 = Own (Fragment f2) →
       pgsl_content f1 = pgsl_content f2 → u1 = u2 ∧ f1 = f2).
Proof.
  intros He%reachable_wf. split.
  - intros a1 a2 H1%getNode_Own H2%getNode_Own Hsame.
    pose proof (wf_atom_node e He _ _ H1) as Hk1.
    pose proof (wf_atom_node e He _ _ H2) as Hk2.
    rewrite Hsame in Hk1. assert (u1 = u2) as <- by congruence.
    split; [done|congruence].
  - intros f1 f2 H1%getNode_Own H2%getNode_Own Hsame.
    pose proof (wf_frag_node e He _ _ H1) as Hk1.
    pose proof (wf_frag_node e He _ _ H2) as Hk2.
    rewrite Hsame in Hk1. assert (u1 = u2) as <- by congruence.
    split; [done|congruence].
Qed.

(** X2. In a reachable engine [getFragmentUri(content)] answers with an
    identifier exactly when the repository holds a fragment with that
    ordered content, and then it is that fragment's identifier. *)
Theorem getFragmentUri_iff_fragment (e : PGSLEngine) (content : list string) uri :
  reachable e →
  getFragmentUri e content = Some uri ↔
  ∃ f, getNode e uri = Own (Fragment f) ∧ pgsl_content f = Str <$> content
       ∧ frag_id f = uri.
Proof.
  intros He%reachable_wf. unfold getFragmentUri, fragmentEntry. split.
  - intros Hk. destruct (wf_frag_entry e He _ _ Hk) as (f & Hf & Hkey).
    apply JSON_stringify_inj in Hkey; [|apply plain_Str].
    exists f. split_and!; [by apply getNode_Own|done|].
    by destruct (wf_minted e He _ _ Hf).
  - intros (f & Hf%getNode_Own & <- & _). by apply wf_frag_node.
Qed.

(** X3. In a reachable engine every fragment has a level equal to the
    length of its content, at least 1; its constituents are null exactly
    when the level is 1, and a constituent is never the empty string. *)
Theorem fragment_shape (e : PGSLEngine) uri f :
  reachable e →
  getNode e uri = Own (Fragment f) →
  pgsl_level f = length (pgsl_content f)
  ∧ 1 ≤ pgsl_level f
  ∧ (pgsl_constituents f = None ↔ pgsl_level f = 1)
  ∧ (∀ l r, pgsl_constituents f = Some (l, r) →
       l ≠ EmptyString ∧ r ≠ EmptyString).
Proof.
  intros He%reachable_wf Hf%getNode_Own.
  destruct (wf_shape e He _ _ Hf) as (Hlevel & _ & _ & Hshape). rewrite Hlevel.
  destruct (pgsl_constituents f) as [[l r]|].
  - destruct Hshape as (Hlen & [Hl _] & [Hr _]). split_and!; [done|lia| |].
    + split; [done|lia].
    + by intros ? ? [= <- <-].
  - split_and!; [done|lia|done|done].
Qed.

(** X17. Promotion and demotion undo each other on an atom and its
    wrapper: in a reachable engine, an atom that has a wrapper is
    promoted to it and demoted back to itself, and the wrapper is
    demoted to the atom and promoted back to itself. *)
Theorem promote_demote_inverse (e : PGSLEngine) x w a :
  reachable e →
  getNode e x = Own (Atom a) →
  getFragmentUri e [x] = Some w →
  promoteToStructural x e = Return w
  ∧ demoteToAtom w e = Return (Str x)
  ∧ bind (promoteToStructural x e) (λ promoted, demoteToAtom promoted e)
    = Return (Str x)
  ∧ bind (demoteToAtom w e)
      (λ demoted, promoteToStructural (ref_key demoted) e)
    = Return w.
Proof.
  intros He%reachable_wf Hx Hw.
  assert (promoteToStructural x e = Return w) as Hp.
  { unfold promoteToStructural. rewrite Hx. cbn.
    unfold getFragmentUri, fragmentEntry in *. rewrite wf_frag_truthy by done.
    by rewrite Hw. }
  assert (demoteToAtom w e = Return (Str x)) as Hd.
  { unfold getFragmentUri, fragmentEntry in Hw.
    destruct (wf_frag_entry e He _ _ Hw) as (f & Hf & Hkey).
    apply JSON_stringify_inj in Hkey; [|apply plain_Str].
    destruct (wf_shape e He _ _ Hf) as (Hlevel & _).
    unfold demoteToAtom. rewrite (getNode_ownNode _ _ _ Hf). cbn.
    rewrite decide_True by (by rewrite Hlevel, Hkey). by rewrite Hkey. }
  rewrite Hp, Hd. cbn. by rewrite Hp, Hd.
Qed.

(** *** The debug scan and the neighbour query *)

(** [xs.map(f)] for an [f] that may throw. *)
Fixpoint each {A B} (f : A → completion B) (xs : list A) : completion (list B) :=
  match xs with
  | [] => Return []
  | x :: xs' =>
      bind (f x) (λ y, bind (each f xs') (λ ys, Return (y :: ys)))
  end.

Definition cleanNeighbor (e : PGSLEngine) (d : DebugNeighbor)
    : completion Neighbor :=
  bind (demoteToAtom (debug_neighbor d) e) (λ clean,
  Return (mkNeighbor clean (parent d))).

Definition relation_of (direction : Direction) : string :=
  match direction with
  | left => relation_neighbor_target
  | right => relation_target_neighbor
  end.

Lemma each_app {A B} (f : A → completion B) xs ys bs cs :
  each f xs = Return bs → each f ys = Return cs →
  each f (xs ++ ys) = Return (bs ++ cs).
Proof.
  revert bs. induction xs as [|x xs IH]; intros bs; cbn.
  - by intros [= <-].
  - destruct (f x) as [y|]; [|done]. cbn.
    destruct (each f xs) as [bs'|]; [|done]. cbn. intros [= <-] Hys.
    by rewrite (IH bs' eq_refl Hys).
Qed.

Lemma neighborVia_debugVia target direction e node :
  (∀ l r, constituents_of node = Some (l, r) →
     l ≠ EmptyString ∧ r ≠ EmptyString) →
  (∃ found, neighborVia target direction e node = Return found) →
  each (cleanNeighbor e)
    (filter (λ d, relation d = relation_of direction) (debugVia target node))
  = Return (match found_by (neighborVia target direction e) node with
            | Some found => [found]
            | None => []
            end).
Proof.
  intros Hne [found Hfound]. unfold found_by. rewrite Hfound. revert Hfound.
  unfold neighborVia, debugVia.
  destruct (includes NodeType_FRAGMENT (node_type node)); [|by intros [= <-]].
  destruct (constituents_of node) as [[c0 c1]|]; [|by intros [= <-]].
  destruct (Hne c0 c1 eq_refl) as [H0 H1].
  assert (relation_neighbor_target ≠ relation_target_neighbor) as Hrel by done.
  destruct direction; cbn [relation_of];
    destruct (decide (c0 = target)), (decide (c1 = target));
    rewrite ?app_nil_l, ?app_nil_r; cbn [app];
    rewrite ?filter_cons, ?filter_nil; cbn [relation];
    repeat first [rewrite decide_True by done|rewrite decide_False by done];
    rewrite ?(truthy_is_Some _ c0) by done;
    rewrite ?(truthy_is_Some _ c1) by done;
    cbn [each truthy]; unfold cleanNeighbor; cbn [debug_neighbor parent];
    first [by intros [= <-]
          |destruct (demoteToAtom _ e); [|done]; cbn; by intros [= <-]].
Qed.

Lemma foldl_debugVia t (nodes : list Node) acc :
  foldl (λ results node, results ++ debugVia t node) acc nodes
  = acc ++ (nodes ≫= debugVia t).
Proof.
  revert acc. induction nodes as [|n nodes IH]; intros acc; cbn.
  - by rewrite app_nil_r.
  - by rewrite IH, <- app_assoc.
Qed.

(** X18. In a reachable engine [findNeighbors(target, direction)] is the
    debug scan of [getDebugNeighbors(target)] restricted to the entries
    of that direction, in the same order, with every raw neighbour
    demoted; the one raises exactly when the other does. *)
Theorem findNeighbors_from_debug (e : PGSLEngine) target direction :
  reachable e →
  findNeighbors target direction e
  = bind (getDebugNeighbors target e) (λ scan,
      each (cleanNeighbor e)
        (filter (λ d, relation d = relation_of direction) scan)).
Proof.
  intros He%reachable_wf. unfold getDebugNeighbors.
  destruct (promoteToStructural target e) as [t|ex] eqn:Ht;
    [|unfold findNeighbors; by rewrite Ht].
  rewrite (findNeighbors_returns _ _ _ t) by done. cbn.
  rewrite foldl_debugVia. cbn. symmetry.
  assert (∀ nodes, (∀ node, node ∈ nodes → node ∈ getAllNodes e) →
            each (cleanNeighbor e)
              (filter (λ d, relation d = relation_of direction)
                 (nodes ≫= debugVia t))
            = Return (omap (found_by (neighborVia t direction e)) nodes))
    as Hscan; [|by apply Hscan].
  induction nodes as [|node nodes IH]; intros Hin; [done|].
  rewrite bind_cons, filter_app.
  erewrite each_app; [|apply neighborVia_debugVia|apply IH].
  - cbn. by destruct (found_by _ node).
  - intros l r Hcs. destruct node as [a|f]; [done|].
    pose proof (getAllNodes_ownNode e (Fragment f) He
                  ltac:(apply Hin; left)) as Hget.
    destruct (wf_shape e He _ _ Hget) as (_ & _ & _ & Hshape). cbn in Hcs.
    rewrite Hcs in Hshape. by destruct Hshape as (_ & [? _] & [? _]).
  - apply neighborVia_returns; [done|]. apply Hin. left.
  - intros n Hn. apply Hin. by right.
Qed.

(** *** Configuration and subscriptions *)

Lemma trimTrailingSlash_snoc s : trimTrailingSlash (s +:+ "/") = s.
Proof.
  induction s as [|c s IH]; [done|]. cbn [String.append trimTrailingSlash].
  rewrite IH. by destruct s.
Qed.

Lemma trimTrailingSlash_other s :
  (∀ s', s ≠ s' +:+ "/") → trimTrailingSlash s = s.
Proof.
  induction s as [|c s IH]; intros Hs; [done|]. cbn.
  destruct s as [|c' s].
  - case_decide as Hc; [|done]. subst c. by destruct (Hs EmptyString).
  - rewrite IH; [done|]. intros s' Heq. apply (Hs (String c s')).
    cbn. by rewrite Heq.
Qed.

(** X19. [setFederationConfig] removes exactly one trailing slash from
    the authority and nothing else, so that the next identifier minted
    is the given authority, a slash, the type and the UUID; repository,
    registries and listeners are untouched and nothing is notified. *)
Theorem setFederationConfig_trims_one_slash (e : PGSLEngine) auth ag type :
  getFederationConfig (setFederationConfig (auth +:+ "/") ag e) = (auth, ag)
  ∧ (mintURI type (setFederationConfig (auth +:+ "/") ag e)).1
    = auth +:+ "/" +:+ type +:+ "/" +:+ uuid (drawn e)
  ∧ ((∀ s, auth ≠ s +:+ "/") →
     getFederationConfig (setFederationConfig auth ag e) = (auth, ag))
  ∧ state (setFederationConfig auth ag e) = state e
  ∧ calls (setFederationConfig auth ag e) = calls e.
Proof.
  unfold getFederationConfig, setFederationConfig, mintURI, mint_name. cbn.
  rewrite trimTrailingSlash_snoc. split_and!; try done.
  intros Hs. by rewrite trimTrailingSlash_other.
Qed.

(** *** Runs of operations *)

Definition run (ops : list Op) (e : PGSLEngine) : PGSLEngine :=
  foldl (λ e op, apply_op op e) e ops.

Lemma run_snoc ops op e : run (ops ++ [op]) e = apply_op op (run ops e).
Proof. unfold run. by rewrite foldl_app. Qed.

Lemma reachable_run ops e : reachable e → reachable (run ops e).
Proof.
  revert e. induction ops as [|op ops IH]; intros e He; [done|].
  cbn. apply IH. by apply reach_step.
Qed.

(** *** The repository only grows at its end *)

Definition kept (e e' : PGSLEngine) : Prop :=
  nodeRepository (state e) `prefix_of` nodeRepository (state e').

#[local] Instance kept_refl : Reflexive kept.
Proof. intros e. unfold kept. done. Qed.

#[local] Instance kept_trans : Transitive kept.
Proof. intros e1 e2 e3. unfold kept. by etrans. Qed.

Lemma obj_get_app {V} k (o o' : list (string * V)) v :
  obj_get k o = Some v → obj_get k (o ++ o') = Some v.
Proof.
  induction o as [|[k' v'] o IH]; [done|]. cbn.
  case_decide; [done|]. apply IH.
Qed.

Lemma kept_getNode e e' uri node :
  kept e e' → getNode e uri = Own node → getNode e' uri = Own node.
Proof.
  intros [more Hmore]. rewrite !getNode_Own. unfold ownNode.
  rewrite Hmore. apply obj_get_app.
Qed.

Lemma kept_getAllNodes e e' :
  kept e e' → getAllNodes e `prefix_of` getAllNodes e'.
Proof.
  intros [more Hmore]. unfold getAllNodes, obj_values. rewrite Hmore.
  rewrite fmap_app. by eexists.
Qed.

Lemma kept_getCanonicalAtom value e :
  wf e → kept e (getCanonicalAtom value e).2.
Proof.
  intros He.
  destruct (atomEntry e (String_of value)) as [u|] eqn:Hk.
  - by rewrite (getCanonicalAtom_hit _ _ _ Hk).
  - rewrite (getCanonicalAtom_miss _ _ Hk). unfold kept, stateWithAtom. cbn.
    rewrite obj_set_fresh; [by eexists|].
    by apply (wf_fresh e (authority e) "atoms").
Qed.

Lemma kept_getCanonicalFragment content constituents e :
  wf e → kept e (getCanonicalFragment content constituents e).2.
Proof.
  intros He.
  destruct (truthy (fragmentRegistry (state e) !! JSON_stringify content))
    as [u|] eqn:Hk.
  - by rewrite (getCanonicalFragment_hit _ _ _ _ Hk).
  - rewrite (getCanonicalFragment_miss _ _ _ Hk). unfold kept. cbn.
    rewrite obj_set_fresh; [by eexists|].
    by apply (wf_fresh e (authority e) "fragments").
Qed.

Lemma kept_ingestSequence items e :
  wf e → kept e (ingestSequence items e).2.
Proof.
  intros He.
  cut (wf (ingestSequence items e).2 ∧ kept e (ingestSequence items e).2);
    [by intros [_ ?]|].
  apply (ingestSequence_invariant (λ e', wf e' ∧ kept e e') (λ _ r, legit r)).
  - done.
  - intros e0 [? ?]. split; [by apply wf_notify|done].
  - intros value e0 _ [Hw Hk].
    pose proof (wf_getCanonicalAtom value e0 Hw) as Hw1. split; [split|].
    + done.
    + etrans; [exact Hk|]. by apply kept_getCanonicalAtom.
    + eapply legit_atomEntry; [done|]. apply getCanonicalAtom_spec.
  - intros u e0 [Hw Hk] Hu. split.
    + apply wf_getCanonicalFragment; [|done]. split; [by constructor|done].
    + etrans; [exact Hk|]. by apply kept_getCanonicalFragment.
  - intros content l r kl kr e0 [Hw Hk] Hc Hlen Hl Hr. split.
    + apply wf_getCanonicalFragment; [|done]. by eapply fragment_call_composite.
    + etrans; [exact Hk|]. by apply kept_getCanonicalFragment.
  - done.
  - apply Forall_forall. intros item _ Huri. by apply isURI_plain.
Qed.

(** The operations that only add. *)
Definition additive (op : Op) : Prop :=
  match op with
  | OpDeleteNode _ | OpReset => False
  | _ => True
  end.

(** X4. Nodes are immutable and the repository is append-only: in a
    reachable engine every operation other than [deleteNode] and
    [reset] ([subscribe] and its inverse, [setFederationConfig],
    [getCanonicalAtom], [ingestSequence]) leaves every existing node as
    it is, at its place in the enumeration of [getAllNodes]; what it
    creates comes after. *)
Theorem repository_append_only (e : PGSLEngine) (op : Op) :
  reachable e → additive op →
  getAllNodes e `prefix_of` getAllNodes (apply_op op e)
  ∧ ∀ uri node, getNode e uri = Own node →
      getNode (apply_op op e) uri = Own node.
Proof.
  intros He%reachable_wf Hop.
  assert (kept e (apply_op op e)) as Hkept.
  { destruct op; cbn in *;
      [by unfold kept|by unfold kept| | |done|done|by unfold kept].
    - by apply kept_getCanonicalAtom.
    - by apply kept_ingestSequence. }
  split; [by apply kept_getAllNodes|]. intros uri node. by apply kept_getNode.
Qed.

(** *** Identifiers are not handed out twice *)

(** No UUID drawn from [k] on ends in an identifier equal to [uri],
    whatever the authority. *)
Definition spent (k : nat) (uri : string) : Prop :=
  ∀ auth t j, k ≤ j → uri ≠ mint_name auth t j.

Lemma spent_mono k k' uri : k ≤ k' → spent k uri → spent k' uri.
Proof. intros Hk Hs auth t j Hj. apply Hs. lia. Qed.

Lemma wf_node_spent e uri node :
  wf e → ownNode e uri = Some node → spent (drawn e) uri.
Proof.
  intros He Hn auth t j Hj Heq.
  destruct (wf_minted e He _ _ Hn) as (_ & auth' & k & Hk & Huri).
  rewrite Huri in Heq. apply mint_name_uuid in Heq. lia.
Qed.

(** [uri] is not in the repository and no later minting yields it. *)
Definition gone (uri : string) (e : PGSLEngine) : Prop :=
  wf e ∧ spent (drawn e) uri ∧ ownNode e uri = None.

Lemma gone_same_repository uri e e' :
  wf e' → drawn e ≤ drawn e' →
  ownNode e' uri = None → gone uri e → gone uri e'.
Proof.
  intros Hw Hd Hn (_ & Ho & _). split_and!; [done| |done].
  by eapply spent_mono.
Qed.

Lemma gone_getCanonicalAtom uri value e :
  gone uri e → gone uri (getCanonicalAtom value e).2.
Proof.
  intros (Hw & Ho & Hn).
  destruct (getCanonicalAtom_spec value e) as [Hext _].
  split_and!; [by apply wf_getCanonicalAtom| |].
  { eapply spent_mono; [apply Hext|done]. }
  destruct (atomEntry e (String_of value)) as [u|] eqn:Hk.
  - by rewrite (getCanonicalAtom_hit _ _ _ Hk).
  - rewrite (getCanonicalAtom_miss _ _ Hk). unfold ownNode, stateWithAtom. cbn.
    rewrite obj_get_set. case_decide as Heq; [|done].
    by destruct (Ho (authority e) "atoms" (drawn e)).
Qed.

Lemma gone_getCanonicalFragment uri content constituents e :
  fragment_call content constituents →
  gone uri e → gone uri (getCanonicalFragment content constituents e).2.
Proof.
  intros Hcall (Hw & Ho & Hn).
  destruct (getCanonicalFragment_spec content constituents e) as [[Hext _] _].
  split_and!; [by apply wf_getCanonicalFragment| |].
  { eapply spent_mono; [apply Hext|done]. }
  destruct (truthy (fragmentRegistry (state e) !! JSON_stringify content))
    as [u|] eqn:Hk.
  - by rewrite (getCanonicalFragment_hit _ _ _ _ Hk).
  - rewrite (getCanonicalFragment_miss _ _ _ Hk). unfold ownNode. cbn.
    rewrite obj_get_set. case_decide as Heq; [|done].
    by destruct (Ho (authority e) "fragments" (drawn e)).
Qed.

Lemma gone_ingestSequence uri items e :
  gone uri e → gone uri (ingestSequence items e).2.
Proof.
  intros Hgone.
  apply (ingestSequence_invariant (gone uri) (λ _ r, legit r)).
  - done.
  - intros e0 (Hw & Ho & Hn). split_and!; [by apply wf_notify|done|done].
  - intros value e0 _ H0.
    pose proof (gone_getCanonicalAtom uri value e0 H0) as H1. split; [done|].
    eapply legit_atomEntry; [apply H1|]. apply getCanonicalAtom_spec.
  - intros u e0 H0 Hu. apply gone_getCanonicalFragment; [|done].
    split; [by constructor|done].
  - intros content l r kl kr e0 H0 Hc Hlen Hl Hr.
    apply gone_getCanonicalFragment; [|done].
    eapply fragment_call_composite; [apply H0|done..].
  - done.
  - apply Forall_forall. intros item _ Huri. by apply isURI_plain.
Qed.

Lemma gone_apply_op uri op e : gone uri e → gone uri (apply_op op e).
Proof.
  intros Hgone. pose proof Hgone as (Hw & Ho & Hn). destruct op; cbn.
  - apply (gone_same_repository uri e); [by apply wf_subscribe|done..].
  - apply (gone_same_repository uri e); [by apply (wf_same_state e)|done..].
  - by apply gone_getCanonicalAtom.
  - by apply gone_ingestSequence.
  - apply (gone_same_repository uri e); [by apply wf_deleteNode|done| |done].
    destruct (ownNode (deleteNode uri0 e) uri) as [n|] eqn:Hd; [|done].
    apply obj_get_delete in Hd as [_ Hd]. unfold ownNode in Hn. congruence.
  - apply (gone_same_repository uri e); [apply wf_reset|done..].
  - apply (gone_same_repository uri e);
      [by apply wf_setFederationConfig|done..].
Qed.

Lemma gone_run uri ops e : gone uri e → gone uri (run ops e).
Proof.
  revert e. induction ops as [|op ops IH]; intros e He; [done|].
  cbn. apply IH. by apply gone_apply_op.
Qed.

(** *** What [ingestSequence] returns *)

Lemma ingestSequence_result items e :
  items ≠ [] →
  ∃ baseUris top e3,
    ingestSequence items e = (Return top, notify e3)
    ∧ ext e e3
    ∧ length baseUris = length items
    ∧ Forall2 (normalized e3) items baseUris
    ∧ covered baseUris e3 (length baseUris)
    ∧ truthy (fragmentRegistry (state e3) !! JSON_stringify baseUris) = Some top.
Proof.
  intros Hne.
  destruct (ingestSequence_unfold items e Hne)
    as (baseUris & e1 & level1 & e2 & e3 & top & Hm1 & Hm2 & Hl1 & Hl2 & Hret & Hrest).
  destruct (mapM_normalizeItem_spec items e) as [Hext1 Hnorm].
  rewrite Hm1 in Hext1, Hnorm. cbn in Hext1, Hnorm.
  destruct (mapM_wrapperOf_spec baseUris e1) as [Hext2 Hwrap].
  rewrite Hm2 in Hext2, Hwrap. cbn in Hext2, Hwrap.
  pose proof (covered_wrapped _ _ _ Hwrap) as Hcov1.
  assert (fext e2 e3
          ∧ covered baseUris e3 (length baseUris)
          ∧ truthy (fragmentRegistry (state e3) !! JSON_stringify baseUris)
            = Some top) as (Hext3 & Hcov & Htop).
  { destruct Hrest as [(Hone & -> & ->)|[HN Hrows]].
    - split_and!; [done|by rewrite Hl1, Hone|].
      destruct baseUris as [|b [|? ?]]; cbn in Hl1; try lia.
      apply Forall2_cons_inv_l in Hwrap as (w & ws & Hw & _ & ->). done.
    - destruct (ingestRows_spec baseUris e2 (default EmptyString (level1 !! 0)))
        as (? & ? & ?); [lia|done|].
      by rewrite Hrows in *. }
  exists baseUris, top, e3. split_and!; [done| |done| |done|done].
  - etrans; [exact Hext1|]. etrans; [apply Hext2|apply Hext3].
  - eapply Forall2_impl; [exact Hnorm|]. intros item u.
    apply normalized_ext. etrans; [apply Hext2|apply Hext3].
Qed.

Lemma covered_wrappers baseUris e :
  covered baseUris e 1 → ∃ wrappers, Forall2 (wrapped e) baseUris wrappers.
Proof.
  intros Hcov.
  assert (∀ b, b ∈ baseUris →
            is_Some (truthy (fragmentRegistry (state e) !! JSON_stringify [b])))
    as Hall.
  { intros b [i Hi]%list_elem_of_lookup.
    rewrite <- (slice_singleton baseUris i b Hi). apply Hcov; [done..|].
    apply lookup_lt_Some in Hi. lia. }
  clear Hcov. induction baseUris as [|b bs IH]; [by exists []|].
  destruct IH as [ws Hws]; [intros b' Hb'; apply Hall; by right|].
  destruct (Hall b) as [w Hw]; [by left|]. exists (w :: ws). by constructor.
Qed.

(** A sequence whose items and contiguous sub-sequences are all
    registered is ingested without any change to the store. *)
Lemma ingestSequence_known items baseUris e :
  items ≠ [] →
  Forall2 (normalized e) items baseUris →
  covered baseUris e (length baseUris) →
  ∃ top, ingestSequence items e = (Return top, notify e)
         ∧ truthy (fragmentRegistry (state e) !! JSON_stringify baseUris)
           = Some top.
Proof.
  intros Hne Hnorm Hcov.
  pose proof (Forall2_length _ _ _ Hnorm) as Hlen.
  assert (1 ≤ length baseUris) as Hpos.
  { rewrite <- Hlen. destruct items; [done|cbn; lia]. }
  assert (covered baseUris e 1) as Hcov1.
  { intros i l H1 H2 H3. apply Hcov; [done|lia|done]. }
  destruct (covered_wrappers baseUris e Hcov1) as [wrappers Hwrap].
  pose proof (Forall2_length _ _ _ Hwrap) as Hlenw.
  unfold ingestSequence. rewrite decide_False by lia.
  rewrite (mapM_normalizeItem_hit _ _ _ Hnorm).
  rewrite (mapM_wrapperOf_hit _ _ _ Hwrap).
  case_decide as Hone.
  - destruct baseUris as [|b [|? ?]]; cbn in Hlenw, Hone; try lia.
    apply Forall2_cons_inv_l in Hwrap as (w & ws & Hw & _ & ->).
    exists w. done.
  - pose proof (ingestRows_covered baseUris e
                  (default EmptyString (wrappers !! 0)) Hcov) as Hsame.
    destruct (ingestRows_spec baseUris e (default EmptyString (wrappers !! 0)))
      as (_ & _ & Htop); [lia|done|].
    destruct (ingestRows _ _ (e, _)) as [e4 top]; cbn in *. subst e4.
    by exists top.
Qed.

Lemma slice_slice {A} (xs : list A) i len i' len' :
  i' + len' ≤ len →
  slice (slice xs i (i + len)) i' (i' + len') = slice xs (i + i') (i + i' + len').
Proof.
  intros Hle. unfold slice.
  replace (i + len - i) with (i' + (len - i')) by lia.
  replace (i' + len' - i') with len' by lia.
  replace (i + i' + len' - (i + i')) with len' by lia.
  rewrite <- take_drop_commute, drop_drop, take_take. f_equal. lia.
Qed.

Lemma covered_slice baseUris e i len :
  i + len ≤ length baseUris →
  covered baseUris e (length baseUris) →
  covered (slice baseUris i (i + len)) e (length (slice baseUris i (i + len))).
Proof.
  intros Hle Hcov i' l' H1 H2 H3. rewrite slice_length in H2, H3 by done.
  rewrite slice_slice by lia. apply Hcov; lia.
Qed.

Lemma Forall2_slice {A B} (P : A → B → Prop) xs ys i j :
  Forall2 P xs ys → Forall2 P (slice xs i j) (slice ys i j).
Proof. intros H. unfold slice. by apply Forall2_take, Forall2_drop. Qed.

Lemma ext_ingestSequence items e : ext e (ingestSequence items e).2.
Proof.
  destruct (decide (items = [])) as [->|Hne]; [done|].
  destruct (ingestSequence_result items e Hne)
    as (baseUris & top & e3 & Hret & Hext & _).
  rewrite Hret. cbn. etrans; [exact Hext|apply ext_notify].
Qed.

(** X5. After [ingestSequence(items)] every contiguous sub-sequence of
    [items] is itself an ingested sequence: the fragment registry holds
    an identifier for it (under the key of the corresponding slice of
    what step 1 made of the items), ingesting it afterwards returns
    that identifier and changes neither the repository nor the
    registries, and mints nothing; only the closing notification is
    fired. *)
Theorem ingestSequence_subsequence_known (items : list Value)
    (e e' : PGSLEngine) top (i len : nat) :
  ingestSequence items e = (Return top, e') →
  1 ≤ len → i + len ≤ length items →
  ∃ baseUris sub,
    Forall2 (normalized e') items baseUris
    ∧ fragmentEntry e' (slice baseUris i (i + len)) = Some sub
    ∧ sub ≠ EmptyString
    ∧ ingestSequence (slice items i (i + len)) e' = (Return sub, notify e')
    ∧ state (notify e') = state e'
    ∧ drawn (notify e') = drawn e'
    ∧ (len = length items → sub = top).
Proof.
  intros Hfirst Hlen Hle.
  assert (items ≠ []) as Hne by (intros ->; cbn in Hle; lia).
  destruct (ingestSequence_result items e Hne)
    as (baseUris & top1 & e3 & Hret & Hext & Hl & Hnorm & Hcov & Htop).
  rewrite Hret in Hfirst. inversion Hfirst; subst top1 e'. clear Hfirst.
  assert (ext e3 (notify e3)) as Hn by apply ext_notify.
  assert (Forall2 (normalized (notify e3)) items baseUris) as Hnorm'.
  { eapply Forall2_impl; [exact Hnorm|]. intros item u. by apply normalized_ext. }
  destruct (ingestSequence_known (slice items i (i + len))
              (slice baseUris i (i + len)) (notify e3)) as (sub & Hsub & Hreg).
  - intros Hnil. apply (f_equal length) in Hnil.
    rewrite slice_length in Hnil by done. cbn in Hnil. lia.
  - by apply Forall2_slice.
  - apply covered_slice; [lia|]. by eapply covered_ext.
  - exists baseUris, sub. pose proof Hreg as [Hentry Hsub0]%truthy_Some.
    split_and!; [done|done|done|done|done|done|].
    intros ->. assert (i = 0) as -> by lia.
    rewrite <- Hl, slice_full in Hreg.
    change (state (notify e3)) with (state e3) in Hreg. congruence.
Qed.

(** X7. An identifier is never handed out twice.  Once a node of a
    reachable engine has left the repository, by [deleteNode] or by
    [reset], no later run of operations brings its identifier back: it
    resolves to no node, and neither [getCanonicalAtom] nor
    [ingestSequence] ever returns it, even when the same value or
    sequence is ingested again. *)
Theorem removed_identifier_never_returns (e : PGSLEngine) (uri : string)
    (node : Node) (ops later : list Op) :
  reachable e → getNode e uri = Own node →
  getNode (run ops e) uri = Undefined →
  getNode (run later (run ops e)) uri = Undefined
  ∧ (∀ value, (getCanonicalAtom value (run later (run ops e))).1 ≠ Str uri)
  ∧ (∀ items, (ingestSequence items (run later (run ops e))).1 ≠ Return uri).
Proof.
  intros He Hn%getNode_Own Hremoved.
  pose proof (wf_node_plain e uri node (reachable_wf e He) Hn) as Hplain.
  assert (gone uri (run later (run ops e))) as Hgone.
  { apply gone_run. split_and!.
    - by apply reachable_wf, reachable_run.
    - assert (∀ l e0, drawn e0 ≤ drawn (run l e0)) as Hdrawn.
      { induction l as [|op l IH]; intros e0; [done|]. cbn.
        etrans; [|apply IH]. destruct op; cbn; try done.
        - apply getCanonicalAtom_spec.
        - destruct (decide (items = [])) as [->|Hne]; [done|].
          destruct (ingestSequence_result items e0 Hne)
            as (? & ? & e3 & -> & Hext & _). apply Hext. }
      eapply spent_mono; [apply Hdrawn|].
      by apply (wf_node_spent e uri node); [apply reachable_wf|].
    - rewrite getNode_plain in Hremoved by done.
      by destruct (ownNode (run ops e) uri). }
  set (e' := run later (run ops e)) in *. split_and!.
  - destruct Hgone as (_ & _ & Habs). by rewrite getNode_plain, Habs.
  - intros value Heq.
    destruct (gone_getCanonicalAtom uri value e' Hgone) as (Hw & _ & Habs).
    destruct (getCanonicalAtom_spec value e') as (_ & Hk & _).
    rewrite Heq, atomEntry_entryOf in Hk. apply entryOf_Str in Hk as [Hk _].
    destruct (wf_atom_entry _ Hw _ _ Hk) as (_ & a & Ha & _). congruence.
  - intros items Heq.
    destruct (decide (items = [])) as [->|Hne]; [done|].
    destruct (gone_ingestSequence uri items e' Hgone) as (Hw & _ & Habs).
    destruct (ingestSequence_result items e' Hne)
      as (baseUris & top & e3 & Hret & _ & _ & _ & _ & [Htop _]%truthy_Some).
    rewrite Hret in *. cbn [fst snd] in *. inversion Heq; subst top.
    destruct (wf_frag_entry _ Hw _ _ Htop) as (f & Hf & _). congruence.
Qed.

(** *** Listeners *)

Definition quiet (listener : nat) (op : Op) : Prop :=
  op ≠ OpSubscribe listener.

(** Every operation only invokes listeners registered when it starts,
    and leaves the registrations as they are. *)
Definition heard (e e' : PGSLEngine) : Prop :=
  listeners e' = listeners e
  ∧ ∃ extra, calls e' = calls e ++ extra ∧ extra.*1 ⊆ listeners e.

Lemma heard_refl e : heard e e.
Proof.
  split; [done|]. exists []. split; [by rewrite app_nil_r|apply list_subseteq_nil].
Qed.

Lemma heard_trans e1 e2 e3 : heard e1 e2 → heard e2 e3 → heard e1 e3.
Proof.
  intros [Hl1 (x1 & Hc1 & Hs1)] [Hl2 (x2 & Hc2 & Hs2)]. split; [congruence|].
  exists (x1 ++ x2). rewrite Hc2, Hc1, <- app_assoc. split; [done|].
  rewrite Hl1 in Hs2. rewrite fmap_app. intros l [?|?]%elem_of_app; auto.
Qed.

Lemma heard_notify e : heard e (notify e).
Proof.
  split; [done|]. eexists. split; [done|].
  rewrite <- list_fmap_compose. cbn. by rewrite list_fmap_id.
Qed.

Lemma heard_same_calls e e' :
  listeners e' = listeners e → calls e' = calls e → heard e e'.
Proof.
  intros Hl Hc. split; [done|]. exists [].
  split; [by rewrite app_nil_r|apply list_subseteq_nil].
Qed.

Lemma heard_getCanonicalAtom value e : heard e (getCanonicalAtom value e).2.
Proof.
  destruct (atomEntry e (String_of value)) as [u|] eqn:Hk.
  - rewrite (getCanonicalAtom_hit _ _ _ Hk). apply heard_refl.
  - rewrite (getCanonicalAtom_miss _ _ Hk). split; [done|]. cbn.
    eexists. split; [done|].
    rewrite <- list_fmap_compose. cbn. by rewrite list_fmap_id.
Qed.

Lemma heard_getCanonicalFragment content constituents e :
  heard e (getCanonicalFragment content constituents e).2.
Proof.
  destruct (getCanonicalFragment_spec content constituents e)
    as [[[Hl _] [_ Hc]] _].
  by apply heard_same_calls.
Qed.

Lemma heard_ingestSequence items e : heard e (ingestSequence items e).2.
Proof.
  apply (ingestSequence_invariant (heard e) (λ _ _, True)).
  - done.
  - intros e0 H0. eapply heard_trans; [exact H0|apply heard_notify].
  - intros value e0 _ H0. split; [|done].
    eapply heard_trans; [exact H0|apply heard_getCanonicalAtom].
  - intros u e0 H0 _. eapply heard_trans; [exact H0|].
    apply heard_getCanonicalFragment.
  - intros content l r kl kr e0 H0 _ _ _ _. eapply heard_trans; [exact H0|].
    apply heard_getCanonicalFragment.
  - apply heard_refl.
  - by apply Forall_forall.
Qed.

(** The operations that neither add nor remove a registration. *)
Lemma heard_apply_op op e :
  match op with
  | OpSubscribe _ | OpUnsubscribe _ => True
  | _ => heard e (apply_op op e)
  end.
Proof.
  destruct op; cbn; [done|done| | | | |].
  - apply heard_getCanonicalAtom.
  - apply heard_ingestSequence.
  - apply (heard_notify (with_state e _)).
  - apply (heard_notify (with_state e _)).
  - by apply heard_same_calls.
Qed.

(** How one operation changes the registrations. *)
Lemma listeners_apply_op op e :
  listeners (apply_op op e)
  = match op with
    | OpSubscribe listener => listeners e ++ [listener]
    | OpUnsubscribe listener => filter (λ l, l ≠ listener) (listeners e)
    | _ => listeners e
    end.
Proof.
  pose proof (heard_apply_op op e) as H.
  destruct op; try done; by destruct H.
Qed.

(** [listener] is not registered and was not invoked since [before]. *)
Definition silent (listener : nat) (before : list (nat * PGSLState))
    (e : PGSLEngine) : Prop :=
  (listener ∉ listeners e)
  ∧ ∃ extra, calls e = before ++ extra ∧ listener ∉ extra.*1.

Lemma silent_apply_op listener op e before :
  quiet listener op →
  silent listener before e → silent listener before (apply_op op e).
Proof.
  intros Hq [Hl (x0 & Hc0 & Hx0)].
  assert (∀ e', heard e e' → silent listener before e') as Hheard.
  { intros e' [Hl' (x & Hc & Hs)]. split; [by rewrite Hl'|].
    exists (x0 ++ x). rewrite Hc, Hc0, <- app_assoc. split; [done|].
    rewrite fmap_app. intros [?|?]%elem_of_app; [done|]. apply Hl. by apply Hs. }
  pose proof (heard_apply_op op e) as Hop.
  destruct op; try (by apply Hheard).
  - split; [|by exists x0]. cbn.
    intros [?|Heq%list_elem_of_singleton]%elem_of_app; [done|].
    apply Hq. by rewrite Heq.
  - split; [|by exists x0]. cbn. by intros [_ ?]%list_elem_of_filter.
Qed.

Lemma silent_run listener ops e before :
  Forall (quiet listener) ops →
  silent listener before e → silent listener before (run ops e).
Proof.
  intros Hops. revert e.
  induction Hops as [|op ops Hop Hops IH]; intros e He; [done|].
  cbn. apply IH. by apply silent_apply_op.
Qed.

Lemma filter_filter_comm {A} (P Q : A → Prop)
    `{!∀ x, Decision (P x), !∀ x, Decision (Q x)} (l : list A) :
  filter P (filter Q l) = filter Q (filter P l).
Proof.
  rewrite !list_filter_filter. apply list_filter_iff. intros x. tauto.
Qed.

(** The registrations of the other listeners do not depend on whether
    [listener] was removed. *)
Lemma listeners_run_unsubscribe listener ops e e0 :
  Forall (quiet listener) ops →
  listeners e0 = filter (λ l, l ≠ listener) (listeners e) →
  listeners (run ops e0) = filter (λ l, l ≠ listener) (listeners (run ops e)).
Proof.
  intros Hops. revert e e0.
  induction Hops as [|op ops Hop Hops IH]; intros e e0 He; [done|].
  cbn. apply IH. rewrite !listeners_apply_op, He. destruct op; try done.
  - rewrite filter_app. f_equal. rewrite filter_cons_True; [done|].
    intros ->. by apply Hop.
  - apply filter_filter_comm.
Qed.

(** X8. The function returned by [subscribe] removes every registration
    of its listener; from then on no operation invokes that listener,
    until it is subscribed again.  The other listeners keep their
    registrations, in order: whatever operations follow, the list of
    registered listeners is the one the engine would have had without
    the call, with the occurrences of the removed listener left out. *)
Theorem unsubscribed_listener_stays_silent (e : PGSLEngine) (listener : nat)
    (ops : list Op) :
  Forall (quiet listener) ops →
  (listener ∉ listeners (run ops (unsubscribe listener e)))
  ∧ (∃ extra, calls (run ops (unsubscribe listener e)) = calls e ++ extra
              ∧ listener ∉ extra.*1)
  ∧ listeners (run ops (unsubscribe listener e))
    = filter (λ l, l ≠ listener) (listeners (run ops e)).
Proof.
  intros Hops.
  destruct (silent_run listener ops (unsubscribe listener e) (calls e) Hops)
    as [Hl Hc].
  { split.
    - cbn. by intros [? ?]%list_elem_of_filter.
    - exists []. cbn. split; [by rewrite app_nil_r|apply not_elem_of_nil]. }
  split_and!; [done|done|]. by apply listeners_run_unsubscribe.
Qed.

(** *** Rendering *)

Lemma resolveContentString_S fuel uri e :
  resolveContentString (S fuel) uri e =
  match getNode e (ref_key uri) with
  | Undefined => Some (Return "<?>")
  | Inherit _ => Some (Throw TypeError)
  | Own (Atom a) => Some (Return (String_of (rdf_value a)))
  | Own (Fragment f) =>
      match pgsl_content f with
      | [] => Some (Return "()")
      | [c] => resolveContentString fuel c e
      | content =>
          match mapOutcome (λ c, resolveContentString fuel c e) content with
          | Some (Return parts) => Some (Return ("(" +:+ join " " parts +:+ ")"))
          | Some (Throw ex) => Some (Throw ex)
          | None => None
          end
      end
  end.
Proof. done. Qed.

Lemma resolveDeepContent_S fuel id e :
  resolveDeepContent (S fuel) id e =
  match getNode e (ref_key id) with
  | Undefined =>
      match id with
      | Str s => Some (Return ("REF<" +:+ trailing_segment s +:+ ">"))
      | Member _ => Some (Throw TypeError)
      end
  | Inherit _ => Some (Throw TypeError)
  | Own (Atom a) => Some (Return (String_of (rdf_value a)))
  | Own (Fragment f) =>
      match mapOutcome (λ c, resolveDeepContent fuel c e) (pgsl_content f) with
      | Some (Return parts) =>
          Some (Return (if decide (1 < length (pgsl_content f))
                        then "(" +:+ join ", " parts +:+ ")"
                        else join ", " parts))
      | Some (Throw ex) => Some (Throw ex)
      | None => None
      end
  end.
Proof. done. Qed.

Lemma mapOutcome_Forall2 {A B} (f : A → option (completion B))
    (P : A → B → Prop) xs ys :
  (∀ x y, P x y → f x = Some (Return y)) → Forall2 P xs ys →
  mapOutcome f xs = Some (Return ys).
Proof.
  intros Hf. induction 1 as [|x y xs ys Hxy _ IH]; [done|].
  cbn. by rewrite (Hf x y Hxy), IH.
Qed.

(** What stands in the content of an ingested sequence for an item:
    the item itself when it is a reference; the identifier of the atom
    with the item's string form; or, when that string form names a
    property inherited from [Object.prototype], a member of
    [Object.prototype] with the same JSON text as the one it names. *)
Definition names_value (e : PGSLEngine) (item : Value) (r : Ref) : Prop :=
  if isURI (String_of item) then r = Str (String_of item)
  else if inherited (String_of item) then alike r (Member (String_of item))
  else ∃ uri a, r = Str uri ∧ getNode e uri = Own (Atom a)
                ∧ String_of (rdf_value a) = String_of item.

Lemma normalized_names_value e item r b :
  wf e → normalized e item b → alike r b → names_value e item r.
Proof.
  intros He. unfold normalized, names_value.
  destruct (isURI (String_of item)); [by intros -> ->%alike_Str|].
  rewrite wf_atomEntry by done.
  destruct (atomRegistry (state e) !! String_of item) as [uri|] eqn:Hk.
  - destruct (wf_atom_entry e He _ _ Hk) as (-> & a & Ha & Hv).
    intros [= <-] ->%alike_Str. exists uri, a.
    split_and!; [done|by apply getNode_Own|done].
  - destruct (inherited (String_of item)); [|done]. by intros [= <-].
Qed.

(** The top fragment of an ingested sequence and its content. *)
Lemma ingestSequence_top items e :
  wf e → items ≠ [] →
  ∃ top f,
    (ingestSequence items e).1 = Return top
    ∧ ownNode (ingestSequence items e).2 top = Some (Fragment f)
    ∧ fragmentEntry (ingestSequence items e).2 (pgsl_content f) = Some top
    ∧ length (pgsl_content f) = length items
    ∧ Forall2 (names_value (ingestSequence items e).2) items (pgsl_content f).
Proof.
  intros He Hne.
  pose proof (wf_ingestSequence items e He) as Hw.
  destruct (ingestSequence_result items e Hne)
    as (baseUris & top & e3 & Hret & Hext & Hl & Hnorm & Hcov & Htop).
  rewrite Hret in *. cbn [fst snd] in *.
  apply truthy_Some in Htop as [Htop _].
  destruct (wf_frag_entry _ Hw _ _ Htop) as (f & Hf & Hkey).
  pose proof (JSON_stringify_alike _ _ Hkey) as Halike.
  exists top, f. split_and!; [done|done| | |].
  - unfold fragmentEntry. by rewrite Hkey.
  - by rewrite (Forall2_length _ _ _ Halike).
  - apply Forall2_same_length_lookup. split.
    { by rewrite (Forall2_length _ _ _ Halike). }
    intros i item r Hi Hr.
    destruct (Forall2_lookup_l _ _ _ _ _ Halike Hr) as (b & Hb & Hrb).
    apply (normalized_names_value _ item r b); [done| |done].
    apply (normalized_ext e3); [apply ext_notify|].
    by eapply Forall2_lookup_lr.
Qed.

(** X6. In a reachable engine [ingestSequence] on a non-empty input
    returns the identifier of a fragment of the repository whose content
    has one entry per item, in order: the item itself when it is a
    reference, otherwise the identifier of the atom whose value has the
    item's string form (for a string form that names a property
    inherited from [Object.prototype] no atom exists and the entry is a
    member of [Object.prototype]).  The fragment is registered under
    that content, its level is the number of items, and its
    constituents are null exactly for a single item. *)
Theorem ingestSequence_returns_whole_sequence (items : list Value)
    (e : PGSLEngine) :
  reachable e → items ≠ [] →
  ∃ top f,
    (ingestSequence items e).1 = Return top
    ∧ getNode (ingestSequence items e).2 top = Own (Fragment f)
    ∧ fragmentEntry (ingestSequence items e).2 (pgsl_content f) = Some top
    ∧ Forall2 (names_value (ingestSequence items e).2) items (pgsl_content f)
    ∧ pgsl_level f = length items
    ∧ (pgsl_constituents f = None ↔ length items = 1).
Proof.
  intros He%reachable_wf Hne.
  pose proof (wf_ingestSequence items e He) as Hw.
  destruct (ingestSequence_top items e He Hne)
    as (top & f & Hret & Hf & Hreg & Hlen & Hnames).
  destruct (wf_shape _ Hw _ _ Hf) as (Hlevel & _ & _ & Hshape).
  exists top, f.
  split_and!; [done|by apply getNode_Own|done|done|congruence|].
  rewrite Hlen in Hshape.
  destruct (pgsl_constituents f) as [[l r]|]; [|done].
  split; [done|]. lia.
Qed.

Lemma names_value_raw e items content :
  Forall (λ item, isURI (String_of item) = false) items →
  Forall (λ item, inherited (String_of item) = false) items →
  Forall2 (names_value e) items content →
  Forall2 (λ c s, ∃ uri a, c = Str uri ∧ getNode e uri = Own (Atom a)
                           ∧ String_of (rdf_value a) = s)
    content (String_of <$> items).
Proof.
  intros Hraw Hown Hnames.
  induction Hnames as [|item c items content Hc _ IH]; [constructor|].
  apply Forall_cons in Hraw as [Hitem Hraw].
  apply Forall_cons in Hown as [Hitem' Hown].
  cbn. constructor; [|by apply IH].
  unfold names_value in Hc. by rewrite Hitem, Hitem' in Hc.
Qed.

(** X9. Ingesting raw values, none of whose string forms names a
    property inherited from [Object.prototype], and resolving the
    returned identifier gives the values back, in order:
    [resolveContentString] renders a sequence of two or more values as
    their string forms separated by single spaces inside one pair of
    parentheses, and a single value as its string form alone. *)
Theorem resolveContentString_of_ingested_values (items : list Value)
    (e : PGSLEngine) (fuel : nat) :
  reachable e → items ≠ [] →
  Forall (λ item, isURI (String_of item) = false) items →
  Forall (λ item, inherited (String_of item) = false) items →
  2 ≤ fuel →
  ∃ top,
    (ingestSequence items e).1 = Return top
    ∧ resolveContentString fuel (Str top) (ingestSequence items e).2
      = Some (Return (if decide (length items = 1)
                      then join " " (String_of <$> items)
                      else "(" +:+ join " " (String_of <$> items) +:+ ")")).
Proof.
  intros He%reachable_wf Hne Hraw Hown Hfuel.
  destruct (ingestSequence_top items e He Hne)
    as (top & f & Hret & Hf%getNode_ownNode & _ & Hlen & Hnames).
  exists top. split; [done|].
  pose proof (names_value_raw _ _ _ Hraw Hown Hnames) as Hatoms.
  destruct fuel as [|[|fuel]]; [lia|lia|].
  assert (mapOutcome
            (λ c, resolveContentString (S fuel) c (ingestSequence items e).2)
            (pgsl_content f) = Some (Return (String_of <$> items))) as Hparts.
  { eapply mapOutcome_Forall2; [|exact Hatoms].
    intros c s (uri & a & -> & Ha & <-).
    rewrite resolveContentString_S. cbn. by rewrite Ha. }
  rewrite resolveContentString_S. cbn [ref_key]. rewrite Hf.
  destruct (pgsl_content f) as [|c [|c' content]] eqn:Hcontent.
  - destruct items; [done|cbn in Hlen; lia].
  - destruct items as [|item [|? ?]]; cbn in Hlen; try lia.
    rewrite decide_True by done.
    apply Forall2_cons_1 in Hatoms as [(uri & a & -> & Ha & Hv) _].
    rewrite resolveContentString_S. cbn. by rewrite Ha, Hv.
  - rewrite Hparts. rewrite decide_False; [done|]. cbn in Hlen. lia.
Qed.

(** X10. The Inspector renders the same sequence with its own helper
    [resolveDeepContent]: the string forms of the values separated by a
    comma and a space, inside parentheses only when there are two or
    more. *)
Theorem resolveDeepContent_of_ingested_values (items : list Value)
    (e : PGSLEngine) (fuel : nat) :
  reachable e → items ≠ [] →
  Forall (λ item, isURI (String_of item) = false) items →
  Forall (λ item, inherited (String_of item) = false) items →
  2 ≤ fuel →
  ∃ top,
    (ingestSequence items e).1 = Return top
    ∧ resolveDeepContent fuel (Str top) (ingestSequence items e).2
      = Some (Return (if decide (length items = 1)
                      then join ", " (String_of <$> items)
                      else "(" +:+ join ", " (String_of <$> items) +:+ ")")).
Proof.
  intros He%reachable_wf Hne Hraw Hown Hfuel.
  destruct (ingestSequence_top items e He Hne)
    as (top & f & Hret & Hf%getNode_ownNode & _ & Hlen & Hnames).
  exists top. split; [done|].
  pose proof (names_value_raw _ _ _ Hraw Hown Hnames) as Hatoms.
  destruct fuel as [|[|fuel]]; [lia|lia|].
  assert (mapOutcome
            (λ c, resolveDeepContent (S fuel) c (ingestSequence items e).2)
            (pgsl_content f) = Some (Return (String_of <$> items))) as Hparts.
  { eapply mapOutcome_Forall2; [|exact Hatoms].
    intros c s (uri & a & -> & Ha & <-).
    rewrite resolveDeepContent_S. cbn. by rewrite Ha. }
  rewrite resolveDeepContent_S. cbn [ref_key]. rewrite Hf, Hparts, Hlen.
  destruct (decide (length items = 1)) as [Hone|Hmore].
  - rewrite decide_False; [done|lia].
  - rewrite decide_True; [done|]. destruct items; [done|cbn in *; lia].
Qed.

Lemma deep_ends_below e :
  sound e → ∀ k id,
  born_before e k (ref_key id) →
  ∃ outcome, ∀ fuel, k < fuel → resolveDeepContent fuel id e = Some outcome.
Proof.
  intros He. induction k as [|k IH]; intros id Hborn.
  - destruct (getNode e (ref_key id)) as [node|key|] eqn:Hn.
    { apply getNode_Own in Hn. destruct (Hborn node Hn) as (? & ? & _). lia. }
    all: destruct id; eexists; (intros [|fuel] Hfuel; [lia|]);
      rewrite resolveDeepContent_S, Hn; done.
  - destruct (getNode e (ref_key id)) as [[a|f]|key|] eqn:Hn.
    + eexists. intros [|fuel] Hfuel; [lia|].
      by rewrite resolveDeepContent_S, Hn.
    + apply getNode_Own in Hn as Hown.
      destruct (Hborn _ Hown) as (k' & Hk' & Hid).
      destruct (mapOutcome_total (λ fuel c, resolveDeepContent fuel c e)
                  (pgsl_content f) k) as [parts Hparts].
      { intros c Hc. apply IH. intros node' Hn'.
        destruct (content_born_before e _ f k' c He Hown Hid Hc node' Hn')
          as (k'' & ? & ?).
        exists k''. split; [lia|done]. }
      destruct parts as [parts|ex]; eexists; (intros [|fuel] Hfuel; [lia|]);
        rewrite resolveDeepContent_S, Hn; rewrite Hparts by lia; done.
    + eexists. intros [|fuel] Hfuel; [lia|].
      by rewrite resolveDeepContent_S, Hn.
    + destruct id; eexists; (intros [|fuel] Hfuel; [lia|]);
        by rewrite resolveDeepContent_S, Hn.
Qed.

(** X11. The Inspector's [resolveDeepContent] ends for every
    identifier, in every engine reached without references to
    identifiers still to be minted: with enough fuel the recursion
    reaches one outcome, a returned string or a raised exception.  For
    an identifier that resolves to no node the outcome is the string
    [REF<...>] around the part of the identifier after its last slash,
    for the identifier of an atom the string form of its value. *)
Theorem resolveDeepContent_total (e : PGSLEngine) (id : string) :
  reachable_by honest e →
  ∃ outcome,
    (∀ fuel, drawn e < fuel → resolveDeepContent fuel (Str id) e = Some outcome)
    ∧ (getNode e id = Undefined →
       outcome = Return ("REF<" +:+ trailing_segment id +:+ ">"))
    ∧ (∀ a, getNode e id = Own (Atom a) →
       outcome = Return (String_of (rdf_value a))).
Proof.
  intros He%reachable_sound.
  destruct (deep_ends_below e He (drawn e) (Str id)) as [outcome Hs].
  { intros node Hn. destruct He as [_ [Hh _]]. by apply Hh. }
  exists outcome. split; [done|].
  specialize (Hs (S (drawn e)) (Nat.lt_succ_diag_r _)).
  rewrite resolveDeepContent_S in Hs. cbn [ref_key] in Hs.
  split.
  - intros Hn. rewrite Hn in Hs. by inversion Hs.
  - intros a Hn. rewrite Hn in Hs. by inversion Hs.
Qed.

(** *** Identifiers used as references *)

Lemma startsWith_app p s t :
  startsWith p s = true → startsWith p (s +:+ t) = true.
Proof.
  revert s. induction p as [|a p IH]; intros [|b s]; cbn; try done.
  case_decide; [apply IH|done].
Qed.

Lemma str_includes_app p s t :
  str_includes p s = true → str_includes p (s +:+ t) = true.
Proof.
  induction s as [|b s IH]; cbn.
  - destruct p; [|done]. intros _. by destruct t.
  - intros [H|H]%orb_prop; apply orb_true_intro.
    + left. by apply (startsWith_app p (String b s) t).
    + right. by apply IH.
Qed.

Lemma isURI_mint_name auth type k :
  isURI auth = true → isURI (mint_name auth type k) = true.
Proof.
  unfold isURI, mint_name. intros [H|H]%orb_prop; apply orb_true_intro.
  - left. by apply str_includes_app.
  - right. by apply startsWith_app.
Qed.

Lemma names_value_refs e uris content :
  Forall (λ uri, isURI uri = true) uris →
  Forall2 (names_value e) (VString <$> uris) content → content = Str <$> uris.
Proof.
  revert content. induction uris as [|uri uris IH]; intros content Huris Hnames.
  - by apply Forall2_nil_inv_l in Hnames.
  - apply Forall_cons in Huris as [Huri Huris]. cbn in Hnames.
    apply Forall2_cons_inv_l in Hnames as (c & cs & Hc & Hcs & ->).
    unfold names_value in Hc. cbn in Hc. rewrite Huri in Hc.
    rewrite Hc. cbn. f_equal. by apply IH.
Qed.

(** X12. URI-shaped strings (those that contain [://] or start with
    [did:]) are ingested by reference: in a reachable engine a sequence
    of them creates no atom, the atom registry is left as it is, and
    the returned fragment has exactly these strings as its content.
    An identifier minted while the authority is URI-shaped, as the
    default one is, is such a string. *)
Theorem identifiers_ingested_by_reference (e : PGSLEngine) (uris : list string) :
  reachable e → uris ≠ [] →
  Forall (λ uri, isURI uri = true) uris →
  atomRegistry (state (ingestSequence (VString <$> uris) e).2)
  = atomRegistry (state e)
  ∧ (∃ top f, (ingestSequence (VString <$> uris) e).1 = Return top
              ∧ getNode (ingestSequence (VString <$> uris) e).2 top
                = Own (Fragment f)
              ∧ pgsl_content f = Str <$> uris)
  ∧ (isURI (authority e) = true → ∀ type, isURI (mintURI type e).1 = true).
Proof.
  intros He%reachable_wf Hne Huris.
  assert (VString <$> uris ≠ []) as Hne' by (by destruct uris).
  assert (∀ e', Forall2 (normalized e') (VString <$> uris) (Str <$> uris))
    as Hnorm.
  { intros e'. apply Forall2_fmap, Forall_Forall2_diag.
    eapply Forall_impl; [exact Huris|]. intros uri Huri.
    unfold normalized. cbn. by rewrite Huri. }
  split_and!.
  - destruct (ingestSequence_run (VString <$> uris) e Hne')
      as (baseUris & e1 & e3 & top & Hret & Hm & _ & (_ & Hatoms & _) & _).
    rewrite (mapM_normalizeItem_hit _ _ _ (Hnorm e)) in Hm.
    inversion Hm; subst baseUris e1. by rewrite Hret.
  - destruct (ingestSequence_top (VString <$> uris) e He Hne')
      as (top & f & Hret & Hf & _ & Hlen & Hnames).
    exists top, f. split_and!; [done|by apply getNode_Own|].
    by apply (names_value_refs _ _ _ Huris Hnames).
  - intros Hauth type. by apply isURI_mint_name.
Qed.

(** *** Constituents, without deletion

    [ingestSequence] builds a fragment of two or more items from the
    registered fragments of its content without the last item and
    without the first one.  As long as nothing is deleted these stay the
    registered ones. *)

Definition no_delete (e : PGSLEngine) (op : Op) : Prop :=
  match op with
  | OpDeleteNode _ => False
  | _ => True
  end.

Definition linked (e : PGSLEngine) : Prop :=
  ∀ uri f l r, ownNode e uri = Some (Fragment f) →
    pgsl_constituents f = Some (l, r) →
    fragmentEntry e (take (length (pgsl_content f) - 1) (pgsl_content f))
      = Some l
    ∧ fragmentEntry e (drop 1 (pgsl_content f)) = Some r.

Lemma linked_same_fragments e e' :
  (∀ uri f, ownNode e' uri = Some (Fragment f) → ownNode e uri = Some (Fragment f)) →
  (∀ key uri, fragmentRegistry (state e) !! key = Some uri →
     fragmentRegistry (state e') !! key = Some uri) →
  linked e → linked e'.
Proof.
  intros Hnodes Hreg Hlinked uri f l r Hf Hcs.
  destruct (Hlinked uri f l r (Hnodes _ _ Hf) Hcs) as [Hl Hr].
  split; by apply Hreg.
Qed.

Lemma linked_getCanonicalAtom value e :
  linked e → linked (getCanonicalAtom value e).2.
Proof.
  intros Hlinked.
  destruct (atomEntry e (String_of value)) as [u|] eqn:Hk.
  - by rewrite (getCanonicalAtom_hit _ _ _ Hk).
  - rewrite (getCanonicalAtom_miss _ _ Hk).
    apply (linked_same_fragments e); [|done|done].
    intros uri f. unfold ownNode, stateWithAtom. cbn. rewrite obj_get_set.
    by case_decide.
Qed.

Lemma linked_getCanonicalFragment content constituents e :
  wf e →
  match constituents with
  | None => True
  | Some (l, r) =>
      2 ≤ length content
      ∧ truthy (fragmentRegistry (state e)
                  !! JSON_stringify (take (length content - 1) content))
        = Some l
      ∧ truthy (fragmentRegistry (state e) !! JSON_stringify (drop 1 content))
        = Some r
  end →
  linked e → linked (getCanonicalFragment content constituents e).2.
Proof.
  intros He Hcall Hlinked.
  destruct (truthy (fragmentRegistry (state e) !! JSON_stringify content))
    as [u|] eqn:Hk.
  { by rewrite (getCanonicalFragment_hit _ _ _ _ Hk). }
  rewrite (getCanonicalFragment_miss _ _ _ Hk).
  rewrite wf_frag_truthy in Hk by done.
  assert (∀ key uri, fragmentRegistry (state e) !! key = Some uri →
            <[JSON_stringify content := mint_name (authority e) "fragments" (drawn e)]>
              (fragmentRegistry (state e)) !! key = Some uri) as Hreg.
  { intros key uri Hkey. rewrite lookup_insert_ne; [done|]. congruence. }
  intros uri f l r. unfold ownNode, fragmentEntry. cbn. rewrite obj_get_set.
  case_decide as Hnew.
  - intros [= <-]. cbn. intros ->. destruct Hcall as (Hlen & Hl & Hr).
    apply truthy_Some in Hl as [Hl _]. apply truthy_Some in Hr as [Hr _].
    split; by apply Hreg.
  - intros Hf Hcs. destruct (Hlinked uri f l r Hf Hcs) as [Hl Hr].
    split; by apply Hreg.
Qed.

Lemma linked_ingestSequence items e :
  wf e ∧ linked e →
  wf (ingestSequence items e).2 ∧ linked (ingestSequence items e).2.
Proof.
  intros He.
  apply (ingestSequence_invariant_links (λ e, wf e ∧ linked e) (λ _ r, legit r)).
  - done.
  - intros e0 [? ?]. split; [by apply wf_notify|done].
  - intros value e0 _ [Hw Hl].
    pose proof (wf_getCanonicalAtom value e0 Hw) as Hw1.
    split; [split; [done|by apply linked_getCanonicalAtom]|].
    eapply legit_atomEntry; [done|]. apply getCanonicalAtom_spec.
  - intros u e0 [Hw Hl] Hu. split.
    + apply wf_getCanonicalFragment; [|done]. split; [by constructor|done].
    + by apply linked_getCanonicalFragment.
  - intros content l r e0 [Hw Hlk] Hc Hlen Hl Hr. split.
    + apply wf_getCanonicalFragment; [|done]. by eapply fragment_call_composite.
    + by apply linked_getCanonicalFragment.
  - done.
  - apply Forall_forall. intros item _ Huri. by apply isURI_plain.
Qed.

Lemma linked_empty ls auth ag d cs : linked (mkEngine emptyState ls auth ag d cs).
Proof. by intros uri f l r. Qed.

Lemma reachable_linked e : reachable_by no_delete e → wf e ∧ linked e.
Proof.
  induction 1 as [auth ag|e op _ IH Hop].
  - split; [apply wf_empty|apply linked_empty].
  - destruct IH as [Hw Hl]. destruct op; cbn in *.
    + split; [by apply wf_subscribe|done].
    + split; [by apply (wf_same_state e)|done].
    + split; [by apply wf_getCanonicalAtom|by apply linked_getCanonicalAtom].
    + by apply linked_ingestSequence.
    + done.
    + split; [apply wf_reset|apply linked_empty].
    + split; [by apply wf_setFederationConfig|done].
Qed.

(** A registered identifier has one registry key. *)
Lemma wf_frag_key e key key' uri :
  wf e →
  fragmentRegistry (state e) !! key = Some uri →
  fragmentRegistry (state e) !! key' = Some uri → key = key'.
Proof.
  intros He Hk Hk'.
  destruct (wf_frag_entry e He _ _ Hk) as (f & Hf & <-).
  destruct (wf_frag_entry e He _ _ Hk') as (f' & Hf' & <-). congruence.
Qed.

Lemma alike_JSON_stringify l1 l2 :
  Forall2 alike l1 l2 → JSON_stringify l1 = JSON_stringify l2.
Proof.
  intros H. unfold JSON_stringify.
  assert (ref_json <$> l1 = ref_json <$> l2) as ->; [|done].
  induction H as [|x y l1 l2 Hxy _ IH]; [done|]. cbn. by rewrite Hxy, IH.
Qed.

(** The wrapper registered for [c] is demoted to its one content
    entry, which has the JSON text of [c] and is [c] itself when [c] is
    a string. *)
Lemma demoteToAtom_wrapper e c w :
  wf e → fragmentEntry e [c] = Some w →
  ∃ c', demoteToAtom w e = Return c' ∧ alike c' c.
Proof.
  intros He Hw. unfold fragmentEntry in Hw.
  destruct (wf_frag_entry e He _ _ Hw) as (f & Hf & Hkey).
  apply JSON_stringify_alike in Hkey.
  destruct (wf_shape e He _ _ Hf) as (Hlevel & _).
  apply Forall2_cons_inv_r in Hkey as (c' & rest & Hc & ->%Forall2_nil_inv_r & Hcontent).
  exists c'. split; [|done].
  unfold demoteToAtom. rewrite (getNode_ownNode _ _ _ Hf). cbn.
  rewrite decide_True by (by rewrite Hlevel, Hcontent). by rewrite Hcontent.
Qed.

Lemma promoteToStructural_atom e x a :
  wf e → getNode e x = Own (Atom a) →
  promoteToStructural x e = Return (default x (getFragmentUri e [x])).
Proof.
  intros He Hx. unfold promoteToStructural. rewrite Hx. cbn.
  unfold getFragmentUri, fragmentEntry. rewrite wf_frag_truthy by done.
  by destruct (fragmentRegistry (state e) !! JSON_stringify (Str <$> [x])).
Qed.

(** The fragments whose left constituent is the promoted atom [x] are
    the pairs that start with [x]. *)
Lemma linked_left_of_atom e x a uri g c0 c1 :
  wf e → linked e → getNode e x = Own (Atom a) →
  ownNode e uri = Some (Fragment g) →
  pgsl_constituents g = Some (c0, c1) →
  promoteToStructural x e = Return c0 →
  ∃ c, pgsl_content g = [Str x; c] ∧ fragmentEntry e [c] = Some c1
       ∧ getFragmentUri e [x] = Some c0.
Proof.
  intros He Hlinked Hx Hg Hcs Hc0.
  destruct (Hlinked uri g c0 c1 Hg Hcs) as [Hl Hr].
  destruct (wf_shape e He _ _ Hg) as (_ & _ & _ & Hshape). rewrite Hcs in Hshape.
  destruct Hshape as (Hlen & _ & _).
  rewrite (promoteToStructural_atom e x a He Hx) in Hc0.
  destruct (getFragmentUri e [x]) as [w|] eqn:Hw; cbn in Hc0;
    inversion Hc0; subst c0.
  - pose proof (wf_frag_key e _ _ _ He Hl Hw) as Hkey.
    apply JSON_stringify_inj in Hkey; [|apply plain_Str].
    destruct (pgsl_content g) as [|y [|c [|? ?]]]; cbn in *; try lia;
      try discriminate.
    inversion Hkey; subst y. by exists c.
  - unfold fragmentEntry in Hl.
    destruct (wf_frag_entry e He _ _ Hl) as (f & Hf & _).
    apply getNode_Own in Hx. congruence.
Qed.

Lemma linked_right_of_atom e x a uri g c0 c1 :
  wf e → linked e → getNode e x = Own (Atom a) →
  ownNode e uri = Some (Fragment g) →
  pgsl_constituents g = Some (c0, c1) →
  promoteToStructural x e = Return c1 →
  ∃ c, pgsl_content g = [c; Str x] ∧ fragmentEntry e [c] = Some c0
       ∧ getFragmentUri e [x] = Some c1.
Proof.
  intros He Hlinked Hx Hg Hcs Hc1.
  destruct (Hlinked uri g c0 c1 Hg Hcs) as [Hl Hr].
  destruct (wf_shape e He _ _ Hg) as (_ & _ & _ & Hshape). rewrite Hcs in Hshape.
  destruct Hshape as (Hlen & _ & _).
  rewrite (promoteToStructural_atom e x a He Hx) in Hc1.
  destruct (getFragmentUri e [x]) as [w|] eqn:Hw; cbn in Hc1;
    inversion Hc1; subst c1.
  - pose proof (wf_frag_key e _ _ _ He Hr Hw) as Hkey.
    apply JSON_stringify_inj in Hkey; [|apply plain_Str].
    destruct (pgsl_content g) as [|c [|y [|? ?]]]; cbn in *; try lia;
      try discriminate.
    inversion Hkey; subst y. by exists c.
  - unfold fragmentEntry in Hr.
    destruct (wf_frag_entry e He _ _ Hr) as (f & Hf & _).
    apply getNode_Own in Hx. congruence.
Qed.

(** The constituents of a registered pair are the two wrappers. *)
Lemma linked_pair e (x y : string) p :
  wf e → linked e → getFragmentUri e [x; y] = Some p →
  ∃ g l r, ownNode e p = Some (Fragment g)
           ∧ pgsl_content g = [Str x; Str y]
           ∧ pgsl_constituents g = Some (l, r)
           ∧ getFragmentUri e [x] = Some l ∧ getFragmentUri e [y] = Some r.
Proof.
  intros He Hlinked Hp. unfold getFragmentUri, fragmentEntry in Hp.
  destruct (wf_frag_entry e He _ _ Hp) as (g & Hg & Hkey).
  apply JSON_stringify_inj in Hkey; [|apply plain_Str]. cbn in Hkey.
  destruct (wf_shape e He _ _ Hg) as (_ & _ & _ & Hshape). rewrite Hkey in Hshape.
  destruct (pgsl_constituents g) as [[l r]|] eqn:Hcs; [|cbn in Hshape; lia].
  destruct (Hlinked p g l r Hg Hcs) as [Hl Hr]. rewrite Hkey in Hl, Hr.
  exists g, l, r. by split_and!.
Qed.

Lemma getAllNodes_elem e uri node :
  ownNode e uri = Some node → node ∈ getAllNodes e.
Proof.
  intros Hn. apply list_elem_of_fmap. exists (uri, node). split; [done|].
  by apply obj_get_Some_elem.
Qed.

Lemma neighbours_of_atom e x a :
  wf e → linked e → getNode e x = Own (Atom a) →
  ∃ rightOf leftOf,
    findNeighbors x right e = Return rightOf
    ∧ findNeighbors x left e = Return leftOf
    ∧ (∀ c p, mkNeighbor c p ∈ rightOf → fragmentEntry e [Str x; c] = Some p)
    ∧ (∀ c p, getFragmentUri e [x; c] = Some p → mkNeighbor (Str c) p ∈ rightOf)
    ∧ (∀ c p, mkNeighbor c p ∈ leftOf → fragmentEntry e [c; Str x] = Some p)
    ∧ (∀ c p, getFragmentUri e [c; x] = Some p → mkNeighbor (Str c) p ∈ leftOf).
Proof.
  intros He Hlinked Hx.
  pose proof (promoteToStructural_atom e x a He Hx) as Ht.
  set (t := default x (getFragmentUri e [x])) in *.
  eexists _, _.
  split; [by apply (findNeighbors_returns x right e t)|].
  split; [by apply (findNeighbors_returns x left e t)|].
  split_and!.
  - intros c p (node & Hin & Hvia)%elem_of_found_by.
    pose proof (getAllNodes_ownNode e node He Hin) as Hnode.
    unfold neighborVia in Hvia. destruct node as [?|g]; [done|]. cbn in Hvia.
    destruct (pgsl_constituents g) as [[c0 c1]|] eqn:Hcs; [|done].
    case_decide as Hc0; [|done]. subst c0.
    destruct (truthy (Some c1)) as [raw|] eqn:Hraw; [|done].
    apply truthy_Some in Hraw as [[= <-] _].
    destruct (linked_left_of_atom e x a _ g t c1 He Hlinked Hx Hnode Hcs Ht)
      as (c' & Hcontent & Hc1 & _).
    destruct (demoteToAtom_wrapper e c' c1 He Hc1) as (d & Hd & Hdc).
    rewrite Hd in Hvia. cbn in Hvia. inversion Hvia; subst c p.
    pose proof (wf_frag_node e He _ _ Hnode) as Hreg.
    rewrite Hcontent in Hreg. unfold fragmentEntry.
    rewrite (alike_JSON_stringify _ [Str x; c']); [done|].
    by repeat constructor.
  - intros c p Hp.
    destruct (linked_pair e x c p He Hlinked Hp)
      as (g & l & r & Hg & Hcontent & Hcs & Hl & Hr).
    apply elem_of_found_by. exists (Fragment g).
    split; [by eapply getAllNodes_elem|].
    unfold neighborVia. rewrite includes_FRAGMENT.
    cbn [constituents_of node_id]. rewrite Hcs.
    unfold t. rewrite Hl. cbn [default].
    rewrite decide_True by done.
    destruct (wf_shape e He _ _ Hg) as (_ & _ & _ & Hs). rewrite Hcs in Hs.
    destruct Hs as (_ & _ & [Hr0 _]).
    rewrite (truthy_is_Some _ r) by done.
    destruct (demoteToAtom_wrapper e (Str c) r He Hr) as (d & Hd & ->%alike_Str).
    rewrite Hd. cbn.
    destruct (wf_minted e He _ _ Hg) as [Hid _]. cbn in Hid. by rewrite Hid.
  - intros c p (node & Hin & Hvia)%elem_of_found_by.
    pose proof (getAllNodes_ownNode e node He Hin) as Hnode.
    unfold neighborVia in Hvia. destruct node as [?|g]; [done|]. cbn in Hvia.
    destruct (pgsl_constituents g) as [[c0 c1]|] eqn:Hcs; [|done].
    case_decide as Hc1; [|done]. subst c1.
    destruct (truthy (Some c0)) as [raw|] eqn:Hraw; [|done].
    apply truthy_Some in Hraw as [[= <-] _].
    destruct (linked_right_of_atom e x a _ g c0 t He Hlinked Hx Hnode Hcs Ht)
      as (c' & Hcontent & Hc0 & _).
    destruct (demoteToAtom_wrapper e c' c0 He Hc0) as (d & Hd & Hdc).
    rewrite Hd in Hvia. cbn in Hvia. inversion Hvia; subst c p.
    pose proof (wf_frag_node e He _ _ Hnode) as Hreg.
    rewrite Hcontent in Hreg. unfold fragmentEntry.
    rewrite (alike_JSON_stringify _ [c'; Str x]); [done|].
    by repeat constructor.
  - intros c p Hp.
    destruct (linked_pair e c x p He Hlinked Hp)
      as (g & l & r & Hg & Hcontent & Hcs & Hl & Hr).
    apply elem_of_found_by. exists (Fragment g).
    split; [by eapply getAllNodes_elem|].
    unfold neighborVia. rewrite includes_FRAGMENT.
    cbn [constituents_of node_id]. rewrite Hcs.
    unfold t. rewrite Hr. cbn [default].
    rewrite decide_True by done.
    destruct (wf_shape e He _ _ Hg) as (_ & _ & _ & Hs). rewrite Hcs in Hs.
    destruct Hs as (_ & [Hl0 _] & _).
    rewrite (truthy_is_Some _ l) by done.
    destruct (demoteToAtom_wrapper e (Str c) l He Hl) as (d & Hd & ->%alike_Str).
    rewrite Hd. cbn.
    destruct (wf_minted e He _ _ Hg) as [Hid _]. cbn in Hid. by rewrite Hid.
Qed.

Lemma parent_of_atoms e x y a b :
  wf e → linked e →
  getNode e x = Own (Atom a) → getNode e y = Own (Atom b) →
  findParentNode x y e = Return (getFragmentUri e [x; y]).
Proof.
  intros He Hlinked Hx Hy. unfold findParentNode.
  pose proof (promoteToStructural_atom e x a He Hx) as Htx.
  pose proof (promoteToStructural_atom e y b He Hy) as Hty.
  rewrite Htx, Hty. cbn [bind]. f_equal.
  set (tx := default x (getFragmentUri e [x])) in *.
  set (ty := default y (getFragmentUri e [y])) in *.
  set (found := λ node : Node,
         includes NodeType_FRAGMENT (node_type node) &&
         match constituents_of node with
         | Some (c0, c1) => bool_decide (c0 = tx) && bool_decide (c1 = ty)
         | None => false
         end).
  assert (∀ node, node ∈ getAllNodes e → found node = true →
            getFragmentUri e [x; y] = Some (node_id node)) as Hfound.
  { intros node Hin Hnode.
    pose proof (getAllNodes_ownNode e node He Hin) as Hget.
    unfold found in Hnode. destruct node as [?|g]; [done|]. cbn in Hnode.
    destruct (pgsl_constituents g) as [[c0 c1]|] eqn:Hcs; [|done].
    apply andb_prop in Hnode
      as [_ [H0%bool_decide_eq_true H1%bool_decide_eq_true]%andb_prop].
    subst c0 c1.
    destruct (linked_left_of_atom e x a _ g tx ty He Hlinked Hx Hget Hcs Htx)
      as (c & Hcontent & Hc1 & _).
    destruct (linked_right_of_atom e y b _ g tx ty He Hlinked Hy Hget Hcs Hty)
      as (c' & Hcontent' & _).
    rewrite Hcontent in Hcontent'. inversion Hcontent'; subst c c'.
    pose proof (wf_frag_node e He _ _ Hget) as Hreg.
    by rewrite Hcontent in Hreg. }
  destruct (List.find found (getAllNodes e)) as [node|] eqn:Hfind.
  - apply find_some in Hfind as [Hin Hnode]. apply list_elem_of_In in Hin.
    cbn. symmetry. by apply Hfound.
  - cbn. destruct (getFragmentUri e [x; y]) as [p|] eqn:Hp; [|done].
    destruct (linked_pair e x y p He Hlinked Hp)
      as (g & l & r & Hg & Hcontent & Hcs & Hl & Hr).
    assert (found (Fragment g) = true) as Hyes.
    { unfold found, tx, ty. cbn. rewrite Hcs, Hl, Hr. cbn.
      by rewrite !bool_decide_eq_true_2. }
    eapply find_none in Hfind; [by rewrite Hyes in Hfind|].
    apply list_elem_of_In. by eapply getAllNodes_elem.
Qed.

(** X13. As long as nothing is deleted, the neighbours of an atom are
    exactly the items registered next to it: [findNeighbors] returns,
    [c] is a right neighbour of the atom [x] through the pair [p]
    exactly when [p] is the fragment registered for [[x, c]], and a
    left neighbour exactly when [p] is the fragment registered for
    [[c, x]]. *)
Theorem findNeighbors_of_atom (e : PGSLEngine) x a :
  reachable_by no_delete e →
  getNode e x = Own (Atom a) →
  ∃ rightOf leftOf,
    findNeighbors x right e = Return rightOf
    ∧ findNeighbors x left e = Return leftOf
    ∧ (∀ c p, mkNeighbor c p ∈ rightOf → fragmentEntry e [Str x; c] = Some p)
    ∧ (∀ c p, getFragmentUri e [x; c] = Some p → mkNeighbor (Str c) p ∈ rightOf)
    ∧ (∀ c p, mkNeighbor c p ∈ leftOf → fragmentEntry e [c; Str x] = Some p)
    ∧ (∀ c p, getFragmentUri e [c; x] = Some p → mkNeighbor (Str c) p ∈ leftOf).
Proof.
  intros [He Hl]%reachable_linked Hx. by apply (neighbours_of_atom e x a).
Qed.

(** X14. As long as nothing is deleted, [findParentNode] applied to two
    atoms answers with the fragment registered for the two of them in
    that order, and with nothing when there is none. *)
Theorem findParentNode_of_atoms (e : PGSLEngine) x y a b :
  reachable_by no_delete e →
  getNode e x = Own (Atom a) → getNode e y = Own (Atom b) →
  findParentNode x y e = Return (getFragmentUri e [x; y]).
Proof.
  intros [He Hl]%reachable_linked Hx Hy. by apply (parent_of_atoms e x y a b).
Qed.

Lemma slice_pair {A} (xs : list A) i x y :
  xs !! i = Some x → xs !! S i = Some y → slice xs i (i + 2) = [x; y].
Proof.
  intros Hx Hy. unfold slice. replace (i + 2 - i) with 2 by lia.
  rewrite (drop_S _ x i Hx), (drop_S _ y (S i) Hy). done.
Qed.

(** The atom behind a raw item whose string form names no inherited
    property. *)
Lemma normalized_atom e item r :
  wf e → isURI (String_of item) = false → inherited (String_of item) = false →
  normalized e item r →
  ∃ x a, r = Str x ∧ ownNode e x = Some (Atom a)
         ∧ String_of (rdf_value a) = String_of item.
Proof.
  intros He Hraw Hown. unfold normalized. rewrite Hraw.
  rewrite atomEntry_entryOf, entryOf_plain by done.
  destruct (truthy _) as [x|] eqn:Hx; [|done]. intros [= <-].
  apply truthy_Some in Hx as [Hx _].
  destruct (wf_atom_entry e He _ _ Hx) as (_ & a & Ha & Hk). eauto.
Qed.

(** X15. Ingesting a sequence makes consecutive raw values neighbours.
    As long as nothing is deleted, after [ingestSequence(items)] the
    atoms [x] and [y] of two consecutive raw items, neither of whose
    string forms names a property inherited from [Object.prototype],
    have a parent: the fragment registered for [[x, y]] is what
    [findParentNode(x, y)] returns, [y] is a right neighbour of [x]
    through it and [x] a left neighbour of [y]. *)
Theorem ingested_items_are_neighbours (items : list Value) (e : PGSLEngine)
    (i : nat) (v v' : Value) :
  reachable_by no_delete e →
  items !! i = Some v → items !! S i = Some v' →
  isURI (String_of v) = false → isURI (String_of v') = false →
  inherited (String_of v) = false → inherited (String_of v') = false →
  ∃ x y p a b rightOf leftOf,
    getNode (ingestSequence items e).2 x = Own (Atom a)
    ∧ String_of (rdf_value a) = String_of v
    ∧ getNode (ingestSequence items e).2 y = Own (Atom b)
    ∧ String_of (rdf_value b) = String_of v'
    ∧ getFragmentUri (ingestSequence items e).2 [x; y] = Some p
    ∧ findParentNode x y (ingestSequence items e).2 = Return (Some p)
    ∧ findNeighbors x right (ingestSequence items e).2 = Return rightOf
    ∧ mkNeighbor (Str y) p ∈ rightOf
    ∧ findNeighbors y left (ingestSequence items e).2 = Return leftOf
    ∧ mkNeighbor (Str x) p ∈ leftOf.
Proof.
  intros Hreach Hv Hv' Hraw Hraw' Hown Hown'.
  destruct (linked_ingestSequence items e (reachable_linked e Hreach))
    as [Hw Hlinked].
  assert (items ≠ []) as Hne by (intros ->; done).
  destruct (ingestSequence_result items e Hne)
    as (baseUris & top & e3 & Hret & _ & Hlen & Hnorm & Hcov & _).
  rewrite Hret in *. cbn [snd] in *.
  destruct (Forall2_lookup_l _ _ _ _ _ Hnorm Hv) as (rx & Hx & Hnx).
  destruct (Forall2_lookup_l _ _ _ _ _ Hnorm Hv') as (ry & Hy & Hny).
  apply (normalized_ext e3 (notify e3)) in Hnx, Hny; [|apply ext_notify..].
  destruct (normalized_atom _ v rx Hw Hraw Hown Hnx) as (x & a & -> & Ha & Hka).
  destruct (normalized_atom _ v' ry Hw Hraw' Hown' Hny) as (y & b & -> & Hb & Hkb).
  apply getNode_Own in Ha, Hb.
  pose proof (lookup_lt_Some _ _ _ Hy) as Hbound.
  destruct (Hcov i 2) as [p Hp]; [lia..|].
  rewrite (slice_pair baseUris i _ _ Hx Hy) in Hp.
  apply truthy_Some in Hp as [Hp _].
  destruct (neighbours_of_atom _ x a Hw Hlinked Ha)
    as (rightOf & _ & Hright & _ & _ & Hright_in & _).
  destruct (neighbours_of_atom _ y b Hw Hlinked Hb)
    as (_ & leftOf & _ & Hleft & _ & _ & _ & Hleft_in).
  exists x, y, p, a, b, rightOf, leftOf.
  split_and!; [done|done|done|done|done| |done| |done|].
  - rewrite (parent_of_atoms _ x y a b Hw Hlinked Ha Hb). by f_equal.
  - by apply Hright_in.
  - by apply Hleft_in.
Qed.

(** *** Identifiers *)









(** *** Height and level *)






(** *** The repository and the registries *)

Lemma length_node_kinds (nodes : list Node) :
  length nodes = length (omap asAtom nodes) + length (omap asFragment nodes).
Proof.
  induction nodes as [|[a|f] nodes IH]; cbn; [done|lia|lia].
Qed.

(** X21. [getAllNodes] lists the repository without repetition and the
    registries index all of it: in a reachable engine no two listed
    nodes share an identifier, a node is listed exactly when [getNode]
    returns it for its own identifier, and the number of nodes is the
    number of atom registry entries plus the number of fragment registry
    entries. *)
Theorem repository_matches_registries (e : PGSLEngine) :
  reachable e →
  NoDup (node_id <$> getAllNodes e)
  ∧ (∀ node, node ∈ getAllNodes e ↔ getNode e (node_id node) = Own node)
  ∧ length (getAllNodes e)
    = size (atomRegistry (state e)) + size (fragmentRegistry (state e)).
Proof.
  intros He%reachable_wf. split_and!.
  - rewrite node_ids_keys by done. by apply wf_nodup.
  - intros node. rewrite getNode_Own.
    split; [by apply getAllNodes_ownNode|by apply getAllNodes_elem].
  - rewrite length_node_kinds.
    pose proof (atomNodes_registry e He) as Ha%Permutation_length.
    pose proof (fragmentNodes_registry e He) as Hf%Permutation_length.
    rewrite length_fmap, length_map_to_list in Ha.
    rewrite length_fmap, length_map_to_list in Hf.
    unfold atomNodes, fragmentNodes in *. lia.
Qed.

(** *** What holds for every identifier but an inherited name *)

(** X22. After [deleteNode(uri)] no registry entry maps to [uri], every
    other node and every other registry entry is as it was (a fragment
    that lists [uri] keeps the dangling reference), one notification is
    fired, and [uri] is no own property of the repository:
    [getNode(uri)] is absent unless [uri] names a property inherited
    from [Object.prototype], which the read then returns.  When [uri]
    was no node of a reachable engine, the call changes nothing but the
    listener trace. *)
Theorem deleteNode_frame (uri : string) (e : PGSLEngine) :
  getNode (deleteNode uri e) uri
  = (if inherited uri then Inherit uri else Undefined)
  ∧ (∀ key, atomRegistry (state (deleteNode uri e)) !! key ≠ Some uri)
  ∧ (∀ key, fragmentRegistry (state (deleteNode uri e)) !! key ≠ Some uri)
  ∧ (∀ uri', uri' ≠ uri → getNode (deleteNode uri e) uri' = getNode e uri')
  ∧ (∀ key uri', uri' ≠ uri →
       (atomRegistry (state (deleteNode uri e)) !! key = Some uri'
        ↔ atomRegistry (state e) !! key = Some uri')
       ∧ (fragmentRegistry (state (deleteNode uri e)) !! key = Some uri'
          ↔ fragmentRegistry (state e) !! key = Some uri'))
  ∧ calls (deleteNode uri e)
    = calls e ++ invocations (listeners e) (state (deleteNode uri e))
  ∧ (reachable e → (∀ node, getNode e uri ≠ Own node) →
     deleteNode uri e = notify e).
Proof.
  assert (∀ uri', uri' ≠ uri →
            getNode (deleteNode uri e) uri' = getNode e uri') as Hframe.
  { intros uri' Hne. unfold getNode, ownNode, deleteNode. cbn.
    by rewrite obj_get_delete_ne. }
  split_and!; [| | |done| |done|].
  - unfold getNode, ownNode, deleteNode, js_get. cbn.
    by rewrite obj_get_delete_eq.
  - intros key [_ Hne]%map_lookup_filter_Some. by apply Hne.
  - intros key [_ Hne]%map_lookup_filter_Some. by apply Hne.
  - intros key uri' Hne. unfold deleteNode. cbn.
    rewrite !map_lookup_filter_Some. cbn.
    split; (split; [by intros [? _]|by intros ?]).
  - intros He%reachable_wf Habsent.
    assert (ownNode e uri = None) as Hnone.
    { destruct (ownNode e uri) as [node|] eqn:Hn; [|done].
      by destruct (Habsent node); apply getNode_Own. }
    unfold deleteNode, notify. cbn.
    assert (mkState (filter (λ kv, kv.2 ≠ uri) (atomRegistry (state e)))
              (filter (λ kv, kv.2 ≠ uri) (fragmentRegistry (state e)))
              (obj_delete uri (nodeRepository (state e))) = state e) as ->;
      [|done].
    destruct (state e) as [atoms frags repo] eqn:Hs. cbn.
    assert (nodeRepository (state e) = repo) as Hrepo by (by rewrite Hs).
    assert (atomRegistry (state e) = atoms) as Hatoms by (by rewrite Hs).
    assert (fragmentRegistry (state e) = frags) as Hfrags by (by rewrite Hs).
    unfold ownNode in Hnone. rewrite Hrepo in Hnone.
    f_equal.
    + apply map_filter_id. intros key u Hk Hu. cbn in Hu. subst u.
      rewrite <- Hatoms in Hk.
      destruct (wf_atom_entry e He _ _ Hk) as (_ & a & Ha & _).
      unfold ownNode in Ha. rewrite Hrepo in Ha. congruence.
    + apply map_filter_id. intros key u Hk Hu. cbn in Hu. subst u.
      rewrite <- Hfrags in Hk.
      destruct (wf_frag_entry e He _ _ Hk) as (f & Hf & _).
      unfold ownNode in Hf. rewrite Hrepo in Hf. congruence.
    + by apply obj_delete_absent.
Qed.

(** X23. Atoms are keyed by the string form of the value: for two
    values with the same [String(v)] the second call of
    [getCanonicalAtom] returns what the first returned and changes
    nothing.  When that string form names no property inherited from
    [Object.prototype], what is returned is the identifier of a stored
    atom; the atom keeps the value of the call that created it. *)
Theorem getCanonicalAtom_keys_on_string (v w : Value) (e : PGSLEngine) :
  String_of v = String_of w →
  (getCanonicalAtom w (getCanonicalAtom v e).2).1 = (getCanonicalAtom v e).1
  ∧ (getCanonicalAtom w (getCanonicalAtom v e).2).2 = (getCanonicalAtom v e).2
  ∧ (atomEntry e (String_of v) = None →
     ∃ uri a, (getCanonicalAtom v e).1 = Str uri
          ∧ getNode (getCanonicalAtom w (getCanonicalAtom v e).2).2 uri
            = Own (Atom a)
          ∧ rdf_value a = v)
  ∧ (reachable e → inherited (String_of v) = false →
     ∃ uri a, (getCanonicalAtom v e).1 = Str uri
          ∧ getNode (getCanonicalAtom w (getCanonicalAtom v e).2).2 uri
            = Own (Atom a)
          ∧ String_of (rdf_value a) = String_of v).
Proof.
  intros Hvw.
  destruct (getCanonicalAtom_spec v e) as (_ & Hres & _).
  pose proof Hres as Hres'. rewrite Hvw in Hres'.
  rewrite (getCanonicalAtom_hit _ _ _ Hres'). cbn.
  split_and!; [done|done| |].
  - intros Hmiss. rewrite (getCanonicalAtom_miss _ _ Hmiss). cbn.
    eexists _, _. split; [done|]. split.
    + apply getNode_Own. unfold ownNode, stateWithAtom. cbn.
      by rewrite obj_get_set_eq.
    + done.
  - intros He%reachable_wf Hplain. apply (wf_getCanonicalAtom v) in He.
    rewrite atomEntry_entryOf, entryOf_plain in Hres by done.
    destruct (truthy _) as [uri|] eqn:Hu; [|done].
    apply truthy_Some in Hu as [Hu _].
    destruct (wf_atom_entry _ He _ _ Hu) as (_ & a & Ha & Hkey).
    exists uri, a. split_and!; [by inversion Hres|by apply getNode_Own|done].
Qed.

End engine.

(** ** A concrete engine

    Numbers are integers printed in decimal, the UUID stream is a counter
    and the clock stands still.  The members of [Object.prototype] print
    as the runtime prints them. *)

Definition decimal (n : Z) : string := pretty n.
Definition counterUuid (k : nat) : string := pretty k.
Definition fixedClock (_ : nat) : string := "1970-01-01T00:00:00.000Z".

Definition nativeSource (key : string) : string :=
  if decide (key = "__proto__") then "[object Object]"
  else if decide (key = "constructor") then "function Object() { [native code] }"
  else "function " +:+ key +:+ "() { [native code] }".

Lemma counterUuid_inj : Inj (=) (=) counterUuid.
Proof. unfold counterUuid. apply _. Qed.

Lemma noslash_pretty_N_go x s : noslash (pretty_N_go x s) = noslash s.
Proof.
  revert s. induction (N.lt_wf_0 x) as [x _ IH]; intros s.
  assert (x = 0 ∨ 0 < x)%N as [->|Hx] by lia; [by rewrite pretty_N_go_0|].
  rewrite pretty_N_go_step by done. rewrite IH by (by apply N.div_lt).
  cbn. unfold pretty_N_char. by repeat case_match.
Qed.

Lemma counterUuid_plain k : noslash (counterUuid k) = true.
Proof.
  unfold counterUuid, pretty, pretty_nat, pretty, pretty_N.
  case_decide; [done|]. by rewrite noslash_pretty_N_go.
Qed.

Lemma nativeSource_plain key :
  inherited key = true →
  noslash (nativeSource key) = true ∧ inherited (nativeSource key) = false.
Proof.
  intros H%inherited_elem. unfold inherited_keys in H.
  repeat (apply elem_of_cons in H as [->|H]; [by vm_compute|]).
  by apply elem_of_nil in H.
Qed.

Definition engine0 : @PGSLEngine Z := newEngine.
Definition ingest := @ingestSequence Z decimal counterUuid fixedClock nativeSource.
Definition canonicalAtom := @getCanonicalAtom Z decimal counterUuid fixedClock.
Definition reachable0 :=
  @reachable Z decimal counterUuid fixedClock nativeSource.
Definition reachable_by0 :=
  @reachable_by Z decimal counterUuid fixedClock nativeSource.

Definition ab : list (@Value Z) := [VString "a"; VString "b"].

(** The engine after [ingestSequence(["a", "b"])]. *)
Definition engineAB : @PGSLEngine Z := (ingest ab engine0).2.

Definition atomA : string := "http://localhost:3000/atoms/0".
Definition atomB : string := "http://localhost:3000/atoms/1".
Definition wrapperA : string := "http://localhost:3000/fragments/2".
Definition wrapperB : string := "http://localhost:3000/fragments/3".
Definition fragmentAB : string := "http://localhost:3000/fragments/4".

Lemma ab_unguessed e : unguessed decimal counterUuid e ab.
Proof.
  intros item Hin Huri. exfalso.
  apply elem_of_cons in Hin as [->|Hin]; [done|].
  apply list_elem_of_singleton in Hin as ->. done.
Qed.

Lemma engine0_reachable_by allowed : reachable_by0 allowed engine0.
Proof.
  apply (reach_fresh decimal counterUuid fixedClock nativeSource allowed
           "http://localhost:3000" "did:web:localhost:user:default").
Qed.

Lemma engineAB_reachable_by allowed :
  (∀ e, allowed e (OpIngestSequence ab)) → reachable_by0 allowed engineAB.
Proof.
  intros Hallowed.
  apply (reach_step decimal counterUuid fixedClock nativeSource allowed engine0
           (OpIngestSequence ab)); [apply engine0_reachable_by|apply Hallowed].
Qed.

Lemma engineAB_reachable : reachable0 engineAB.
Proof. by apply engineAB_reachable_by. Qed.

Lemma engineAB_honest : reachable_by0 (honest decimal counterUuid) engineAB.
Proof. apply engineAB_reachable_by. intros e. apply ab_unguessed. Qed.

Lemma engineAB_lawful :
  reachable_by0 (honest_no_delete decimal counterUuid) engineAB.
Proof. apply engineAB_reachable_by. intros e. apply ab_unguessed. Qed.

(** Scenario A of the specification. *)
Example scenario_A :
  ingest ab engine0 = (Return fragmentAB, engineAB)
  ∧ (∃ f, getNode engineAB fragmentAB = Own (Fragment f)
          ∧ pgsl_content f = [Str atomA; Str atomB]
          ∧ pgsl_constituents f = Some (wrapperA, wrapperB)
          ∧ frag_height f = Height 2).
Proof. split; [by vm_compute|]. eexists. by vm_compute. Qed.

(** What the engine does with a value that names a member of
    [Object.prototype]: no atom is created, the wrapper holds the member
    itself, and the reads that meet it raise. *)
Example inherited_name_scenario :
  length (atomNodes (ingest [VString "constructor"] engine0).2) = 0
  ∧ (ingest [VString "constructor"] engine0).1
    = Return "http://localhost:3000/fragments/0"
  ∧ pgsl_content <$> fragmentNodes (ingest [VString "constructor"] engine0).2
    = [[Member "constructor"]]
  ∧ frag_height <$> fragmentNodes (ingest [VString "constructor"] engine0).2
    = [Height 1]
  ∧ resolveContentString decimal nativeSource 3
      (Str "http://localhost:3000/fragments/0")
      (ingest [VString "constructor"] engine0).2 = Some (Return "<?>")
  ∧ resolveDeepContent decimal nativeSource 3
      (Str "http://localhost:3000/fragments/0")
      (ingest [VString "constructor"] engine0).2 = Some (Throw TypeError)
  ∧ resolveContentString decimal nativeSource 1 (Str "constructor") engine0
    = Some (Throw TypeError)
  ∧ promoteToStructural "constructor" engine0 = Throw TypeError
  ∧ calls (ingest [VString "constructor"] (subscribe 7 engine0)).2
    = invocations [7] (state (ingest [VString "constructor"] engine0).2).
Proof. split_and!; by vm_compute. Qed.

(** *** Instances of the theorems *)

Lemma ingestSequence_raises_iff_empty_witness :
  ingest [] engine0 = (Throw (Error "Sequence cannot be empty"), engine0)
  ∧ ∃ uri, (ingest ab engine0).1 = Return uri.
Proof.
  destruct (ingestSequence_raises_iff_empty decimal counterUuid fixedClock
              nativeSource ab engine0) as (_ & _ & Hreturns).
  split; [reflexivity|]. apply Hreturns. discriminate.
Defined.

Lemma ingestSequence_idempotent_witness :
  ingest ab engineAB = (Return fragmentAB, notify engineAB).
Proof.
  apply (ingestSequence_idempotent decimal counterUuid fixedClock nativeSource
           ab engine0 engineAB fragmentAB); [discriminate|by vm_compute].
Defined.

Lemma ingestSequence_notifications_witness :
  ∃ created : list PGSLState,
    calls (ingest [VString "a"] (subscribe 7 engine0)).2
    = calls (subscribe 7 engine0)
      ++ concat (invocations (listeners (subscribe 7 engine0)) <$> created)
      ++ invocations (listeners (subscribe 7 engine0))
           (state (ingest [VString "a"] (subscribe 7 engine0)).2)
    ∧ length created
      = size (missing_keys decimal (subscribe 7 engine0) [VString "a"])
    ∧ Forall (λ s, fragmentRegistry s
                   = fragmentRegistry (state (subscribe 7 engine0))) created
    ∧ dom (atomRegistry (state (ingest [VString "a"] (subscribe 7 engine0)).2))
      = dom (atomRegistry (state (subscribe 7 engine0)))
        ∪ missing_keys decimal (subscribe 7 engine0) [VString "a"]
    ∧ listeners (ingest [VString "a"] (subscribe 7 engine0)).2
      = listeners (subscribe 7 engine0).
Proof.
  apply (ingestSequence_notifications decimal counterUuid fixedClock
           nativeSource [VString "a"] (subscribe 7 engine0)).
  discriminate.
Defined.

Lemma reachable_R1_witness : R1 engineAB.
Proof.
  apply (reachable_R1 decimal counterUuid fixedClock nativeSource
           counterUuid_inj counterUuid_plain nativeSource_plain engineAB).
  apply engineAB_reachable.
Defined.

Lemma getCanonicalAtom_constructor_witness :
  canonicalAtom (VString "constructor") engineAB
  = (Member "constructor", engineAB)
  ∧ ∀ uri a, getNode engineAB uri = Own (Atom a) →
      String_of decimal (rdf_value a) ≠ "constructor".
Proof.
  apply (getCanonicalAtom_constructor decimal counterUuid fixedClock
           nativeSource counterUuid_inj counterUuid_plain nativeSource_plain
           engineAB).
  apply engineAB_reachable.
Defined.

Lemma findParentNode_findNeighbors_witness :
  findParentNode atomA atomB engineAB = Return (Some fragmentAB)
  ∧ ∃ demotedL demotedR rightOfL leftOfR,
      demoteToAtom atomA engineAB = Return demotedL
      ∧ demoteToAtom atomB engineAB = Return demotedR
      ∧ findNeighbors atomA right engineAB = Return rightOfL
      ∧ findNeighbors atomB left engineAB = Return leftOfR
      ∧ mkNeighbor demotedR fragmentAB ∈ rightOfL
      ∧ mkNeighbor demotedL fragmentAB ∈ leftOfR.
Proof.
  split; [by vm_compute|].
  apply (findParentNode_findNeighbors decimal counterUuid fixedClock
           nativeSource counterUuid_inj counterUuid_plain nativeSource_plain
           atomA atomB fragmentAB engineAB);
    [apply engineAB_reachable|by vm_compute].
Defined.

Lemma height_law_without_deletion_witness :
  ∃ f, getNode engineAB fragmentAB = Own (Fragment f)
       ∧ pgsl_constituents f = Some (wrapperA, wrapperB)
       ∧ ∃ hl hr,
           heightOf engineAB wrapperA = Height hl
           ∧ heightOf engineAB wrapperB = Height hr
           ∧ frag_height f = Height (Nat.max hl hr + 1).
Proof.
  eexists. split; [by vm_compute|]. split; [reflexivity|].
  match goal with |- ∃ hl hr, _ ∧ _ ∧ frag_height ?f = _ =>
    exact (height_law_without_deletion decimal counterUuid fixedClock
             nativeSource counterUuid_inj counterUuid_plain nativeSource_plain
             engineAB fragmentAB (Fragment f) engineAB_lawful
             ltac:(by vm_compute))
  end.
Defined.

Lemma resolveContentString_total_witness :
  inherited fragmentAB = false
  ∧ ∃ s, (∀ fuel, drawn engineAB < fuel →
            resolveContentString decimal nativeSource fuel (Str fragmentAB)
              engineAB = Some (Return s))
         ∧ (getNode engineAB fragmentAB = Undefined → s = "<?>").
Proof.
  split; [by vm_compute|].
  apply (resolveContentString_total decimal counterUuid fixedClock nativeSource
           counterUuid_inj counterUuid_plain nativeSource_plain
           engineAB fragmentAB); [apply engineAB_honest|by vm_compute].
Defined.

Lemma ingestSequence_lattice_size_witness :
  length (atomNodes engineAB) = 2
  ∧ length (wrapperNodes engineAB) = 2
  ∧ length (compositeNodes engineAB) = 1
  ∧ length (fragmentNodes engineAB) = 3.
Proof.
  destruct (ingestSequence_lattice_size decimal counterUuid fixedClock
              nativeSource counterUuid_inj counterUuid_plain nativeSource_plain
              ab engine0) as (H1 & H2 & H3 & H4 & _).
  - reflexivity.
  - discriminate.
  - apply (bool_decide_unpack _). by vm_compute.
  - repeat constructor.
  - repeat constructor.
  - split_and!; [exact H1|exact H2|exact H3|exact H4].
Defined.

(** *** Where the statements of the specification fail *)

(** C1 as stated: [1] and ["1"] are two distinct raw values, neither
    naming an inherited property, yet they share one atom. *)
Lemma distinct_values_one_atom :
  NoDup [VNumber 1%Z; VString "1"]
  ∧ Forall (λ item, isURI (String_of decimal item) = false)
      [VNumber 1%Z; VString "1"]
  ∧ Forall (λ item, inherited (String_of decimal item) = false)
      [VNumber 1%Z; VString "1"]
  ∧ state engine0 = emptyState
  ∧ length (atomNodes (ingest [VNumber 1%Z; VString "1"] engine0).2) = 1
  ∧ length (fragmentNodes (ingest [VNumber 1%Z; VString "1"] engine0).2) = 2.
Proof.
  split_and!;
    [|by repeat constructor|by repeat constructor|done
     |by vm_compute|by vm_compute].
  apply NoDup_cons. split; [|apply NoDup_singleton].
  by intros [=]%list_elem_of_singleton.
Qed.

(** C3 as stated: after both wrappers of [(a b)] are deleted, the
    fragment still has height 2, while its constituents, now unresolved,
    count 0 each. *)
Lemma height_law_fails_after_deleteNode :
  reachable0 (deleteNode wrapperB (deleteNode wrapperA engineAB))
  ∧ ∃ f, getNode (deleteNode wrapperB (deleteNode wrapperA engineAB)) fragmentAB
         = Own (Fragment f)
         ∧ pgsl_constituents f = Some (wrapperA, wrapperB)
         ∧ frag_height f = Height 2
         ∧ heightOf (deleteNode wrapperB (deleteNode wrapperA engineAB)) wrapperA
           = Height 0
         ∧ heightOf (deleteNode wrapperB (deleteNode wrapperA engineAB)) wrapperB
           = Height 0
         ∧ max_plus_1 (Height 0) (Height 0) = Height 1.
Proof.
  split.
  - apply (reach_step _ _ _ _ _ _ (OpDeleteNode wrapperB)); [|done].
    apply (reach_step _ _ _ _ _ _ (OpDeleteNode wrapperA)); [|done].
    apply engineAB_reachable.
  - eexists. by vm_compute.
Qed.

(** C6 as stated: the placeholder for an unknown identifier is the
    constant [<?>]; it does not mention the identifier's last path
    segment. *)
Lemma placeholder_ignores_identifier :
  getNode engine0 "http://example.org/atoms/abc" = Undefined
  ∧ resolveContentString decimal nativeSource 1
      (Str "http://example.org/atoms/abc") engine0
    = Some (Return "<?>")
  ∧ trailing_segment "http://example.org/atoms/abc" = "abc"
  ∧ str_includes "abc" "<?>" = false.
Proof. by vm_compute. Qed.

(** C7 as stated: ingesting one new value notifies the listener twice,
    once for the new atom and once at the end. *)
Lemma new_atom_notifies_twice :
  calls (subscribe 7 engine0) = []
  ∧ (calls (ingest [VString "a"] (subscribe 7 engine0)).2).*1 = [7; 7].
Proof. by vm_compute. Qed.

(** *** Instances of the further theorems *)

Definition engineListening : @PGSLEngine Z := subscribe 7 (subscribe 8 engine0).

Definition run0 := @run Z decimal counterUuid fixedClock nativeSource.

Lemma canonical_nodes_unique_witness :
  (∀ a1 a2, getNode engineAB atomA = Own (Atom a1) →
     getNode engineAB atomB = Own (Atom a2) →
     String_of decimal (rdf_value a1) = String_of decimal (rdf_value a2) →
     atomA = atomB ∧ a1 = a2)
  ∧ (∀ f1 f2, getNode engineAB wrapperA = Own (Fragment f1) →
       getNode engineAB wrapperA = Own (Fragment f2) →
       pgsl_content f1 = pgsl_content f2 → wrapperA = wrapperA ∧ f1 = f2).
Proof.
  split.
  - apply (canonical_nodes_unique decimal counterUuid fixedClock nativeSource
             counterUuid_inj counterUuid_plain nativeSource_plain
             engineAB atomA atomB), engineAB_reachable.
  - apply (canonical_nodes_unique decimal counterUuid fixedClock nativeSource
             counterUuid_inj counterUuid_plain nativeSource_plain
             engineAB wrapperA wrapperA), engineAB_reachable.
Defined.

Lemma getFragmentUri_iff_fragment_witness :
  getFragmentUri engineAB [atomA; atomB] = Some fragmentAB
  ↔ ∃ f, getNode engineAB fragmentAB = Own (Fragment f)
         ∧ pgsl_content f = Str <$> [atomA; atomB] ∧ frag_id f = fragmentAB.
Proof.
  apply (getFragmentUri_iff_fragment decimal counterUuid fixedClock nativeSource
           counterUuid_inj counterUuid_plain nativeSource_plain
           engineAB [atomA; atomB] fragmentAB).
  apply engineAB_reachable.
Defined.

Lemma fragment_shape_witness :
  ∃ f, getNode engineAB fragmentAB = Own (Fragment f)
       ∧ pgsl_level f = length (pgsl_content f)
       ∧ 1 ≤ pgsl_level f
       ∧ (pgsl_constituents f = None ↔ pgsl_level f = 1)
       ∧ (∀ l r, pgsl_constituents f = Some (l, r) →
            l ≠ EmptyString ∧ r ≠ EmptyString).
Proof.
  eexists. split; [by vm_compute|].
  apply (fragment_shape decimal counterUuid fixedClock nativeSource
           counterUuid_inj counterUuid_plain nativeSource_plain
           engineAB fragmentAB); [apply engineAB_reachable|by vm_compute].
Defined.

Lemma repository_append_only_witness :
  getAllNodes engineAB
    `prefix_of` getAllNodes (ingest [VString "c"] engineAB).2
  ∧ ∀ uri node, getNode engineAB uri = Own node →
      getNode (ingest [VString "c"] engineAB).2 uri = Own node.
Proof.
  apply (repository_append_only decimal counterUuid fixedClock nativeSource
           counterUuid_inj counterUuid_plain nativeSource_plain
           engineAB (OpIngestSequence [VString "c"]));
    [apply engineAB_reachable|exact I].
Defined.

Lemma ingestSequence_subsequence_known_witness :
  ∃ baseUris sub,
    Forall2 (normalized decimal engineAB) ab baseUris
    ∧ fragmentEntry engineAB (slice baseUris 1 (1 + 1)) = Some sub
    ∧ sub ≠ EmptyString
    ∧ ingest (slice ab 1 (1 + 1)) engineAB = (Return sub, notify engineAB)
    ∧ state (notify engineAB) = state engineAB
    ∧ drawn (notify engineAB) = drawn engineAB
    ∧ (1 = length ab → sub = fragmentAB).
Proof.
  apply (ingestSequence_subsequence_known decimal counterUuid fixedClock
           nativeSource ab engine0 engineAB fragmentAB 1 1);
    [by vm_compute|lia|cbn; lia].
Defined.

Lemma ingestSequence_returns_whole_sequence_witness :
  ∃ top f,
    (ingest [VString "b"; VString "c"] engineAB).1 = Return top
    ∧ getNode (ingest [VString "b"; VString "c"] engineAB).2 top
      = Own (Fragment f)
    ∧ fragmentEntry (ingest [VString "b"; VString "c"] engineAB).2
        (pgsl_content f) = Some top
    ∧ Forall2 (names_value decimal (ingest [VString "b"; VString "c"] engineAB).2)
        [VString "b"; VString "c"] (pgsl_content f)
    ∧ pgsl_level f = 2
    ∧ (pgsl_constituents f = None ↔ 2 = 1).
Proof.
  apply (ingestSequence_returns_whole_sequence decimal counterUuid fixedClock
           nativeSource counterUuid_inj counterUuid_plain nativeSource_plain
           [VString "b"; VString "c"] engineAB);
    [apply engineAB_reachable|discriminate].
Defined.

Lemma removed_identifier_never_returns_witness :
  getNode (run0 [OpIngestSequence ab] (run0 [OpDeleteNode wrapperA] engineAB))
    wrapperA = Undefined
  ∧ (∀ value,
       (canonicalAtom value
          (run0 [OpIngestSequence ab] (run0 [OpDeleteNode wrapperA] engineAB))).1
       ≠ Str wrapperA)
  ∧ (∀ items,
       (ingest items
          (run0 [OpIngestSequence ab] (run0 [OpDeleteNode wrapperA] engineAB))).1
       ≠ Return wrapperA).
Proof.
  refine (removed_identifier_never_returns decimal counterUuid fixedClock
            nativeSource counterUuid_inj counterUuid_plain nativeSource_plain
            engineAB wrapperA _ [OpDeleteNode wrapperA]
            [OpIngestSequence ab] engineAB_reachable _ _);
    [by vm_compute|by vm_compute].
Defined.

Lemma unsubscribed_listener_stays_silent_witness :
  (7 ∉ listeners (run0 [OpIngestSequence ab] (unsubscribe 7 engineListening)))
  ∧ (∃ extra,
       calls (run0 [OpIngestSequence ab] (unsubscribe 7 engineListening))
       = calls engineListening ++ extra ∧ 7 ∉ extra.*1)
  ∧ listeners (run0 [OpIngestSequence ab] (unsubscribe 7 engineListening))
    = filter (λ l, l ≠ 7) (listeners (run0 [OpIngestSequence ab] engineListening)).
Proof.
  apply (unsubscribed_listener_stays_silent decimal counterUuid fixedClock
           nativeSource engineListening 7 [OpIngestSequence ab]).
  by repeat constructor.
Defined.

Lemma resolveContentString_of_ingested_values_witness :
  ∃ top,
    (ingest ab engine0).1 = Return top
    ∧ resolveContentString decimal nativeSource 2 (Str top) (ingest ab engine0).2
      = Some (Return (if decide (length ab = 1)
                      then join " " (String_of decimal <$> ab)
                      else "(" +:+ join " " (String_of decimal <$> ab) +:+ ")")).
Proof.
  apply (resolveContentString_of_ingested_values decimal counterUuid fixedClock
           nativeSource counterUuid_inj counterUuid_plain nativeSource_plain
           ab engine0 2);
    [apply engine0_reachable_by|discriminate|by repeat constructor
    |by repeat constructor|lia].
Defined.

Lemma resolveDeepContent_of_ingested_values_witness :
  ∃ top,
    (ingest ab engine0).1 = Return top
    ∧ resolveDeepContent decimal nativeSource 2 (Str top) (ingest ab engine0).2
      = Some (Return (if decide (length ab = 1)
                      then join ", " (String_of decimal <$> ab)
                      else "(" +:+ join ", " (String_of decimal <$> ab) +:+ ")")).
Proof.
  apply (resolveDeepContent_of_ingested_values decimal counterUuid fixedClock
           nativeSource counterUuid_inj counterUuid_plain nativeSource_plain
           ab engine0 2);
    [apply engine0_reachable_by|discriminate|by repeat constructor
    |by repeat constructor|lia].
Defined.

Lemma resolveDeepContent_total_witness :
  ∃ outcome,
    (∀ fuel, drawn engineAB < fuel →
       resolveDeepContent decimal nativeSource fuel
         (Str "http://example.org/atoms/abc") engineAB = Some outcome)
    ∧ (getNode engineAB "http://example.org/atoms/abc" = Undefined →
       outcome
       = Return ("REF<" +:+ trailing_segment "http://example.org/atoms/abc"
                 +:+ ">"))
    ∧ (∀ a, getNode engineAB "http://example.org/atoms/abc" = Own (Atom a) →
       outcome = Return (String_of decimal (rdf_value a))).
Proof.
  apply (resolveDeepContent_total decimal counterUuid fixedClock nativeSource
           counterUuid_inj counterUuid_plain nativeSource_plain
           engineAB "http://example.org/atoms/abc").
  apply engineAB_honest.
Defined.

Lemma identifiers_ingested_by_reference_witness :
  atomRegistry (state (ingest (VString <$> [atomA; fragmentAB]) engineAB).2)
  = atomRegistry (state engineAB)
  ∧ (∃ top f, (ingest (VString <$> [atomA; fragmentAB]) engineAB).1 = Return top
              ∧ getNode (ingest (VString <$> [atomA; fragmentAB]) engineAB).2 top
                = Own (Fragment f)
              ∧ pgsl_content f = Str <$> [atomA; fragmentAB])
  ∧ (isURI (authority engineAB) = true →
     ∀ type, isURI (mintURI counterUuid type engineAB).1 = true).
Proof.
  apply (identifiers_ingested_by_reference decimal counterUuid fixedClock
           nativeSource counterUuid_inj counterUuid_plain nativeSource_plain
           engineAB [atomA; fragmentAB]);
    [apply engineAB_reachable|discriminate|by repeat constructor].
Defined.

Lemma findNeighbors_of_atom_witness :
  ∃ rightOf leftOf,
    findNeighbors atomA right engineAB = Return rightOf
    ∧ findNeighbors atomA left engineAB = Return leftOf
    ∧ (∀ c p, mkNeighbor c p ∈ rightOf →
         fragmentEntry engineAB [Str atomA; c] = Some p)
    ∧ (∀ c p, getFragmentUri engineAB [atomA; c] = Some p →
         mkNeighbor (Str c) p ∈ rightOf)
    ∧ (∀ c p, mkNeighbor c p ∈ leftOf →
         fragmentEntry engineAB [c; Str atomA] = Some p)
    ∧ (∀ c p, getFragmentUri engineAB [c; atomA] = Some p →
         mkNeighbor (Str c) p ∈ leftOf).
Proof.
  refine (findNeighbors_of_atom decimal counterUuid fixedClock nativeSource
            counterUuid_inj counterUuid_plain nativeSource_plain
            engineAB atomA _
            (engineAB_reachable_by no_delete (λ _, I)) _).
  by vm_compute.
Defined.

Lemma findParentNode_of_atoms_witness :
  findParentNode atomA atomB engineAB
  = Return (getFragmentUri engineAB [atomA; atomB]).
Proof.
  refine (findParentNode_of_atoms decimal counterUuid fixedClock nativeSource
            counterUuid_inj counterUuid_plain nativeSource_plain
            engineAB atomA atomB _ _
            (engineAB_reachable_by no_delete (λ _, I)) _ _);
    by vm_compute.
Defined.

Lemma ingested_items_are_neighbours_witness :
  ∃ x y p a b rightOf leftOf,
    getNode (ingest ab engine0).2 x = Own (Atom a)
    ∧ String_of decimal (rdf_value a) = "a"
    ∧ getNode (ingest ab engine0).2 y = Own (Atom b)
    ∧ String_of decimal (rdf_value b) = "b"
    ∧ getFragmentUri (ingest ab engine0).2 [x; y] = Some p
    ∧ findParentNode x y (ingest ab engine0).2 = Return (Some p)
    ∧ findNeighbors x right (ingest ab engine0).2 = Return rightOf
    ∧ mkNeighbor (Str y) p ∈ rightOf
    ∧ findNeighbors y left (ingest ab engine0).2 = Return leftOf
    ∧ mkNeighbor (Str x) p ∈ leftOf.
Proof.
  apply (ingested_items_are_neighbours decimal counterUuid fixedClock
           nativeSource counterUuid_inj counterUuid_plain nativeSource_plain
           ab engine0 0 (VString "a") (VString "b"));
    [apply engine0_reachable_by|reflexivity|reflexivity
    |by vm_compute|by vm_compute|by vm_compute|by vm_compute].
Defined.


Lemma promote_demote_inverse_witness :
  promoteToStructural atomA engineAB = Return wrapperA
  ∧ demoteToAtom wrapperA engineAB = Return (Str atomA)
  ∧ bind (promoteToStructural atomA engineAB)
      (λ promoted, demoteToAtom promoted engineAB)
    = Return (Str atomA)
  ∧ bind (demoteToAtom wrapperA engineAB)
      (λ demoted, promoteToStructural (ref_key nativeSource demoted) engineAB)
    = Return wrapperA.
Proof.
  refine (promote_demote_inverse decimal counterUuid fixedClock nativeSource
            counterUuid_inj counterUuid_plain nativeSource_plain
            engineAB atomA wrapperA _ engineAB_reachable _ _);
    by vm_compute.
Defined.

Lemma findNeighbors_from_debug_witness :
  findNeighbors atomA right engineAB
  = bind (getDebugNeighbors atomA engineAB) (λ scan,
      each (cleanNeighbor engineAB)
        (filter (λ d, relation d = relation_of right) scan)).
Proof.
  apply (findNeighbors_from_debug decimal counterUuid fixedClock nativeSource
           counterUuid_inj counterUuid_plain nativeSource_plain
           engineAB atomA right), engineAB_reachable.
Defined.


Lemma repository_matches_registries_witness :
  NoDup (node_id <$> getAllNodes engineAB)
  ∧ (∀ node, node ∈ getAllNodes engineAB
             ↔ getNode engineAB (node_id node) = Own node)
  ∧ length (getAllNodes engineAB)
    = size (atomRegistry (state engineAB))
      + size (fragmentRegistry (state engineAB)).
Proof.
  apply (repository_matches_registries decimal counterUuid fixedClock
           nativeSource counterUuid_inj counterUuid_plain nativeSource_plain
           engineAB), engineAB_reachable.
Defined.

Lemma deleteNode_frame_witness :
  getNode (deleteNode wrapperA engineAB) wrapperA = Undefined
  ∧ deleteNode "urn:absent" engineAB = notify engineAB.
Proof.
  split.
  - apply (deleteNode_frame decimal counterUuid fixedClock nativeSource
             counterUuid_inj counterUuid_plain nativeSource_plain
             wrapperA engineAB).
  - apply (deleteNode_frame decimal counterUuid fixedClock nativeSource
             counterUuid_inj counterUuid_plain nativeSource_plain
             "urn:absent" engineAB); [apply engineAB_reachable|by vm_compute].
Defined.

Lemma getCanonicalAtom_keys_on_string_witness :
  String_of decimal (VNumber 1%Z) = String_of decimal (VString "1")
  ∧ (canonicalAtom (VString "1") (canonicalAtom (VNumber 1%Z) engine0).2).1
    = (canonicalAtom (VNumber 1%Z) engine0).1.
Proof.
  split; [by vm_compute|].
  apply (getCanonicalAtom_keys_on_string decimal counterUuid fixedClock
           nativeSource counterUuid_inj counterUuid_plain nativeSource_plain
           (VNumber 1%Z) (VString "1") engine0).
  by vm_compute.
Defined.
